(** * lnd: the Tor controller ([tor/controller.go]) and the peer-wire codec

  A shallow embedding of package [tor]'s control-port client and of the
  parts of package [lnwire] exercised by [lnwire/lnwire_test.go].

  Go strings and byte slices are byte sequences; both are rendered as
  [string] (a sequence of 8-bit [ascii]).  Go's [int] is rendered as [Z]. *)

From Stdlib Require Import ZArith Lia Ascii String List Bool DecimalString.
From stdpp Require Import base option list strings gmap sorting.

Local Open Scope Z_scope.

(** ** The Go library functions the source calls *)

Module Go.

(** [strings.HasPrefix(s, prefix)] *)
Fixpoint HasPrefix (s prefix : string) {struct prefix} : bool :=
  match prefix, s with
  | EmptyString, _ => true
  | String p prefix', String c s' => Ascii.eqb p c && HasPrefix s' prefix'
  | String _ _, EmptyString => false
  end.

(** [strings.Contains(s, substr)]: some suffix of [s] starts with
    [substr]. *)
Fixpoint Contains (s substr : string) : bool :=
  HasPrefix s substr ||
  match s with
  | EmptyString => false
  | String _ s' => Contains s' substr
  end.

(** [strings.Split(s, sep)] for a one-byte separator, the only kind the
    source uses.  The result is never empty: splitting the empty
    string gives one empty part. *)
Fixpoint Split (s : string) (sep : ascii) : list string :=
  match s with
  | EmptyString => [EmptyString]
  | String c s' =>
      if Ascii.eqb c sep then EmptyString :: Split s' sep
      else match Split s' sep with
           | h :: t => String c h :: t
           | [] => [String c EmptyString]
           end
  end.

(** [strings.Join(elems, sep)] *)
Fixpoint Join (elems : list string) (sep : string) : string :=
  match elems with
  | [] => EmptyString
  | [e] => e
  | e :: rest => e +:+ sep +:+ Join rest sep
  end.

(** [strings.SplitN(s, sep, 2)] for a one-byte separator: cut at the first
    separator, if there is one. *)
Fixpoint SplitN2 (s : string) (sep : ascii) : list string :=
  match s with
  | EmptyString => [EmptyString]
  | String c s' =>
      if Ascii.eqb c sep then [EmptyString; s']
      else match SplitN2 s' sep with
           | h :: t => String c h :: t
           | [] => [String c EmptyString]
           end
  end.

(** [strings.Trim(s, cutset)] for a one-byte cutset: drop every leading
    and trailing occurrence of the byte. *)
Fixpoint TrimLeft (s : string) (c : ascii) : string :=
  match s with
  | String a s' => if Ascii.eqb a c then TrimLeft s' c else s
  | EmptyString => EmptyString
  end.

Fixpoint TrimRight (s : string) (c : ascii) : string :=
  match s with
  | EmptyString => EmptyString
  | String a s' =>
      match TrimRight s' c with
      | EmptyString => if Ascii.eqb a c then EmptyString
                       else String a EmptyString
      | r => String a r
      end
  end.

Definition Trim (s : string) (c : ascii) : string :=
  TrimRight (TrimLeft s c) c.

(** [s[i:]] and [s[:i]] for [i <= len(s)]. *)
Fixpoint drop (n : nat) (s : string) : string :=
  match n, s with
  | O, _ => s
  | S n', String _ s' => drop n' s'
  | S _, EmptyString => EmptyString
  end.

Fixpoint take (n : nat) (s : string) : string :=
  match n, s with
  | O, _ => EmptyString
  | S n', String c s' => String c (take n' s')
  | S _, EmptyString => EmptyString
  end.

(** [s < t] on Go strings: byte-wise lexicographic order. *)
Definition lt (s t : string) : bool := String.ltb s t.

(** *** strconv.Atoi *)

Definition digit (c : ascii) : option Z :=
  let n := Z.of_N (N_of_ascii c) in
  if (48 <=? n) && (n <=? 57) then Some (n - 48) else None.

Inductive NumErr := ErrSyntax | ErrRange.

(** The digit loop of [strconv.ParseUint(s, 10, 64)]: a byte that is not a
    decimal digit is a syntax error, a value above [2^64 - 1] a range
    error, each reported where the scan meets it. *)
Fixpoint digits (acc : Z) (s : string) : Z + NumErr :=
  match s with
  | EmptyString => inl acc
  | String c s' =>
      match digit c with
      | None => inr ErrSyntax
      | Some d =>
          if 2 ^ 64 - 1 <? 10 * acc + d then inr ErrRange
          else digits (10 * acc + d) s'
      end
  end.

(** [strconv.Atoi(s)] with a 64-bit [int]: an optional sign, then at least
    one decimal digit; the value must fit an [int].  Like the Go function
    it returns a value next to the error: [0] on a syntax error, the
    nearest bound on a range error. *)
Definition Atoi (s : string) : Z * option NumErr :=
  let '(neg, body) :=
    match s with
    | String "-" r => (true, r)
    | String "+" r => (false, r)
    | _ => (false, s)
    end in
  match body with
  | EmptyString => (0, Some ErrSyntax)
  | _ =>
      match digits 0 body with
      | inr ErrSyntax => (0, Some ErrSyntax)
      | inr ErrRange =>
          (if neg then - 2 ^ 63 else 2 ^ 63 - 1, Some ErrRange)
      | inl n =>
          if negb neg && (2 ^ 63 <=? n) then (2 ^ 63 - 1, Some ErrRange)
          else if neg && (2 ^ 63 <? n) then (- 2 ^ 63, Some ErrRange)
          else (if neg then - n else n, None)
      end
  end.

(** The [%d] verb of [fmt] on an [int]. *)
Definition Itoa (n : Z) : string :=
  DecimalString.NilZero.string_of_int (Z.to_int n).

(** *** encoding/hex and the [%x] verb *)

Definition hexDigit (n : Z) : ascii :=
  ascii_of_N (Z.to_N (if n <? 10 then 48 + n else 87 + n)).

(** [hex.EncodeToString(b)], which is also [fmt.Sprintf("%x", b)]: two
    lower-case digits per byte. *)
Fixpoint EncodeToString (b : string) : string :=
  match b with
  | EmptyString => EmptyString
  | String c b' =>
      let n := Z.of_N (N_of_ascii c) in
      String (hexDigit (n / 16)) (String (hexDigit (n mod 16))
        (EncodeToString b'))
  end.

(** [reverseHexTable]: digits and letters of either case. *)
Definition fromHexChar (c : ascii) : option Z :=
  let n := Z.of_N (N_of_ascii c) in
  if (48 <=? n) && (n <=? 57) then Some (n - 48)
  else if (97 <=? n) && (n <=? 102) then Some (n - 87)
  else if (65 <=? n) && (n <=? 70) then Some (n - 55)
  else None.

Inductive HexErr := InvalidByteError (c : ascii) | ErrLength.

(** [hex.DecodeString(s)]: an invalid digit is reported before an odd
    length. *)
Fixpoint DecodeString (s : string) : string + HexErr :=
  match s with
  | EmptyString => inl EmptyString
  | String p EmptyString =>
      match fromHexChar p with
      | None => inr (InvalidByteError p)
      | Some _ => inr ErrLength
      end
  | String p (String q s') =>
      match fromHexChar p, fromHexChar q with
      | None, _ => inr (InvalidByteError p)
      | Some _, None => inr (InvalidByteError q)
      | Some a, Some b =>
          match DecodeString s' with
          | inl r => inl (String (ascii_of_N (Z.to_N (16 * a + b))) r)
          | inr e => inr e
          end
      end
  end.

(** *** crypto/sha256 and crypto/hmac

    32-bit words are [Z] reduced modulo [2^32]. *)

Definition w32 (x : Z) : Z := x mod 2 ^ 32.

Definition rotr (n x : Z) : Z :=
  Z.lor (Z.shiftr x n) (w32 (Z.shiftl x (32 - n))).

Definition Ch (x y z : Z) : Z :=
  Z.lxor (Z.land x y) (Z.land (Z.lxor x (2 ^ 32 - 1)) z).

Definition Maj (x y z : Z) : Z :=
  Z.lxor (Z.lxor (Z.land x y) (Z.land x z)) (Z.land y z).

Definition bsig0 (x : Z) : Z :=
  Z.lxor (Z.lxor (rotr 2 x) (rotr 13 x)) (rotr 22 x).

Definition bsig1 (x : Z) : Z :=
  Z.lxor (Z.lxor (rotr 6 x) (rotr 11 x)) (rotr 25 x).

Definition ssig0 (x : Z) : Z :=
  Z.lxor (Z.lxor (rotr 7 x) (rotr 18 x)) (Z.shiftr x 3).

Definition ssig1 (x : Z) : Z :=
  Z.lxor (Z.lxor (rotr 17 x) (rotr 19 x)) (Z.shiftr x 10).

(** The first 64 primes. *)
Definition isPrime (n : Z) : bool :=
  forallb (fun d => negb (n mod Z.of_nat d =? 0)) (seq 2 (Z.to_nat n - 2)).

Definition primes64 : list Z :=
  filter (fun n => isPrime n = true) (Z.of_nat <$> seq 2 310).

(** The integer cube root, bit by bit from bit [k - 1] down. *)
Fixpoint cubeRoot (k : nat) (r n : Z) : Z :=
  match k with
  | O => r
  | S k' =>
      let r' := r + 2 ^ Z.of_nat k' in
      cubeRoot k' (if r' * r' * r' <=? n then r' else r) n
  end.

(** The round constants: the first 32 bits of the fractional parts of the
    cube roots of the first 64 primes. *)
Definition sha256_K : list Z :=
  Eval vm_compute in
    (fun p => w32 (cubeRoot 36 0 (p * 2 ^ 96))) <$> primes64.

(** The eight working variables, [a] to [h]. *)
Record digest := Digest { dA : Z; dB : Z; dC : Z; dD : Z;
                          dE : Z; dF : Z; dG : Z; dH : Z }.

(** The initial hash value: the first 32 bits of the fractional parts of
    the square roots of the first eight primes. *)
Definition fracSqrt (p : Z) : Z := w32 (Z.sqrt (p * 2 ^ 64)).

Definition sha256_init : digest :=
  Digest (fracSqrt 2) (fracSqrt 3) (fracSqrt 5) (fracSqrt 7)
         (fracSqrt 11) (fracSqrt 13) (fracSqrt 17) (fracSqrt 19).

(** The message schedule, latest word first: [rev w] holds the words
    produced so far. *)
Fixpoint schedule (n : nat) (rev_w : list Z) : list Z :=
  match n with
  | O => rev_w
  | S n' =>
      let at_ i := nth i rev_w 0 in
      schedule n'
        (w32 (ssig1 (at_ 1%nat) + at_ 6%nat + ssig0 (at_ 14%nat)
              + at_ 15%nat) :: rev_w)
  end.

Definition round (d : digest) (kw : Z * Z) : digest :=
  let '(k, w) := kw in
  let t1 := w32 (dH d + bsig1 (dE d) + Ch (dE d) (dF d) (dG d) + k + w) in
  let t2 := w32 (bsig0 (dA d) + Maj (dA d) (dB d) (dC d)) in
  Digest (w32 (t1 + t2)) (dA d) (dB d) (dC d)
         (w32 (dD d + t1)) (dE d) (dF d) (dG d).

(** One 64-byte block, given as its sixteen big-endian words. *)
Definition block (d : digest) (words : list Z) : digest :=
  let w := rev (schedule 48 (rev words)) in
  let r := fold_left round (combine sha256_K w) d in
  Digest (w32 (dA d + dA r)) (w32 (dB d + dB r)) (w32 (dC d + dC r))
         (w32 (dD d + dD r)) (w32 (dE d + dE r)) (w32 (dF d + dF r))
         (w32 (dG d + dG r)) (w32 (dH d + dH r)).

Fixpoint bytesOf (s : string) : list Z :=
  match s with
  | EmptyString => []
  | String c s' => Z.of_N (N_of_ascii c) :: bytesOf s'
  end.

Fixpoint ofBytes (l : list Z) : string :=
  match l with
  | [] => EmptyString
  | b :: l' => String (ascii_of_N (Z.to_N b)) (ofBytes l')
  end.

(** Big-endian bytes of a word of [n] bytes. *)
Fixpoint beBytes (n : nat) (x : Z) : list Z :=
  match n with
  | O => []
  | S n' => beBytes n' (x / 256) ++ [x mod 256]
  end.

Fixpoint beWords (l : list Z) : list Z :=
  match l with
  | a :: b :: c :: d :: l' =>
      (((a * 256 + b) * 256 + c) * 256 + d) :: beWords l'
  | _ => []
  end.

(** Padding: a [0x80] byte, zeros up to 56 modulo 64, the bit length on
    eight bytes. *)
Definition pad (msg : list Z) : list Z :=
  let n := Z.of_nat (length msg) in
  msg ++ [128] ++ repeat 0 (Z.to_nat ((55 - n) mod 64)) ++ beBytes 8 (8 * n).

Fixpoint blocks (n : nat) (d : digest) (words : list Z) : digest :=
  match n with
  | O => d
  | S n' => blocks n' (block d (firstn 16 words)) (skipn 16 words)
  end.

Definition Sum256 (msg : string) : string :=
  let p := pad (bytesOf msg) in
  let d := blocks (length p / 64) sha256_init (beWords p) in
  ofBytes (beBytes 4 (dA d) ++ beBytes 4 (dB d) ++ beBytes 4 (dC d)
           ++ beBytes 4 (dD d) ++ beBytes 4 (dE d) ++ beBytes 4 (dF d)
           ++ beBytes 4 (dG d) ++ beBytes 4 (dH d)).

Fixpoint xorPad (byte : Z) (n : nat) (key : list Z) : list Z :=
  match n with
  | O => []
  | S n' =>
      match key with
      | [] => byte :: xorPad byte n' []
      | k :: key' => Z.lxor k byte :: xorPad byte n' key'
      end
  end.

(** [hmac.New(sha256.New, key)], [Write(message)], [Sum(nil)]: a key
    longer than the 64-byte block is hashed first. *)
Definition HMAC_SHA256 (key message : string) : string :=
  let k := if (64 <? String.length key)%nat then Sum256 key else key in
  let ipad := ofBytes (xorPad 0x36 64 (bytesOf k)) in
  let opad := ofBytes (xorPad 0x5c 64 (bytesOf k)) in
  Sum256 (opad +:+ Sum256 (ipad +:+ message)).

End Go.

(** ** Package runtime: the [range] loop over a string and [string(rune)] *)

Module runtime.

(** [for _, r := range s] takes a byte below 0x80 as it is and calls
    [decoderune] of package runtime on any other; [string(r)] is
    [encoderune]. *)

Definition runeError : Z := 65533.
Definition maxRune : Z := 1114111.

Definition byteVal (c : ascii) : Z := Z.of_N (N_of_ascii c).
Definition byte (v : Z) : ascii := ascii_of_N (Z.to_N (v mod 256)).

(** A continuation byte: between [locb] and [hicb]. *)
Definition continuation (b : Z) : bool := (128 <=? b) && (b <=? 191).

(** [decoderune(s, k)] at the head of [s]: the rune and the number of
    bytes it takes.  An encoding that is cut short, has a wrong
    continuation byte, is longer than it need be, or gives a surrogate or
    a value above [maxRune], yields [runeError] and takes one byte. *)
Definition decoderune (s : string) : Z * nat :=
  match s with
  | String c0 (String c1 rest1) =>
      let s0 := byteVal c0 in
      let s1 := byteVal c1 in
      if (192 <=? s0) && (s0 <? 224) then
        if continuation s1 then
          let r := Z.lor (Z.shiftl (Z.land s0 31) 6) (Z.land s1 63) in
          if 127 <? r then (r, 2%nat) else (runeError, 1%nat)
        else (runeError, 1%nat)
      else if (224 <=? s0) && (s0 <? 240) then
        match rest1 with
        | String c2 _ =>
            let s2 := byteVal c2 in
            if continuation s1 && continuation s2 then
              let r := Z.lor (Z.lor (Z.shiftl (Z.land s0 15) 12)
                                    (Z.shiftl (Z.land s1 63) 6))
                             (Z.land s2 63) in
              if (2047 <? r) && negb ((55296 <=? r) && (r <=? 57343))
              then (r, 3%nat) else (runeError, 1%nat)
            else (runeError, 1%nat)
        | EmptyString => (runeError, 1%nat)
        end
      else if (240 <=? s0) && (s0 <? 248) then
        match rest1 with
        | String c2 (String c3 _) =>
            let s2 := byteVal c2 in
            let s3 := byteVal c3 in
            if continuation s1 && continuation s2 && continuation s3 then
              let r := Z.lor (Z.lor (Z.lor (Z.shiftl (Z.land s0 7) 18)
                                           (Z.shiftl (Z.land s1 63) 12))
                                    (Z.shiftl (Z.land s2 63) 6))
                             (Z.land s3 63) in
              if (65535 <? r) && (r <=? maxRune)
              then (r, 4%nat) else (runeError, 1%nat)
            else (runeError, 1%nat)
        | _ => (runeError, 1%nat)
        end
      else (runeError, 1%nat)
  | _ => (runeError, 1%nat)
  end.

(** The rune at the head of a string that is not empty, as the [range]
    loop takes it. *)
Definition rangeRune (s : string) : Z * nat :=
  match s with
  | String c0 _ =>
      if byteVal c0 <? 128 then (byteVal c0, 1%nat) else decoderune s
  | EmptyString => (runeError, 1%nat)
  end.

(** [encoderune]: the bytes of [string(r)]. *)
Definition encoderune (r : Z) : string :=
  let three (r : Z) :=
    String (byte (Z.lor 224 (Z.shiftr r 12)))
      (String (byte (Z.lor 128 (Z.land (Z.shiftr r 6) 63)))
         (String (byte (Z.lor 128 (Z.land r 63))) EmptyString)) in
  let i := r mod 2 ^ 32 in
  if i <=? 127 then String (byte r) EmptyString
  else if i <=? 2047 then
    String (byte (Z.lor 192 (Z.shiftr r 6)))
      (String (byte (Z.lor 128 (Z.land r 63))) EmptyString)
  else if (maxRune <? i) || ((55296 <=? i) && (i <=? 57343)) then
    three runeError
  else if i <=? 65535 then three r
  else
    String (byte (Z.lor 240 (Z.shiftr r 18)))
      (String (byte (Z.lor 128 (Z.land (Z.shiftr r 12) 63)))
         (String (byte (Z.lor 128 (Z.land (Z.shiftr r 6) 63)))
            (String (byte (Z.lor 128 (Z.land r 63))) EmptyString))).

End runtime.

(** ** Package tor: [controller.go] *)

Module tor.

Definition LF : ascii := "010"%char.
Definition CR : ascii := "013"%char.
Definition CRLF : string := String CR (String LF EmptyString).
Definition quote : ascii := ascii_of_nat 34.
Definition backslash : ascii := "\"%char.

(** *** Constants *)

Definition success : Z := 250.
Definition invalidNumOfArguments : Z := 512.
Definition serviceIDNotRecognized : Z := 552.
Definition nonceLen : nat := 32.
Definition cookieLen : nat := 32.
Definition sha256_Size : nat := 32.
Definition ProtocolInfoVersion : Z := 1.
Definition MinTorVersion : string := "0.3.3.6".
Definition authSafeCookie : string := "SAFECOOKIE".
Definition authHashedPassword : string := "HASHEDPASSWORD".
Definition authNull : string := "NULL".

Definition serverKey : string :=
  "Tor safe cookie authentication " +:+ "server-to-controller hash".

Definition controllerKey : string :=
  "Tor safe cookie authentication " +:+ "controller-to-server hash".

(** *** Errors

    The sentinel errors of the file, the two ways it builds new ones
    ([errors.New] or [fmt.Errorf] with string operands give an
    [errorString]; [fmt.Errorf] around another error keeps its format and
    that error), and the library errors that can reach its callers. *)
Inductive error :=
| errCodeNotMatch
| errTCNotStarted
| errTCStopped
| errorString (msg : string)
| Errorf (format : string) (err : error)
| ProtocolError (msg : string)
| NumError (func num : string) (err : Go.NumErr)
| HexError (err : Go.HexErr)
| EOF
| ErrUnexpectedEOF
| ErrClosed
| ErrNotExist (path : string)
| ErrEntropy
| ErrDial.

(** *** supportsV3 *)

(** The loop over [parts]: the error of the first part [strconv.Atoi]
    rejects. *)
Fixpoint firstAtoiError (parts : list string) : option error :=
  match parts with
  | [] => None
  | part :: rest =>
      match snd (Go.Atoi part) with
      | Some e => Some (NumError "Atoi" part e)
      | None => firstAtoiError rest
      end
  end.

Definition supportsV3 (version : string) : option error :=
  let parts := Go.Split version "." in
  if negb (length parts =? 4)%nat then
    Some (errorString ("version string is not of the format " +:+
                       "major.minor.revision.build"))
  else
    let build := Go.Split (nth (length parts - 1) parts EmptyString) "-" in
    let parts := <[ (length parts - 1)%nat := nth 0 build EmptyString ]> parts in
    match firstAtoiError parts with
    | Some err => Some err
    | None =>
        if Go.lt version MinTorVersion then
          Some (errorString ("version " +:+ version +:+
                             " below minimum version supported " +:+
                             MinTorVersion))
        else None
    end.

(** *** protocolInfo, a [map[string]string] *)

Definition protocolInfo_version (i : gmap string string) : string :=
  let version := default EmptyString (i !! "Tor") in
  Go.Trim version quote.

Definition supportsAuthMethod (i : gmap string string) (method : string)
  : bool :=
  match i !! "METHODS" with
  | None => false
  | Some methods => Go.Contains methods method
  end.

(** *** unescapeValue and parseTorReply *)

(** The loop of [unescapeValue], [justRemovedBackslash] being the flag of
    the source.  The source ranges over runes and appends each one
    re-encoded, which on a value that is valid UTF-8 is this loop over its
    bytes: the backslash is one byte and never part of a longer rune. *)
Fixpoint unescapeLoop (justRemovedBackslash : bool) (value : string)
  : string :=
  match value with
  | EmptyString => EmptyString
  | String char rest =>
      if Ascii.eqb char backslash && negb justRemovedBackslash
      then unescapeLoop true rest
      else String char (unescapeLoop false rest)
  end.

Definition unescapeValue (value : string) : string :=
  unescapeLoop false value.

(** The loop of [unescapeValue] as the source writes it, over the runes
    of [value]: each rune that is kept is appended as [string(char)].
    [skip] counts the bytes of the current rune still to pass. *)
Fixpoint unescapeRunes (skip : nat) (justRemovedBackslash : bool)
         (value : string) : string :=
  match value with
  | EmptyString => EmptyString
  | String _ rest =>
      match skip with
      | S k => unescapeRunes k justRemovedBackslash rest
      | O =>
          let '(char, width) := runtime.rangeRune value in
          if (char =? 92) && negb justRemovedBackslash
          then unescapeRunes (width - 1) true rest
          else runtime.encoderune char
               +:+ unescapeRunes (width - 1) false rest
      end
  end.

Definition unescapeValue_runes (value : string) : string :=
  unescapeRunes 0 false value.

(** [replyFieldRegexp] is, with Q for the double quote, F for the class
    [[^Q \r\n]] and E for the class [[^Q\\]|\\[\0-\x7F]], the expression
    F+ = (?: Q E* Q | F* ), spaces added.  [fieldByte] is the class F. *)
Definition fieldByte (c : ascii) : bool :=
  negb (Ascii.eqb c quote || Ascii.eqb c " " || Ascii.eqb c CR
        || Ascii.eqb c LF).

(** The longest prefix of field bytes, and what follows it. *)
Fixpoint fieldRun (s : string) : string * string :=
  match s with
  | EmptyString => (EmptyString, EmptyString)
  | String c s' =>
      if fieldByte c then
        let '(run, rest) := fieldRun s' in (String c run, rest)
      else (EmptyString, s)
  end.

(** The group [QE*Q] after its opening quote: the
    text up to and including the closing quote, and what follows.  Every
    position offers one way to go on (a byte that is neither quote nor
    backslash, or a backslash and a 7-bit byte), so the greedy star has
    nothing to back off to. *)
Fixpoint quoted (s : string) : option (string * string) :=
  match s with
  | EmptyString => None
  | String c s' =>
      if Ascii.eqb c quote then Some (String quote EmptyString, s')
      else if Ascii.eqb c backslash then
        match s' with
        | EmptyString => None
        | String e s'' =>
            if (N_of_ascii e <? 128)%N then
              match quoted s'' with
              | Some (q, rest) => Some (String c (String e q), rest)
              | None => None
              end
            else None
        end
      else
        match quoted s' with
        | Some (q, rest) => Some (String c q, rest)
        | None => None
        end
  end.

Fixpoint lastByte (s : string) : option ascii :=
  match s with
  | EmptyString => None
  | String c EmptyString => Some c
  | String _ s' => lastByte s'
  end.

(** The match of [replyFieldRegexp] that starts at the head of [s], if
    there is one.  [F+] also takes ['='], so the greedy plus first
    runs to the end of the field bytes and backs off to their last ['='],
    which must not be their first byte.  The quoted alternative comes
    first and needs a quote right after that ['=']; the other alternative
    takes the field bytes that are left. *)
Definition matchAt (s : string) : option string :=
  let '(run, rest) := fieldRun s in
  match run with
  | EmptyString => None
  | String _ tail =>
      if Go.Contains tail "=" then
        match lastByte run, rest with
        | Some last, String c after =>
            if Ascii.eqb last "=" && Ascii.eqb c quote then
              match quoted after with
              | Some (q, _) => Some (run +:+ String quote q)
              | None => Some run
              end
            else Some run
        | _, _ => Some run
        end
      else None
  end.

(** [replyFieldRegexp.FindAllString(reply, -1)]: the leftmost match, then
    the leftmost match after it, and so on.  [skip] counts the bytes of
    the current match still to pass. *)
Fixpoint findAllFrom (skip : nat) (s : string) : list string :=
  match s with
  | EmptyString => []
  | String _ s' =>
      match skip with
      | S k => findAllFrom k s'
      | O =>
          match matchAt s with
          | Some m => m :: findAllFrom (String.length m - 1) s'
          | None => findAllFrom 0 s'
          end
      end
  end.

Definition FindAllString (reply : string) : list string :=
  findAllFrom 0 reply.

(** One turn of the loop of [parseTorReply]. *)
Definition parseField (params : gmap string string) (content : string)
  : gmap string string :=
  let keyValue := Go.SplitN2 content "=" in
  let key := nth 0 keyValue EmptyString in
  let value := nth 1 keyValue EmptyString in
  let value :=
    if Go.HasPrefix value (String quote EmptyString) then
      unescapeValue (Go.take (String.length value - 2) (Go.drop 1 value))
    else value in
  <[ key := value ]> params.

Definition parseTorReply (reply : string) : gmap string string :=
  fold_left parseField (FindAllString reply) ∅.

(** *** The connection

    [c.conn] is a [*textproto.Conn]: a [bufio.Reader] [R] over the socket
    and a writer.  [R] holds the bytes read from the socket and not yet
    consumed; [incoming] is what the socket will still deliver, one chunk
    for each [Read] the reader issues, and end of file after the last.
    [cmds] records the format strings passed to [Cmd]; [Cmd] is called
    with no operands, so a format without ['%'] goes out as it is, followed
    by CRLF.  Lines are taken to fit the reader's buffer, so that
    [bufio.ErrBufferFull] does not arise. *)
Record Conn := mkConn {
  R : string;
  incoming : list string;
  cmds : list string;
  closed : bool }.

Definition setR (buf : string) (inc : list string) (c : Conn) : Conn :=
  mkConn buf inc (cmds c) (closed c).

(** [bytes.IndexByte] *)
Fixpoint IndexByte (s : string) (b : ascii) : option nat :=
  match s with
  | EmptyString => None
  | String c s' =>
      if Ascii.eqb c b then Some O else S <$> IndexByte s' b
  end.

(** [bufio.Reader.ReadSlice('\n')]: search the buffer; when the delimiter
    is not there, fill the buffer with the next chunk and search again;
    when the socket has failed, hand out what is buffered with the
    error. *)
Fixpoint ReadSlice (isClosed : bool) (buf : string) (inc : list string)
  : (string * option error) * (string * list string) :=
  match IndexByte buf LF with
  | Some i => ((Go.take (S i) buf, None), (Go.drop (S i) buf, inc))
  | None =>
      if isClosed then ((buf, Some ErrClosed), (EmptyString, inc))
      else
        match inc with
        | [] => ((buf, Some EOF), (EmptyString, []))
        | chunk :: more => ReadSlice isClosed (buf +:+ chunk) more
        end
  end.

(** The end of [bufio.Reader.ReadLine]: drop a final LF, and a CR before
    it. *)
Fixpoint chomp (line : string) : string :=
  match line with
  | EmptyString => EmptyString
  | String c rest =>
      if Ascii.eqb c LF && String.eqb rest EmptyString then EmptyString
      else if Ascii.eqb c CR && String.eqb rest (String LF EmptyString)
      then EmptyString
      else String c (chomp rest)
  end.

(** [textproto.Reader.ReadLine], through [bufio.Reader.ReadLine]: an error
    is reported only when no byte at all could be read; a last line cut
    short by the end of the stream is returned as a line. *)
Definition ReadLine (c : Conn) : (string * option error) * Conn :=
  let '((line, err), (buf, inc)) := ReadSlice (closed c) (R c) (incoming c) in
  match line with
  | EmptyString => ((EmptyString, err), setR buf inc c)
  | _ => ((chomp line, None), setR buf inc c)
  end.

(** The number of bytes the connection can still yield.  A [ReadLine] that
    succeeds consumes at least one of them, which bounds the loops
    below. *)
Fixpoint sizeAll (chunks : list string) : nat :=
  match chunks with
  | [] => O
  | chunk :: more => String.length chunk + sizeAll more
  end.

Definition pending (c : Conn) : nat :=
  String.length (R c) + sizeAll (incoming c).

(** The loop of [textproto.Reader.ReadDotLines]. *)
Fixpoint dotLoop (fuel : nat) (v : list string) (c : Conn)
  : option ((list string * option error) * Conn) :=
  match fuel with
  | O => None
  | S fuel' =>
      let '((line, err), c1) := ReadLine c in
      match err with
      | Some e =>
          Some ((v, Some (match e with EOF => ErrUnexpectedEOF | _ => e end)),
                c1)
      | None =>
          let '(stop, line) :=
            match line with
            | String c rest =>
                if Ascii.eqb c "." then
                  if (String.length line =? 1)%nat then (true, line)
                  else (false, rest)
                else (false, line)
            | EmptyString => (false, line)
            end in
          if stop then Some ((v, None), c1)
          else dotLoop fuel' (v ++ [line]) c1
      end
  end.

Definition ReadDotLines (c : Conn) : (list string * option error) * Conn :=
  match dotLoop (S (pending c)) [] c with
  | Some r => r
  | None => (([], Some ErrUnexpectedEOF), c)
  end.

(** [line[3]] *)
Definition byteAt (n : nat) (s : string) : ascii :=
  match Go.drop n s with
  | String c _ => c
  | EmptyString => zero
  end.

(** The [for hasMoreLines] loop of [readResponse].  [reply] is the
    variable of the source; the loop is left through [return] in every
    case but that of a line that asks for more. *)
Fixpoint readLoop (fuel : nat) (expected : Z) (reply : string) (c : Conn)
  : option ((Z * string * option error) * Conn) :=
  match fuel with
  | O => None
  | S fuel' =>
      let '((line, err), c1) := ReadLine c in
      match err with
      | Some e => Some ((0, reply, Some e), c1)
      | None =>
          if (String.length line <? 4)%nat then
            Some ((0, reply, Some (ProtocolError ("short line: " +:+ line))),
                  c1)
          else
            let '(code, aerr) := Go.Atoi (Go.take 3 line) in
            match aerr with
            | Some e =>
                Some ((code, reply,
                       Some (NumError "Atoi" (Go.take 3 line) e)), c1)
            | None =>
                let sep := byteAt 3 line in
                if Ascii.eqb sep " " then
                  let reply := reply +:+ Go.drop 4 line in
                  if negb (code =? expected)
                  then Some ((code, reply, Some errCodeNotMatch), c1)
                  else Some ((code, reply, None), c1)
                else if Ascii.eqb sep "-" then
                  let reply := reply +:+ Go.drop 4 line in
                  if negb (code =? expected)
                  then Some ((code, reply, Some errCodeNotMatch), c1)
                  else readLoop fuel' expected
                         (reply +:+ String LF EmptyString) c1
                else if Ascii.eqb sep "+" then
                  let reply := reply +:+ Go.drop 4 line in
                  let '((resp, derr), c2) := ReadDotLines c1 in
                  match derr with
                  | Some e => Some ((code, reply, Some e), c2)
                  | None =>
                      let reply := reply +:+ Go.Join resp "," in
                      if negb (code =? expected)
                      then Some ((code, reply, Some errCodeNotMatch), c2)
                      else readLoop fuel' expected
                             (reply +:+ String LF EmptyString) c2
                  end
                else
                  Some ((code, reply,
                         Some (ProtocolError ("invalid line: " +:+ line))),
                        c1)
            end
      end
  end.

(** The deferred call: [c.conn.R.Discard(c.conn.R.Buffered())] empties the
    reader's buffer and leaves the socket alone. *)
Definition discardBuffered (c : Conn) : Conn := setR EmptyString (incoming c) c.

(** [readResponse] on the connection of the controller.  The deferred
    discard runs on every way out. *)
Definition readResponse (expected : Z) (c : Conn)
  : (Z * string * option error) * Conn :=
  match readLoop (S (pending c)) expected EmptyString c with
  | Some (r, c') => (r, discardBuffered c')
  | None => ((0, EmptyString, Some EOF), discardBuffered c)
  end.

(** *** The controller and its surroundings *)

Record Controller := mkController {
  started : Z;
  stopped : Z;
  conn : option Conn;
  controlAddr : string;
  password : string;
  version : string;
  targetIPAddress : string;
  activeServiceID : string }.

(** What the controller reaches outside itself: the outcomes of the calls
    of [textproto.Dial] to come ([None] when the dial fails, else the
    chunks the new connection will deliver), the files [os.ReadFile] can
    read, and the bytes [rand.Read] will hand out. *)
Record World := mkWorld {
  dials : list (option (list string));
  files : gmap string string;
  entropy : string }.

Record State := mkState { ctl : Controller; world : World }.

(** A call returns, or it panics: the source dereferences [c.conn], which
    is nil until [Start] has dialled. *)
Inductive Outcome (A : Type) :=
| Done (a : A)
| Panic (msg : string).
Arguments Done {A} a.
Arguments Panic {A} msg.

Definition M (A : Type) : Type := State -> Outcome A * State.

#[export] Instance M_ret : MRet M := fun A a st => (Done a, st).

#[export] Instance M_bind : MBind M := fun A B f m st =>
  match m st with
  | (Done a, st') => f a st'
  | (Panic msg, st') => (Panic msg, st')
  end.

Definition getCtl : M Controller := fun st => (Done (ctl st), st).

Definition setCtl (f : Controller -> Controller) : M unit :=
  fun st => (Done tt, mkState (f (ctl st)) (world st)).

Definition nilDeref {A} : M A :=
  fun st => (Panic "invalid memory address or nil pointer dereference", st).

Definition set_started (v : Z) (c : Controller) : Controller :=
  mkController v (stopped c) (conn c) (controlAddr c) (password c)
               (version c) (targetIPAddress c) (activeServiceID c).

Definition set_stopped (v : Z) (c : Controller) : Controller :=
  mkController (started c) v (conn c) (controlAddr c) (password c)
               (version c) (targetIPAddress c) (activeServiceID c).

Definition set_conn (v : option Conn) (c : Controller) : Controller :=
  mkController (started c) (stopped c) v (controlAddr c) (password c)
               (version c) (targetIPAddress c) (activeServiceID c).

Definition set_version (v : string) (c : Controller) : Controller :=
  mkController (started c) (stopped c) (conn c) (controlAddr c) (password c)
               v (targetIPAddress c) (activeServiceID c).

Definition set_activeServiceID (v : string) (c : Controller) : Controller :=
  mkController (started c) (stopped c) (conn c) (controlAddr c) (password c)
               (version c) (targetIPAddress c) v.

(** [atomic.CompareAndSwapInt32(&c.started, 0, 1)] and the same on
    [c.stopped], for one caller at a time. *)
Definition CompareAndSwap_started (old new : Z) : M bool :=
  c ← getCtl;
  if started c =? old then _ ← setCtl (set_started new); mret true
  else mret false.

Definition CompareAndSwap_stopped (old new : Z) : M bool :=
  c ← getCtl;
  if stopped c =? old then _ ← setCtl (set_stopped new); mret true
  else mret false.

(** [textproto.Dial("tcp", c.controlAddr)] *)
Definition Dial : M (Conn + error) := fun st =>
  let w := world st in
  match dials w with
  | [] => (Done (inr ErrDial), st)
  | None :: later =>
      (Done (inr ErrDial),
       mkState (ctl st) (mkWorld later (files w) (entropy w)))
  | Some chunks :: later =>
      (Done (inl (mkConn EmptyString chunks [] false)),
       mkState (ctl st) (mkWorld later (files w) (entropy w)))
  end.

(** [os.ReadFile(path)] *)
Definition ReadFile (path : string) : M (string + error) := fun st =>
  match files (world st) !! path with
  | Some content => (Done (inl content), st)
  | None => (Done (inr (ErrNotExist path)), st)
  end.

(** [rand.Read(b)] for a slice of [n] bytes. *)
Definition randRead (n : nat) : M (string + error) := fun st =>
  let w := world st in
  if (String.length (entropy w) <? n)%nat then (Done (inr ErrEntropy), st)
  else (Done (inl (Go.take n (entropy w))),
        mkState (ctl st) (mkWorld (dials w) (files w) (Go.drop n (entropy w)))).

(** [c.conn.Cmd(command)]: the line is written and flushed. *)
Definition Cmd (format : string) : M (option error) :=
  c ← getCtl;
  match conn c with
  | None => nilDeref
  | Some cn =>
      if closed cn then mret (Some ErrClosed)
      else
        _ ← setCtl (set_conn (Some (mkConn (R cn) (incoming cn)
                                          (cmds cn ++ [format]) (closed cn))));
        mret None
  end.

(** [c.conn.Close()] *)
Definition Close : M (option error) :=
  c ← getCtl;
  match conn c with
  | None => nilDeref
  | Some cn =>
      if closed cn then mret (Some ErrClosed)
      else
        _ ← setCtl (set_conn (Some (mkConn (R cn) (incoming cn) (cmds cn)
                                          true)));
        mret None
  end.

(** [c.readResponse(expected)] *)
Definition Controller_readResponse (expected : Z)
  : M (Z * string * option error) :=
  c ← getCtl;
  match conn c with
  | None => nilDeref
  | Some cn =>
      let '(r, cn') := readResponse expected cn in
      _ ← setCtl (set_conn (Some cn'));
      mret r
  end.

(** [StartResponse] and [EndResponse] order the replies of concurrent
    commands; with one command at a time they do nothing. *)
Definition sendCommand (command : string) : M (Z * string * option error) :=
  err ← Cmd command;
  match err with
  | Some e => mret (0, EmptyString, Some e)
  | None => Controller_readResponse success
  end.

(** Modelled from the spec: [DelOnion] is a method of [Controller] whose
    file is not among the sources.  The spec gives [del_onion(service_id)]
    the results ok and err and lists [DEL_ONION <service-id>] among the
    commands used; it fails when the command does. *)
Definition DelOnion (serviceID : string) : M (option error) :=
  '(_, _, err) ← sendCommand ("DEL_ONION " +:+ serviceID);
  mret err.

(** [computeHMAC256] *)
Definition computeHMAC256 (key message : string) : string :=
  Go.HMAC_SHA256 key message.

(** [c.protocolInfo()] *)
Definition Controller_protocolInfo : M (gmap string string + error) :=
  let cmd := "PROTOCOLINFO " +:+ Go.Itoa ProtocolInfoVersion in
  '(_, reply, err) ← sendCommand cmd;
  match err with
  | Some e => mret (inr e)
  | None => mret (inl (parseTorReply reply))
  end.

Definition authenticateViaNull : M (option error) :=
  '(_, _, err) ← sendCommand "AUTHENTICATE";
  mret err.

Definition authenticateViaHashedPassword : M (option error) :=
  c ← getCtl;
  let cmd := "AUTHENTICATE " +:+ String quote (password c)
             +:+ String quote EmptyString in
  '(_, _, err) ← sendCommand cmd;
  mret err.

Definition getAuthCookie (info : gmap string string) : M (string + error) :=
  match info !! "COOKIEFILE" with
  | None =>
      mret (inr (errorString ("COOKIEFILE not found in PROTOCOLINFO " +:+
                              "reply")))
  | Some cookieFilePath =>
      let cookieFilePath := Go.Trim cookieFilePath quote in
      r ← ReadFile cookieFilePath;
      match r with
      | inr err => mret (inr err)
      | inl cookie =>
          if negb (String.length cookie =? cookieLen)%nat then
            mret (inr (errorString "invalid authentication cookie length"))
          else mret (inl cookie)
      end
  end.

Definition authenticateViaSafeCookie (info : gmap string string)
  : M (option error) :=
  r ← getAuthCookie info;
  match r with
  | inr err =>
      mret (Some (Errorf ("unable to retrieve authentication cookie: " +:+
                          "%v") err))
  | inl cookie =>
  r ← randRead nonceLen;
  match r with
  | inr err => mret (Some (Errorf "unable to generate client nonce: %w" err))
  | inl clientNonce =>
  let cmd := "AUTHCHALLENGE SAFECOOKIE " +:+ Go.EncodeToString clientNonce in
  '(_, reply, err) ← sendCommand cmd;
  match err with
  | Some err => mret (Some err)
  | None =>
  let replyParams := parseTorReply reply in
  match replyParams !! "SERVERHASH" with
  | None => mret (Some (errorString "server hash not found in reply"))
  | Some serverHash =>
  match Go.DecodeString serverHash with
  | inr err => mret (Some (Errorf "unable to decode server hash: %w"
                                  (HexError err)))
  | inl decodedServerHash =>
  if negb (String.length decodedServerHash =? sha256_Size)%nat then
    mret (Some (errorString "invalid server hash length"))
  else
  match replyParams !! "SERVERNONCE" with
  | None => mret (Some (errorString "server nonce not found in reply"))
  | Some serverNonce =>
  match Go.DecodeString serverNonce with
  | inr err => mret (Some (Errorf "unable to decode server nonce: %w"
                                  (HexError err)))
  | inl decodedServerNonce =>
  if negb (String.length decodedServerNonce =? nonceLen)%nat then
    mret (Some (errorString "invalid server nonce length"))
  else
  let hmacMessage := cookie +:+ clientNonce +:+ decodedServerNonce in
  let computedServerHash := computeHMAC256 serverKey hmacMessage in
  if negb (String.eqb computedServerHash decodedServerHash) then
    mret (Some (errorString ("expected server hash " +:+
                             Go.EncodeToString decodedServerHash +:+
                             ", got " +:+
                             Go.EncodeToString computedServerHash)))
  else
  let clientHash := computeHMAC256 controllerKey hmacMessage in
  if negb (String.length clientHash =? sha256_Size)%nat then
    mret (Some (errorString "invalid client hash length"))
  else
  let cmd := "AUTHENTICATE " +:+ Go.EncodeToString clientHash in
  '(_, _, err) ← sendCommand cmd;
  match err with
  | Some err => mret (Some err)
  | None => mret None
  end
  end end end end end end end.

Definition authenticate : M (option error) :=
  r ← Controller_protocolInfo;
  match r with
  | inr err => mret (Some err)
  | inl protocolInfo =>
      _ ← setCtl (set_version (protocolInfo_version protocolInfo));
      c ← getCtl;
      if negb (String.eqb (password c) EmptyString) then
        if negb (supportsAuthMethod protocolInfo authHashedPassword) then
          mret (Some (errorString (authHashedPassword +:+
                                   " authentication method not " +:+
                                   "supported")))
        else authenticateViaHashedPassword
      else if supportsAuthMethod protocolInfo authSafeCookie then
        authenticateViaSafeCookie protocolInfo
      else if supportsAuthMethod protocolInfo authNull then
        authenticateViaNull
      else
        mret (Some (errorString
                      ("the Tor server must be configured with " +:+
                       "NULL, SAFECOOKIE, or HASHEDPASSWORD authentication")))
  end.

Definition NewController (controlAddr targetIPAddress password : string)
  : Controller :=
  mkController 0 0 None controlAddr password EmptyString targetIPAddress
               EmptyString.

Definition Start : M (option error) :=
  swapped ← CompareAndSwap_started 0 1;
  if negb swapped then mret None
  else
    r ← Dial;
    match r with
    | inr err =>
        mret (Some (Errorf "unable to connect to Tor server: %w" err))
    | inl cn =>
        _ ← setCtl (set_conn (Some cn));
        authenticate
    end.

Definition Stop : M (option error) :=
  swapped ← CompareAndSwap_stopped 0 1;
  if negb swapped then mret None
  else
    c ← getCtl;
    err ← DelOnion (activeServiceID c);
    match err with
    | Some err => mret (Some err)
    | None =>
        _ ← setCtl (set_activeServiceID EmptyString);
        Close
    end.

Definition Reconnect : M (option error) :=
  c ← getCtl;
  if negb (started c =? 1) then mret (Some errTCNotStarted)
  else if negb (stopped c =? 0) then mret (Some errTCStopped)
  else
    _ ← match conn c with
        | Some _ => _ ← Close; mret tt
        | None => mret tt
        end;
    r ← Dial;
    match r with
    | inr err =>
        mret (Some (Errorf "unable to connect to Tor server: %w" err))
    | inl cn =>
        _ ← setCtl (set_conn (Some cn));
        err ← authenticate;
        match err with
        | Some err => mret (Some err)
        | None =>
            _ ← setCtl (set_activeServiceID EmptyString);
            mret None
        end
    end.

End tor.

(** ** Package lnwire: the peer-wire codec *)

Module lnwire.

(** Modelled from the spec: package lnwire's codec is not among the
    sources, only its tests are.  The definitions of this module follow
    sections 3 and 4.1 of the spec.

    The body of a message has at most [MaxMsgBody] octets; type tags from
    [CustomTypeStart] on are user-defined; custom records carry types from
    [MinCustomRecordsTlvType] on. *)
Definition MaxMsgBody : Z := 65533.
Definition CustomTypeStart : Z := 32768.
Definition MinCustomRecordsTlvType : Z := 65536.

(** The error kinds of the codec. *)
Inductive Err :=
| UnknownMessageType
| BodyTooLarge
| MalformedTLV
| IndexOverflow
| ShortRead
| TruncatedField.

(** Bytes are [ascii]; [byteOf] keeps the low eight bits of a number. *)
Definition byteOf (v : Z) : ascii := ascii_of_N (Z.to_N (v mod 256)).
Definition valOf (b : ascii) : Z := Z.of_N (N_of_ascii b).

(** Modelled from the spec: fixed-width integers are big-endian.  A value
    that does not fit [n] bytes loses its high bits. *)
Fixpoint encodeUint (n : nat) (v : Z) : list ascii :=
  match n with
  | O => []
  | S n' => byteOf (v / 256 ^ Z.of_nat n') :: encodeUint n' v
  end.

Definition decodeUint (bs : list ascii) : Z :=
  fold_left (fun acc b => acc * 256 + valOf b) bs 0.

(** [n] bytes of the source, or the error [e] when it has fewer. *)
Definition readN (n : nat) (e : Err) (bs : list ascii)
  : (list ascii * list ascii) + Err :=
  if (length bs <? n)%nat then inr e else inl (firstn n bs, skipn n bs).

Definition readUint (n : nat) (bs : list ascii) : (Z * list ascii) + Err :=
  match readN n ShortRead bs with
  | inl (b, rest) => inl (decodeUint b, rest)
  | inr e => inr e
  end.

(** Modelled from the spec: the five kinds of network address, IPv4 and
    IPv6 with a port, Tor v2 (a service ID of 10 bytes) and Tor v3 (35
    bytes) with a port, and the opaque address, whose first byte is an
    address type the reader does not know. *)
Inductive Addr :=
| IPv4 (ip : list ascii) (port : Z)
| IPv6 (ip : list ascii) (port : Z)
| TorV2 (serviceID : list ascii) (port : Z)
| TorV3 (serviceID : list ascii) (port : Z)
| Opaque (payload : list ascii).

(** Modelled from the spec: a discriminator byte, then the payload (the
    host bytes and the port on two bytes); an opaque address is its
    payload, which begins with its discriminator. *)
Definition encodeAddr (a : Addr) : list ascii :=
  match a with
  | IPv4 ip port => byteOf 1 :: ip ++ encodeUint 2 port
  | IPv6 ip port => byteOf 2 :: ip ++ encodeUint 2 port
  | TorV2 id port => byteOf 3 :: id ++ encodeUint 2 port
  | TorV3 id port => byteOf 4 :: id ++ encodeUint 2 port
  | Opaque payload => payload
  end.

Definition encodeAddrs (addrs : list Addr) : list ascii :=
  concat (encodeAddr <$> addrs).

(** Modelled from the spec: a two-byte big-endian total length, then the
    addresses one after the other. *)
Definition WriteNetAddrs (addrs : list Addr) : list ascii :=
  let block := encodeAddrs addrs in
  encodeUint 2 (Z.of_nat (length block)) ++ block.

(** Modelled from the spec: the payload sizes of the discriminators 1 to
    4; any other discriminator is unknown. *)
Definition payloadSize (discriminator : Z) : option nat :=
  if discriminator =? 1 then Some 6%nat
  else if discriminator =? 2 then Some 18%nat
  else if discriminator =? 3 then Some 12%nat
  else if discriminator =? 4 then Some 37%nat
  else None.

Definition mkAddr (discriminator : Z) (payload : list ascii) : Addr :=
  let n := (length payload - 2)%nat in
  let host := firstn n payload in
  let port := decodeUint (skipn n payload) in
  if discriminator =? 1 then IPv4 host port
  else if discriminator =? 2 then IPv6 host port
  else if discriminator =? 3 then TorV2 host port
  else TorV3 host port.

(** Modelled from the spec: the reader of the address block.  [skip]
    counts the payload bytes of the current address still to pass.  At an
    unknown discriminator all that is left of the block becomes one opaque
    address. *)
Fixpoint decodeAddrs (skip : nat) (block : list ascii) : list Addr + Err :=
  match block with
  | [] => inl []
  | d :: rest =>
      match skip with
      | S k => decodeAddrs k rest
      | O =>
          match payloadSize (valOf d) with
          | None => inl [Opaque (d :: rest)]
          | Some size =>
              if (length rest <? size)%nat then inr TruncatedField
              else
                match decodeAddrs size rest with
                | inl more => inl (mkAddr (valOf d) (firstn size rest) :: more)
                | inr e => inr e
                end
          end
      end
  end.

(** Modelled from the spec: the reader of an address list, returning the
    addresses and the bytes after the block. *)
Definition ReadNetAddrs (bs : list ascii) : (list Addr * list ascii) + Err :=
  match readUint 2 bs with
  | inr e => inr e
  | inl (n, rest) =>
      match readN (Z.to_nat n) ShortRead rest with
      | inr e => inr e
      | inl (block, rest') =>
          match decodeAddrs 0 block with
          | inl addrs => inl (addrs, rest')
          | inr e => inr e
          end
      end
  end.

(** Modelled from the spec: the string form of an opaque address is the
    hex of its payload (scenario 7 of the spec; [OpaqueAddrs.String] is
    not among the sources). *)
Definition OpaqueAddrs_String (payload : list ascii) : string :=
  Go.EncodeToString (string_of_list_ascii payload).

(** Modelled from the spec: the type and the length of a TLV record are
    variable-length big-endian integers in their shortest form: one byte
    below 0xfd, else a marker 0xfd, 0xfe or 0xff and the value on two,
    four or eight bytes. *)
Definition encodeBigSize (v : Z) : list ascii :=
  if v <? 253 then [byteOf v]
  else if v <? 65536 then byteOf 253 :: encodeUint 2 v
  else if v <? 4294967296 then byteOf 254 :: encodeUint 4 v
  else byteOf 255 :: encodeUint 8 v.

(** Modelled from the spec: the encoding is canonical, so a value read
    after a marker must need that marker. *)
Definition readCanonical (n : nat) (least : Z) (bs : list ascii)
  : (Z * list ascii) + Err :=
  match readUint n bs with
  | inl (v, rest) => if v <? least then inr MalformedTLV else inl (v, rest)
  | inr e => inr e
  end.

Definition readBigSize (bs : list ascii) : (Z * list ascii) + Err :=
  match bs with
  | [] => inr ShortRead
  | b :: rest =>
      let t := valOf b in
      if t <? 253 then inl (t, rest)
      else if t =? 253 then readCanonical 2 253 rest
      else if t =? 254 then readCanonical 4 65536 rest
      else readCanonical 8 4294967296 rest
  end.

(** Modelled from the spec: a TLV record is a type, a length and a value;
    a trailer is its records one after the other. *)
Definition encodeRecord (r : Z * list ascii) : list ascii :=
  encodeBigSize (fst r) ++ encodeBigSize (Z.of_nat (length (snd r))) ++ snd r.

Definition encodeStream (records : list (Z * list ascii)) : list ascii :=
  concat (encodeRecord <$> records).

(** Modelled from the spec: records appear in strictly increasing type,
    here with the first type above [prev]. *)
Fixpoint ascending (prev : Z) (records : list (Z * list ascii)) : bool :=
  match records with
  | [] => true
  | r :: more => (prev <? fst r) && ascending (fst r) more
  end.

(** Modelled from the spec: the reader of a trailer, which runs to the end
    of the body and fails with [MalformedTLV] at a type that is not above
    the one before.  Every record takes at least two bytes, which bounds
    the loop by [fuel]. *)
Fixpoint decodeLoop (fuel : nat) (prev : Z) (bs : list ascii)
  : option (list (Z * list ascii) + Err) :=
  match bs with
  | [] => Some (inl [])
  | _ :: _ =>
      match fuel with
      | O => None
      | S fuel' =>
          match readBigSize bs with
          | inr e => Some (inr e)
          | inl (type, bs1) =>
              if type <=? prev then Some (inr MalformedTLV)
              else
                match readBigSize bs1 with
                | inr e => Some (inr e)
                | inl (len, bs2) =>
                    match readN (Z.to_nat len) TruncatedField bs2 with
                    | inr e => Some (inr e)
                    | inl (value, bs3) =>
                        match decodeLoop fuel' type bs3 with
                        | Some (inl more) => Some (inl ((type, value) :: more))
                        | other => other
                        end
                    end
                end
          end
      end
  end.

Definition decodeStream (bs : list ascii) : list (Z * list ascii) + Err :=
  match decodeLoop (length bs) (-1) bs with
  | Some r => r
  | None => inr ShortRead
  end.

(** Modelled from the spec: the typed primitives of a message body:
    big-endian integers of a fixed width, byte strings of a fixed size
    (33-byte public keys, 32-byte hashes and channel IDs, 64-byte
    signatures), byte strings with a two-byte length prefix, feature
    vectors, outpoints and address lists. *)
Inductive Kind :=
| KUint (width : nat)
| KFixed (size : nat)
| KVar
| KFeatures
| KOutPoint
| KAddrs.

Inductive Value :=
| VUint (width : nat) (v : Z)
| VFixed (b : list ascii)
| VVar (b : list ascii)
| VFeatures (bits : list bool)
| VOutPoint (hash : list ascii) (index : Z)
| VAddrs (addrs : list Addr).

Definition kindOf (v : Value) : Kind :=
  match v with
  | VUint width _ => KUint width
  | VFixed b => KFixed (length b)
  | VVar _ => KVar
  | VFeatures _ => KFeatures
  | VOutPoint _ _ => KOutPoint
  | VAddrs _ => KAddrs
  end.

(** Eight bits, the first one the most significant. *)
Definition byteOfBits (l : list bool) : ascii :=
  Ascii (nth 7 l false) (nth 6 l false) (nth 5 l false) (nth 4 l false)
        (nth 3 l false) (nth 2 l false) (nth 1 l false) (nth 0 l false).

Definition bitsOfByte (b : ascii) : list bool :=
  match b with
  | Ascii a0 a1 a2 a3 a4 a5 a6 a7 => [a7; a6; a5; a4; a3; a2; a1; a0]
  end.

Fixpoint packBits (bits : list bool) : list ascii :=
  match bits with
  | [] => []
  | b0 :: b1 :: b2 :: b3 :: b4 :: b5 :: b6 :: b7 :: rest =>
      byteOfBits [b0; b1; b2; b3; b4; b5; b6; b7] :: packBits rest
  | _ => [byteOfBits bits]
  end.

Definition unpackBits (bs : list ascii) : list bool :=
  concat (bitsOfByte <$> bs).

(** Modelled from the spec: the encoders of the primitives.  A feature
    vector is its bit length on two bytes, then the bits on
    ceil(length/8) bytes; an outpoint is a 32-byte hash and the index on
    two bytes, refused with [IndexOverflow] above 0xFFFF. *)
Definition encodeValue (v : Value) : list ascii + Err :=
  match v with
  | VUint width x => inl (encodeUint width x)
  | VFixed b => inl b
  | VVar b => inl (encodeUint 2 (Z.of_nat (length b)) ++ b)
  | VFeatures bits =>
      inl (encodeUint 2 (Z.of_nat (length bits)) ++ packBits bits)
  | VOutPoint hash index =>
      if 65535 <? index then inr IndexOverflow
      else inl (hash ++ encodeUint 2 index)
  | VAddrs addrs => inl (WriteNetAddrs addrs)
  end.

(** Modelled from the spec: the decoders of the primitives. *)
Definition decodeValue (k : Kind) (bs : list ascii)
  : (Value * list ascii) + Err :=
  match k with
  | KUint width =>
      match readUint width bs with
      | inl (v, rest) => inl (VUint width v, rest)
      | inr e => inr e
      end
  | KFixed size =>
      match readN size ShortRead bs with
      | inl (b, rest) => inl (VFixed b, rest)
      | inr e => inr e
      end
  | KVar =>
      match readUint 2 bs with
      | inl (n, rest) =>
          match readN (Z.to_nat n) TruncatedField rest with
          | inl (b, rest') => inl (VVar b, rest')
          | inr e => inr e
          end
      | inr e => inr e
      end
  | KFeatures =>
      match readUint 2 bs with
      | inl (n, rest) =>
          match readN (Z.to_nat ((n + 7) / 8)) TruncatedField rest with
          | inl (b, rest') =>
              inl (VFeatures (firstn (Z.to_nat n) (unpackBits b)), rest')
          | inr e => inr e
          end
      | inr e => inr e
      end
  | KOutPoint =>
      match readN 32 ShortRead bs with
      | inl (hash, rest) =>
          match readUint 2 rest with
          | inl (index, rest') => inl (VOutPoint hash index, rest')
          | inr e => inr e
          end
      | inr e => inr e
      end
  | KAddrs =>
      match ReadNetAddrs bs with
      | inl (addrs, rest) => inl (VAddrs addrs, rest)
      | inr e => inr e
      end
  end.

(** Modelled from the spec: a body is a fixed tuple of primitives. *)
Fixpoint encodeFields (fields : list Value) : list ascii + Err :=
  match fields with
  | [] => inl []
  | v :: more =>
      match encodeValue v, encodeFields more with
      | inl b, inl bs => inl (b ++ bs)
      | inr e, _ => inr e
      | _, inr e => inr e
      end
  end.

Fixpoint decodeFields (kinds : list Kind) (bs : list ascii)
  : (list Value * list ascii) + Err :=
  match kinds with
  | [] => inl ([], bs)
  | k :: more =>
      match decodeValue k bs with
      | inr e => inr e
      | inl (v, rest) =>
          match decodeFields more rest with
          | inl (vs, rest') => inl (v :: vs, rest')
          | inr e => inr e
          end
      end
  end.

(** Modelled from the spec: the registry maps a type tag to the layout of
    the message: the kinds of its body and whether it embeds custom
    records. *)
Record Schema := mkSchema { fieldKinds : list Kind; customRecords : bool }.

(** Modelled from the spec: a message is a type tag, a typed body, the
    extra-data trailer of the TLV records this implementation does not
    know ([extra]) and, in the messages that embed them, the custom
    records, an unordered mapping from type to bytes.  A message of a type
    from [CustomTypeStart] on is its payload. *)
Inductive Message :=
| Msg (msgType : Z) (fields : list Value) (extra : list (Z * list ascii))
      (custom : gmap Z (list ascii))
| CustomMsg (msgType : Z) (payload : list ascii).

Definition MsgType (m : Message) : Z :=
  match m with Msg t _ _ _ | CustomMsg t _ => t end.

Definition ExtraData (m : Message) : list (Z * list ascii) :=
  match m with Msg _ _ extra _ => extra | CustomMsg _ _ => [] end.

Definition byType (r1 r2 : Z * list ascii) : Prop := fst r1 <= fst r2.

#[export] Instance byType_dec : RelDecision byType.
Proof. intros r1 r2. unfold byType. apply _. Defined.

(** Modelled from the spec: serialization emits the custom records in
    ascending type. *)
Definition sortedRecords (custom : gmap Z (list ascii))
  : list (Z * list ascii) :=
  merge_sort byType (map_to_list custom).

(** Modelled from the spec: the body is the primitives, then the trailer:
    the extra-data records in their order, then the custom records; the
    records are written in strictly increasing type only. *)
Definition encodeBody (m : Message) : list ascii + Err :=
  match m with
  | CustomMsg _ payload => inl payload
  | Msg _ fields extra custom =>
      match encodeFields fields with
      | inr e => inr e
      | inl fs =>
          let records := extra ++ sortedRecords custom in
          if ascending (-1) records then inl (fs ++ encodeStream records)
          else inr MalformedTLV
      end
  end.

(** Modelled from the spec: [write] prepends the two-byte type to the body
    and fails if the body is longer than [MaxMsgBody]. *)
Definition WriteMessage (m : Message) : list ascii + Err :=
  match encodeBody m with
  | inr e => inr e
  | inl body =>
      if MaxMsgBody <? Z.of_nat (length body) then inr BodyTooLarge
      else inl (encodeUint 2 (MsgType m) ++ body)
  end.

Definition isCustomRecord (r : Z * list ascii) : Prop :=
  MinCustomRecordsTlvType <= fst r.

(** Modelled from the spec: [read] takes the two-byte type and dispatches
    to the registered decoder of the body; [BodyTooLarge] for a body over
    [MaxMsgBody], [UnknownMessageType] for an unregistered type below
    [CustomTypeStart]; a type from [CustomTypeStart] on decodes as an
    opaque payload.  Records of the trailer with a type from
    [MinCustomRecordsTlvType] on are the custom records of a message that
    embeds them. *)
Definition ReadMessage (registry : gmap Z Schema) (bs : list ascii)
  : Message + Err :=
  match readUint 2 bs with
  | inr e => inr e
  | inl (t, body) =>
      if MaxMsgBody <? Z.of_nat (length body) then inr BodyTooLarge
      else if CustomTypeStart <=? t then inl (CustomMsg t body)
      else
        match registry !! t with
        | None => inr UnknownMessageType
        | Some schema =>
            match decodeFields (fieldKinds schema) body with
            | inr e => inr e
            | inl (fields, rest) =>
                match decodeStream rest with
                | inr e => inr e
                | inl records =>
                    if customRecords schema then
                      inl (Msg t fields
                             (filter (fun r => ~ isCustomRecord r) records)
                             (list_to_map (filter isCustomRecord records)))
                    else inl (Msg t fields records ∅)
                end
            end
        end
  end.

End lnwire.

(** * Notions used in the statements *)

Module notions.

Import tor.

(** The byte [c] occurs in [s]. *)
Definition occurs (c : ascii) (s : string) : Prop :=
  exists pre post, s = pre +:+ String c post.

(** The last part of a version up to its first ['-']: the build number
    without a pre-release suffix such as [-rc]. *)
Fixpoint beforeDash (build : string) : string :=
  match build with
  | EmptyString => EmptyString
  | String c rest =>
      if Ascii.eqb c "-" then EmptyString else String c (beforeDash rest)
  end.

(** [s] parses as an integer: [strconv.Atoi] reports no error. *)
Definition isInteger (s : string) : Prop := snd (Go.Atoi s) = None.

(** A version of the form major.minor.revision.build, the four parts
    integers, the build possibly followed by a suffix after a ['-']. *)
Definition wellFormedVersion (version : string) : Prop :=
  exists major minor revision build,
    version = major +:+ "." +:+ minor +:+ "." +:+ revision +:+ "." +:+ build
    /\ ~ occurs "." major /\ ~ occurs "." minor
    /\ ~ occurs "." revision /\ ~ occurs "." build
    /\ isInteger major /\ isInteger minor /\ isInteger revision
    /\ isInteger (beforeDash build).

(** The byte-wise lexicographic order of Go's [<] on strings. *)
Inductive lexLess : string -> string -> Prop :=
| lexLess_prefix (c : ascii) (t : string) :
    lexLess EmptyString (String c t)
| lexLess_byte (a b : ascii) (s t : string) :
    (N_of_ascii a < N_of_ascii b)%N -> lexLess (String a s) (String b t)
| lexLess_tail (c : ascii) (s t : string) :
    lexLess s t -> lexLess (String c s) (String c t).

(** All the bytes of a list of chunks. *)
Fixpoint joinAll (chunks : list string) : string :=
  match chunks with
  | [] => EmptyString
  | chunk :: more => chunk +:+ joinAll more
  end.

(** Everything the connection can still yield, buffered or not. *)
Definition stream (c : Conn) : string := R c +:+ joinAll (incoming c).

(** From [c] to [c'] the reader has handed out [taken]: it pulled the
    chunks [consumed] into its buffer, and what it holds now is what is
    left of them after [taken]. *)
Definition advance (c c' : Conn) (taken : string) : Prop :=
  exists consumed,
    incoming c = consumed ++ incoming c' /\
    R c +:+ joinAll consumed = taken +:+ R c' /\
    closed c' = closed c /\ cmds c' = cmds c.

(** *** The replies of the Tor control protocol

    [Reply = *(MidReplyLine / DataReplyLine) EndReplyLine], each line a
    three-digit status code, a separator and a text, a data line being
    followed by its dot-terminated block. *)
Inductive ReplyLine :=
| MidReplyLine (code : Z) (text : string)
| DataReplyLine (code : Z) (text : string) (data : list string)
| EndReplyLine (code : Z) (text : string).

Definition digitChar (d : Z) : ascii := ascii_of_N (Z.to_N (48 + d)).

(** [StatusCode = 3DIGIT] *)
Definition StatusCode (n : Z) : string :=
  String (digitChar (n / 100))
    (String (digitChar (n / 10 mod 10))
       (String (digitChar (n mod 10)) EmptyString)).

Definition lineCode (l : ReplyLine) : Z :=
  match l with
  | MidReplyLine code _ | DataReplyLine code _ _ | EndReplyLine code _ => code
  end.

(** What a line contributes to the parsed reply: its text, and for a data
    line the lines of its block joined by commas. *)
Definition lineText (l : ReplyLine) : string :=
  match l with
  | MidReplyLine _ text | EndReplyLine _ text => text
  | DataReplyLine _ text data => text +:+ Go.Join data ","
  end.

(** A data line that starts with a dot travels with one more dot. *)
Definition dotStuff (d : string) : string :=
  match d with
  | String c _ => if Ascii.eqb c "." then String "." d else d
  | EmptyString => d
  end.

(** [CmdData]: the lines of the block, then a dot on a line of its own. *)
Fixpoint CmdData (data : list string) : string :=
  match data with
  | [] => "." +:+ CRLF
  | d :: more => dotStuff d +:+ CRLF +:+ CmdData more
  end.

Definition statusLine (code : Z) (sep : ascii) (text : string) : string :=
  StatusCode code +:+ String sep text.

(** The bytes of a line on the wire. *)
Definition wire (l : ReplyLine) : string :=
  match l with
  | MidReplyLine code text => statusLine code "-" text +:+ CRLF
  | DataReplyLine code text data =>
      statusLine code "+" text +:+ CRLF +:+ CmdData data
  | EndReplyLine code text => statusLine code " " text +:+ CRLF
  end.

Definition wireAll (ls : list ReplyLine) : string := joinAll (wire <$> ls).

(** Codes have three digits; no text holds a line feed. *)
Definition wellFormedLine (l : ReplyLine) : Prop :=
  0 <= lineCode l < 1000 /\
  match l with
  | MidReplyLine _ text | EndReplyLine _ text => ~ occurs LF text
  | DataReplyLine _ text data =>
      ~ occurs LF text /\ Forall (fun d => ~ occurs LF d) data
  end.

(** Mid and data lines announce more lines. *)
Definition continues (l : ReplyLine) : Prop :=
  match l with EndReplyLine _ _ => False | _ => True end.

(** A line of the expected code that is not the last of its reply. *)
Definition goodLine (expected : Z) (l : ReplyLine) : Prop :=
  wellFormedLine l /\ continues l /\ lineCode l = expected.

(** The parsed reply: the texts of the lines, joined by line feeds. *)
Definition replyText (ls : list ReplyLine) : string :=
  Go.Join (lineText <$> ls) (String LF EmptyString).

Definition prefixText (ls : list ReplyLine) : string :=
  joinAll ((fun l => lineText l +:+ String LF EmptyString) <$> ls).

(** *** The controller *)

(** What no method of the controller changes but [Start], [Stop] and
    [Reconnect] themselves. *)
Definition frame (st st' : State) : Prop :=
  started (ctl st') = started (ctl st) /\
  stopped (ctl st') = stopped (ctl st) /\
  password (ctl st') = password (ctl st) /\
  activeServiceID (ctl st') = activeServiceID (ctl st) /\
  files (world st') = files (world st).

Definition preserves {A} (m : M A) : Prop :=
  forall st r st', m st = (r, st') -> frame st st'.

(** The state once [Stop] has set its flag. *)
Definition flagged (st : State) : State :=
  mkState (set_stopped 1 (ctl st)) (world st).

(** The connection after [Close]. *)
Definition closeConn (cn : Conn) : Conn :=
  mkConn (R cn) (incoming cn) (cmds cn) true.

(** The state once [authenticate] has cached the version of the reply. *)
Definition versioned (info : gmap string string) (st : State) : State :=
  mkState (set_version (protocolInfo_version info) (ctl st)) (world st).

(** Only digits and the lower-case letters a to f. *)
Definition lowerHex (s : string) : Prop :=
  forall c, occurs c s -> occurs c "0123456789abcdef".

(** What a result of [readResponse] tells about its code. *)
Definition outcome (expected code : Z) (err : option error) : Prop :=
  match err with
  | None => code = expected
  | Some errCodeNotMatch => code <> expected
  | Some EOF => code = 0
  | Some (NumError func num e) =>
      func = "Atoi"%string /\ e = Go.ErrSyntax /\ code = 0
      /\ String.length num = 3%nat
  | Some (ProtocolError msg) =>
      (exists line, msg = "short line: " +:+ line /\ code = 0
                    /\ (String.length line < 4)%nat)
      \/ (exists line, msg = "invalid line: " +:+ line
                       /\ (4 <= String.length line)%nat)
  | Some ErrUnexpectedEOF | Some ErrClosed => True
  | Some _ => False
  end.

(** The command that opens the handshake, and the one that closes it. *)
Definition challenge (clientNonce : string) : string :=
  "AUTHCHALLENGE SAFECOOKIE " +:+ Go.EncodeToString clientNonce.

Definition response (cookie clientNonce serverNonce : string) : string :=
  "AUTHENTICATE " +:+
  Go.EncodeToString
    (Go.HMAC_SHA256 controllerKey (cookie +:+ clientNonce +:+ serverNonce)).

(** What the handshake has sent when it returns: nothing, the challenge
    alone, or the challenge and the response. *)
Definition handshakeSent (before after : list string) (r : Outcome (option error))
  : Prop :=
  (after = before /\ r <> Done None)
  \/ (exists clientNonce,
        after = before ++ [challenge clientNonce] /\ r <> Done None)
  \/ (exists cookie clientNonce serverNonce reply serverHash,
        after = before ++ [challenge clientNonce;
                           response cookie clientNonce serverNonce]
        /\ parseTorReply reply !! "SERVERHASH" = Some serverHash
        /\ Go.DecodeString serverHash =
           inl (Go.HMAC_SHA256 serverKey
                  (cookie +:+ clientNonce +:+ serverNonce))).

(** The three methods of the life cycle, and a run of calls one after the
    other; a panic ends the run. *)
Inductive Method := CallStart | CallStop | CallReconnect.

Definition call (m : Method) : M (option error) :=
  match m with
  | CallStart => Start
  | CallStop => Stop
  | CallReconnect => Reconnect
  end.

Fixpoint calls (ms : list Method) : M unit :=
  match ms with
  | [] => mret tt
  | m :: more => _ ← call m; calls more
  end.

(** The next dial fails: the server refuses, or nothing answers. *)
Definition dialFails (w : World) : Prop :=
  match dials w with
  | [] | None :: _ => True
  | Some _ :: _ => False
  end.

(** *** Values and parameters of a reply *)

(** Valid UTF-8: the [range] loop meets no encoding error.  [skip] counts
    the bytes of the current rune still to pass. *)
Fixpoint validFrom (skip : nat) (s : string) : bool :=
  match s with
  | EmptyString => true
  | String c rest =>
      match skip with
      | S k => validFrom k rest
      | O =>
          if runtime.byteVal c <? 128 then validFrom 0 rest
          else (2 <=? snd (runtime.decoderune s))%nat
               && validFrom (snd (runtime.decoderune s) - 1) rest
      end
  end.

Definition validUTF8 (s : string) : Prop := validFrom 0 s = true.

(** A byte from 0x80 on: part of a rune of several bytes. *)
Definition highByte (c : ascii) : bool := 128 <=? runtime.byteVal c.

(** Every byte of [s] passes [p]. *)
Fixpoint allBytes (p : ascii -> bool) (s : string) : bool :=
  match s with
  | EmptyString => true
  | String c rest => p c && allBytes p rest
  end.

(** The bytes of a key: no quote, space, CR or LF, and no ['=']. *)
Definition keyByte (c : ascii) : bool := fieldByte c && negb (Ascii.eqb c "=").

(** The bytes between two tokens: space, CR and LF. *)
Definition isSep (c : ascii) : bool :=
  Ascii.eqb c " " || Ascii.eqb c CR || Ascii.eqb c LF.

(** The value of a quoted parameter as it travels: a backslash before
    every quote and every backslash. *)
Fixpoint escape (value : string) : string :=
  match value with
  | EmptyString => EmptyString
  | String c rest =>
      if Ascii.eqb c quote || Ascii.eqb c backslash
      then String backslash (String c (escape rest))
      else String c (escape rest)
  end.

(** What a reply is made of: words without ['='], such as the keyword
    that opens a line, parameters KEY=VALUE, and parameters KEY="VALUE"
    with VALUE escaped. *)
Inductive Token :=
| Word (w : string)
| Plain (key value : string)
| Quoted (key value : string).

Definition tokenText (t : Token) : string :=
  match t with
  | Word w => w
  | Plain key value => key +:+ String "=" value
  | Quoted key value =>
      key +:+ String "=" (String quote (escape value +:+ String quote EmptyString))
  end.

Definition wellFormedToken (t : Token) : Prop :=
  match t with
  | Word w => w <> EmptyString /\ allBytes keyByte w = true
  | Plain key value =>
      key <> EmptyString /\ allBytes keyByte key = true
      /\ allBytes fieldByte value = true
  | Quoted key value =>
      key <> EmptyString /\ allBytes keyByte key = true /\ validUTF8 value
  end.

(** A token, then tokens each after a separator. *)
Fixpoint tokensText (first : Token) (more : list (ascii * Token)) : string :=
  match more with
  | [] => tokenText first
  | (sep, t) :: more' => tokenText first +:+ String sep (tokensText t more')
  end.

(** The map the parameters stand for, a later one overriding an earlier
    one of the same key. *)
Definition addToken (params : gmap string string) (t : Token)
  : gmap string string :=
  match t with
  | Word _ => params
  | Plain key value | Quoted key value => <[ key := value ]> params
  end.

(** What may follow a run of field bytes: nothing, or a byte that is not
    one of them. *)
Definition ends (rest : string) : Prop :=
  match rest with
  | EmptyString => True
  | String c _ => fieldByte c = false
  end.

(** *** The peer-wire codec *)

Import lnwire.

(** An address of one of the four kinds with a discriminator, with a host
    part of the size of its kind and a port of sixteen bits. *)
Definition knownAddr (a : Addr) : Prop :=
  match a with
  | IPv4 ip port => length ip = 4%nat /\ 0 <= port < 65536
  | IPv6 ip port => length ip = 16%nat /\ 0 <= port < 65536
  | TorV2 id port => length id = 10%nat /\ 0 <= port < 65536
  | TorV3 id port => length id = 35%nat /\ 0 <= port < 65536
  | Opaque _ => False
  end.

(** A discriminator that is none of 1, 2, 3 and 4. *)
Definition unknownType (d : ascii) : Prop :=
  valOf d <> 1 /\ valOf d <> 2 /\ valOf d <> 3 /\ valOf d <> 4.

(** Address lists in which an opaque address, if any, comes last: known
    addresses, then at most one opaque address, of an unknown type. *)
Definition addrsOK (addrs : list Addr) : Prop :=
  exists known,
    Forall knownAddr known /\
    (addrs = known \/
     exists d rest, unknownType d /\ addrs = known ++ [Opaque (d :: rest)]).

(** A primitive that fits its wire form. *)
Definition wfValue (v : Value) : Prop :=
  match v with
  | VUint width x => 0 <= x < 256 ^ Z.of_nat width
  | VFixed _ => True
  | VVar b => Z.of_nat (length b) < 65536
  | VFeatures bits => Z.of_nat (length bits) < 65536
  | VOutPoint hash index => length hash = 32%nat /\ 0 <= index < 2 ^ 32
  | VAddrs addrs =>
      Z.of_nat (length (encodeAddrs addrs)) < 65536 /\ addrsOK addrs
  end.

(** A record whose type and length fit sixty-four bits. *)
Definition recordOK (r : Z * list ascii) : Prop :=
  0 <= fst r < 2 ^ 64 /\ Z.of_nat (length (snd r)) < 2 ^ 64.

(** The value space of the registered message types: the body has the
    kinds of the registered layout and every primitive fits its wire
    form; record types fit sixty-four bits; custom records carry types
    from [MinCustomRecordsTlvType] on, extra-data records of a message
    that embeds custom records carry types below it, and a message that
    embeds none has none.  A custom message has a type from
    [CustomTypeStart] on. *)
Definition wfMessage (registry : gmap Z Schema) (m : Message) : Prop :=
  match m with
  | CustomMsg t _ => CustomTypeStart <= t < 65536
  | Msg t fields extra custom =>
      0 <= t < CustomTypeStart /\
      exists schema,
        registry !! t = Some schema /\
        kindOf <$> fields = fieldKinds schema /\
        Forall wfValue fields /\
        Forall (fun r => fst r < 2 ^ 64) extra /\
        if customRecords schema then
          Forall (fun r => fst r < MinCustomRecordsTlvType) extra /\
          (forall k v, custom !! k = Some v ->
                       MinCustomRecordsTlvType <= k < 2 ^ 64)
        else custom = ∅
  end.

End notions.

Import notions.

(** * Scenarios *)

Module scenario.

Import tor.

Fixpoint rep (n : nat) (c : ascii) : string :=
  match n with
  | O => EmptyString
  | S n' => String c (rep n' c)
  end.

Definition q : string := String quote EmptyString.

Definition cookiePath : string := "/run/tor/control.authcookie".

(** The reply to PROTOCOLINFO of a server that offers [methods]. *)
Definition protocolInfoReply (methods : string) : string :=
  "250-PROTOCOLINFO 1" +:+ CRLF +:+
  "250-AUTH METHODS=" +:+ methods +:+ " COOKIEFILE=" +:+ q +:+ cookiePath
    +:+ q +:+ CRLF +:+
  "250-VERSION Tor=" +:+ q +:+ "0.4.7.8" +:+ q +:+ CRLF +:+
  "250 OK" +:+ CRLF.

(** Scenario 3 of the spec: a cookie of 32 zero bytes, a client nonce of
    32 bytes 0xAA, a server nonce of 32 bytes 0xBB. *)
Definition cookie : string := rep 32 zero.
Definition clientNonce : string := rep 32 (ascii_of_nat 170).
Definition serverNonce : string := rep 32 (ascii_of_nat 187).

Definition challengeReply : string :=
  "250 AUTHCHALLENGE SERVERHASH=" +:+
  "c0efaea62b86e0f81ffdb345896b09b6c9d21b40ef2c401c00fd42798f9dbedf" +:+
  " SERVERNONCE=" +:+
  "bbbbbbbbbbbbbbbbbbbbbbbbbbbbbbbbbbbbbbbbbbbbbbbbbbbbbbbbbbbbbbbb" +:+ CRLF.

Definition tor_world (dials : list (option (list string))) : World :=
  mkWorld dials (<[cookiePath := cookie]> ∅) clientNonce.

(** A controller that has been started and holds a connection on which
    [incoming] will arrive. *)
Definition connected (password activeServiceID : string)
           (incoming : list string) : State :=
  mkState (mkController 1 0 (Some (mkConn EmptyString incoming [] false))
             "127.0.0.1:9051" password EmptyString EmptyString
             activeServiceID)
          (tor_world []).

Definition fresh (dials : list (option (list string))) : State :=
  mkState (NewController "127.0.0.1:9051" EmptyString EmptyString)
          (tor_world dials).

Definition safeCookieInfo : gmap string string :=
  parseTorReply (protocolInfoReply "COOKIE,SAFECOOKIE").

(** Scenario 7 of the spec: the addresses 127.0.0.1:8080 and
    abcdefghijklmnop.onion:9065, then an opaque payload 0xFF 0x01 0x02. *)
Definition bytes (l : list Z) : list ascii := lnwire.byteOf <$> l.

(** The value of a base32 digit: a to z, then 2 to 7. *)
Definition base32Value (c : ascii) : Z :=
  let n := Z.of_N (N_of_ascii c) in
  if 97 <=? n then n - 97 else n - 24.

(** The ten bytes of the sixteen base32 digits of a v2 onion host. *)
Definition onionServiceID (host : string) : list ascii :=
  lnwire.encodeUint 10
    (fold_left (fun acc c => acc * 32 + base32Value c)
               (list_ascii_of_string host) 0).

Definition clearnet : lnwire.Addr := lnwire.IPv4 (bytes [127; 0; 0; 1]) 8080.

Definition onion : lnwire.Addr :=
  lnwire.TorV2 (onionServiceID "abcdefghijklmnop") 9065.

(** A registry of two layouts: at 257 a message whose body is an address
    list, at 128 a message that embeds custom records. *)
Definition registry : gmap Z lnwire.Schema :=
  <[257 := lnwire.mkSchema [lnwire.KAddrs] false]>
    (<[128 := lnwire.mkSchema
                [lnwire.KFixed 32; lnwire.KUint 8; lnwire.KFeatures;
                 lnwire.KVar; lnwire.KOutPoint; lnwire.KAddrs] true]> ∅).

(** A message of every primitive, with the extra data of the tests (one
    empty record of type 255) and two custom records. *)
Definition update : lnwire.Message :=
  lnwire.Msg 128
    [lnwire.VFixed (list_ascii_of_string (rep 32 zero));
     lnwire.VUint 8 7;
     lnwire.VFeatures [true; false; true; true; false; false; false; false;
                       false; true];
     lnwire.VVar (bytes [1; 2; 3]);
     lnwire.VOutPoint (list_ascii_of_string (rep 32 (ascii_of_nat 17))) 1;
     lnwire.VAddrs [clearnet; onion; lnwire.Opaque (bytes [255; 1; 2])]]
    [(255, [])]
    (<[65540 := bytes [2; 3]]> (<[65536 := bytes [1]]> ∅)).

(** An address list with an opaque address before a known one. *)
Definition announcement : lnwire.Message :=
  lnwire.Msg 257 [lnwire.VAddrs [lnwire.Opaque (bytes [255]); clearnet]] [] ∅.

End scenario.

(** * Properties *)

(** ** Strings *)

Section StringFacts.

Lemma app_cons (c : ascii) (s t : string) :
  String c s +:+ t = String c (s +:+ t).
Proof. reflexivity. Qed.

Lemma app_empty_l (s : string) : EmptyString +:+ s = s.
Proof. reflexivity. Qed.

Lemma app_empty_r (s : string) : s +:+ EmptyString = s.
Proof. induction s as [|c s IH]; [reflexivity|]. rewrite app_cons, IH. reflexivity. Qed.

Lemma app_assoc_s (s t u : string) : (s +:+ t) +:+ u = s +:+ t +:+ u.
Proof.
  induction s as [|c s IH]; [reflexivity|].
  rewrite !app_cons, IH. reflexivity.
Qed.

Lemma length_app_s (s t : string) :
  String.length (s +:+ t) = (String.length s + String.length t)%nat.
Proof.
  induction s as [|c s IH]; [reflexivity|].
  rewrite app_cons. simpl. rewrite IH. reflexivity.
Qed.

Lemma HasPrefix_spec (s prefix : string) :
  Go.HasPrefix s prefix = true <-> exists post, s = prefix +:+ post.
Proof.
  revert s. induction prefix as [|p prefix IH]; intros s; simpl.
  - split; [intros _; exists s; reflexivity | reflexivity].
  - destruct s as [|c s].
    + split; [discriminate | intros [post H]; rewrite app_cons in H; discriminate].
    + rewrite andb_true_iff, Ascii.eqb_eq, IH. split.
      * intros [-> [post ->]]. exists post. reflexivity.
      * intros [post H]. rewrite app_cons in H. injection H as -> ->. eauto.
Qed.

Lemma Contains_spec (s substr : string) :
  Go.Contains s substr = true <->
  exists pre post, s = pre +:+ substr +:+ post.
Proof.
  induction s as [|c s IH]; simpl; rewrite orb_true_iff, HasPrefix_spec.
  - split.
    + intros [[post H]|H]; [|discriminate]. exists EmptyString, post. exact H.
    + intros [pre [post H]]. left. destruct pre as [|a pre].
      * exists post. exact H.
      * rewrite app_cons in H. discriminate.
  - rewrite IH. split.
    + intros [[post H]|[pre [post H]]].
      * exists EmptyString, post. exact H.
      * exists (String c pre), post. rewrite app_cons, H. reflexivity.
    + intros [pre [post H]]. destruct pre as [|a pre].
      * left. exists post. exact H.
      * right. rewrite app_cons in H. injection H as -> ->. eauto.
Qed.

End StringFacts.

(** ** The hash functions against their published test vectors *)

Lemma Sum256_abc :
  Go.EncodeToString (Go.Sum256 "abc") =
  "ba7816bf8f01cfea414140de5dae2223b00361a396177a9cb410ff61f20015ad".
Proof. vm_compute. reflexivity. Qed.

Lemma Sum256_two_blocks :
  Go.EncodeToString
    (Go.Sum256 "abcdbcdecdefdefgefghfghighijhijkijkljklmklmnlmnomnopnopq") =
  "248d6a61d20638b8e5c026930c3e6039a33ce45964ff2167f6ecedd419db06c1".
Proof. vm_compute. reflexivity. Qed.

Lemma HMAC_SHA256_rfc4231_case2 :
  Go.EncodeToString (Go.HMAC_SHA256 "Jefe" "what do ya want for nothing?") =
  "5bdcc146bf60754e6a042426089575c75a003f089d2739839dec58b964ec3843".
Proof. vm_compute. reflexivity. Qed.

Lemma length_Sum256 (msg : string) : String.length (Go.Sum256 msg) = 32%nat.
Proof. reflexivity. Qed.

(** ** supportsAuthMethod *)

(** C9.  [supportsAuthMethod] holds exactly when the reply has a METHODS
    key whose raw value contains the method somewhere, so a name buried in
    a longer token counts as support, and an absent key never does. *)
Theorem supportsAuthMethod_substring :
  (forall (i : gmap string string) (method : string),
      tor.supportsAuthMethod i method = true <->
      exists methods, i !! "METHODS" = Some methods /\
        exists pre post, methods = pre +:+ method +:+ post)
  /\ (forall (i : gmap string string) (method : string),
        i !! "METHODS" = None -> tor.supportsAuthMethod i method = false)
  /\ tor.supportsAuthMethod (<["METHODS" := "XSAFECOOKIEX,NULLIFIED"]> ∅)
       tor.authSafeCookie = true
  /\ tor.supportsAuthMethod (<["METHODS" := "XSAFECOOKIEX,NULLIFIED"]> ∅)
       tor.authNull = true.
Proof.
  split; [|split; [|split]].
  - intros i method. unfold tor.supportsAuthMethod.
    destruct (i !! "METHODS") as [methods|] eqn:E.
    + rewrite Contains_spec. split.
      * intros H. exists methods. split; [reflexivity | exact H].
      * intros [m' [Hm H]]. injection Hm as <-. exact H.
    + split; [discriminate | intros [m' [Hm _]]; discriminate].
  - intros i method H. unfold tor.supportsAuthMethod. rewrite H. reflexivity.
  - vm_compute. reflexivity.
  - vm_compute. reflexivity.
Qed.

Lemma supportsAuthMethod_substring_witness :
  tor.supportsAuthMethod (<["Tor" := "0.4.7.8"]> ∅) tor.authNull = false.
Proof.
  apply (proj1 (proj2 supportsAuthMethod_substring)).
  vm_compute. reflexivity.
Defined.

(** ** supportsV3 *)

Section VersionGate.

Lemma occurs_cons (c a : ascii) (s : string) :
  occurs c (String a s) <-> a = c \/ occurs c s.
Proof.
  split.
  - intros [pre [post H]]. destruct pre as [|b pre].
    + rewrite app_empty_l in H. injection H as -> ->. left. reflexivity.
    + rewrite app_cons in H. injection H as -> ->. right. exists pre, post. reflexivity.
  - intros [->|[pre [post ->]]].
    + exists EmptyString, s. reflexivity.
    + exists (String a pre), post. reflexivity.
Qed.

Lemma occurs_empty (c : ascii) : ~ occurs c EmptyString.
Proof. intros [[|b pre] [post H]]; discriminate. Qed.

Lemma Split_nonempty (s : string) (sep : ascii) : Go.Split s sep <> [].
Proof.
  destruct s as [|c s]; simpl; [discriminate|].
  destruct (Ascii.eqb c sep); [discriminate|].
  destruct (Go.Split s sep); discriminate.
Qed.

Lemma Split_Join (s : string) (sep : ascii) :
  Go.Join (Go.Split s sep) (String sep EmptyString) = s.
Proof.
  induction s as [|c s IH]; [reflexivity|]. simpl.
  destruct (Ascii.eqb c sep) eqn:E.
  - apply Ascii.eqb_eq in E as ->.
    pose proof (Split_nonempty s sep) as Hne.
    destruct (Go.Split s sep) as [|h t] eqn:Es; [contradiction|].
    change (Go.Join (EmptyString :: h :: t) (String sep EmptyString))
      with (EmptyString +:+ String sep EmptyString +:+
            Go.Join (h :: t) (String sep EmptyString)).
    rewrite IH. reflexivity.
  - pose proof (Split_nonempty s sep) as Hne.
    destruct (Go.Split s sep) as [|h t] eqn:Es; [contradiction|].
    rewrite <- IH. destruct t as [|h' t]; reflexivity.
Qed.

Lemma Split_parts (s : string) (sep : ascii) :
  Forall (fun part => ~ occurs sep part) (Go.Split s sep).
Proof.
  induction s as [|c s IH]; simpl.
  - constructor; [apply occurs_empty | constructor].
  - destruct (Ascii.eqb c sep) eqn:E.
    + constructor; [apply occurs_empty | exact IH].
    + destruct (Go.Split s sep) as [|h t].
      * constructor; [|constructor]. rewrite occurs_cons.
        intros [->|H]; [rewrite Ascii.eqb_refl in E; discriminate|].
        exact (occurs_empty _ H).
      * inversion IH as [|? ? Hh Ht]; subst. constructor; [|exact Ht].
        rewrite occurs_cons.
        intros [->|H]; [rewrite Ascii.eqb_refl in E; discriminate|].
        exact (Hh H).
Qed.

Lemma Split_whole (s : string) (sep : ascii) :
  ~ occurs sep s -> Go.Split s sep = [s].
Proof.
  induction s as [|c s IH]; intros H; [reflexivity|]. simpl.
  rewrite occurs_cons in H.
  destruct (Ascii.eqb c sep) eqn:E.
  - apply Ascii.eqb_eq in E. tauto.
  - rewrite IH by tauto. reflexivity.
Qed.

Lemma Split_app (e t : string) (sep : ascii) :
  ~ occurs sep e ->
  Go.Split (e +:+ String sep t) sep = e :: Go.Split t sep.
Proof.
  induction e as [|c e IH]; intros H.
  - rewrite app_empty_l. simpl. rewrite Ascii.eqb_refl. reflexivity.
  - rewrite app_cons. simpl. rewrite occurs_cons in H.
    destruct (Ascii.eqb c sep) eqn:E.
    + apply Ascii.eqb_eq in E. tauto.
    + rewrite IH by tauto. reflexivity.
Qed.

Lemma Join_Split (parts : list string) (sep : ascii) :
  parts <> [] ->
  Forall (fun part => ~ occurs sep part) parts ->
  Go.Split (Go.Join parts (String sep EmptyString)) sep = parts.
Proof.
  induction parts as [|e rest IH]; intros Hne H; [contradiction|].
  inversion H as [|? ? He Hrest]; subst.
  destruct rest as [|e' rest].
  - simpl. apply Split_whole. exact He.
  - change (Go.Join (e :: e' :: rest) (String sep EmptyString))
      with (e +:+ String sep EmptyString +:+
            Go.Join (e' :: rest) (String sep EmptyString)).
    rewrite app_cons, app_empty_l, Split_app by exact He.
    rewrite IH; [reflexivity | discriminate | exact Hrest].
Qed.

Lemma Split_dash_head (build : string) :
  nth 0 (Go.Split build "-") EmptyString = beforeDash build.
Proof.
  induction build as [|c rest IH]; [reflexivity|]. simpl.
  destruct (Ascii.eqb c "-"); [reflexivity|].
  destruct (Go.Split rest "-") as [|h t]; simpl in *; rewrite <- IH; reflexivity.
Qed.

Lemma firstAtoiError_None (parts : list string) :
  tor.firstAtoiError parts = None <-> Forall isInteger parts.
Proof.
  induction parts as [|part rest IH]; simpl.
  - split; [constructor | reflexivity].
  - unfold isInteger at 1. destruct (snd (Go.Atoi part)) eqn:E.
    + split; [discriminate|]. intros H. inversion H; subst.
      unfold isInteger in *. congruence.
    + rewrite IH. split.
      * intros H. constructor; [exact E | exact H].
      * intros H. inversion H; assumption.
Qed.

Lemma Split_four (version : string) (a b c d : string) :
  Go.Split version "." = [a; b; c; d] <->
  version = a +:+ "." +:+ b +:+ "." +:+ c +:+ "." +:+ d
  /\ ~ occurs "." a /\ ~ occurs "." b /\ ~ occurs "." c /\ ~ occurs "." d.
Proof.
  split.
  - intros H. pose proof (Split_Join version ".") as HJ.
    pose proof (Split_parts version ".") as HP. rewrite H in HJ, HP.
    split; [symmetry; exact HJ|].
    repeat match goal with
           | H : Forall _ (_ :: _) |- _ => inversion H; subst; clear H
           end.
    tauto.
  - intros (-> & Ha & Hb & Hc & Hd).
    apply (Join_Split [a; b; c; d] "."); [discriminate|].
    repeat constructor; assumption.
Qed.

Lemma lt_lexLess (s t : string) : Go.lt s t = true <-> lexLess s t.
Proof.
  unfold Go.lt, String.ltb. revert t.
  induction s as [|a s IH]; intros [|b t]; simpl.
  - split; [discriminate | inversion 1].
  - split; [constructor | reflexivity].
  - split; [discriminate | inversion 1].
  - unfold Ascii.compare.
    destruct (N.compare_spec (N_of_ascii a) (N_of_ascii b)) as [E|E|E].
    + assert (a = b) as ->.
      { rewrite <- (ascii_N_embedding a), <- (ascii_N_embedding b), E.
        reflexivity. }
      rewrite IH. split; [constructor; assumption|].
      inversion 1; subst; [lia | assumption].
    + split; [intros _; constructor; exact E | reflexivity].
    + split; [discriminate|].
      inversion 1; subst; [lia|lia].
Qed.

Lemma supportsV3_cases (version : string) :
  tor.supportsV3 version = None <->
  wellFormedVersion version /\ Go.lt version tor.MinTorVersion = false.
Proof.
  unfold tor.supportsV3.
  destruct (Go.Split version ".") as [|a [|b [|c [|d [|e rest]]]]] eqn:ES;
    simpl Datatypes.length; cbn [Nat.eqb negb].
  1-4, 6: split; [discriminate|];
    intros [(major & minor & revision & build & Hv & H1 & H2 & H3 & H4 & _) _];
    assert (HS : Go.Split version "." = [major; minor; revision; build])
      by (apply Split_four; tauto);
    rewrite HS in ES; discriminate.
  apply Split_four in ES.
  change (<[(4 - 1)%nat:=nth 0 (Go.Split (nth (4 - 1) [a; b; c; d] EmptyString) "-")
            EmptyString]> [a; b; c; d])
    with [a; b; c; nth 0 (Go.Split d "-") EmptyString].
  rewrite Split_dash_head.
  destruct (tor.firstAtoiError [a; b; c; beforeDash d]) as [err|] eqn:EA.
  - split; [discriminate|].
    intros [(major & minor & revision & build & Hv & H1 & H2 & H3 & H4 & I) _].
    assert (HS : Go.Split version "." = [major; minor; revision; build])
      by (apply Split_four; tauto).
    assert (HS' : Go.Split version "." = [a; b; c; d])
      by (apply Split_four; tauto).
    rewrite HS in HS'. injection HS' as -> -> -> ->.
    assert (HF : Forall isInteger [a; b; c; beforeDash d])
      by (repeat constructor; tauto).
    apply firstAtoiError_None in HF. congruence.
  - apply firstAtoiError_None in EA.
    destruct (Go.lt version tor.MinTorVersion) eqn:EL.
    + split; [discriminate | intros [_ H]; discriminate].
    + split; [|reflexivity]. intros _. split; [|reflexivity].
      exists a, b, c, d.
      repeat match goal with
             | H : Forall _ (_ :: _) |- _ => inversion H; subst; clear H
             end.
      tauto.
Qed.

(** C8.  [supportsV3] accepts a version exactly when it has four
    dot-separated parts that parse as integers (the last one after its
    ['-'] suffix is cut off) and the whole string is not below
    ["0.3.3.6"] in the byte-wise lexicographic order of strings; every
    other version, malformed or below the minimum, gets an error. *)
Theorem supportsV3_gate (version : string) :
  (tor.supportsV3 version = None <->
   wellFormedVersion version /\ ~ lexLess version "0.3.3.6")
  /\ (tor.supportsV3 version <> None <->
      ~ wellFormedVersion version \/ lexLess version "0.3.3.6").
Proof.
  assert (H : tor.supportsV3 version = None <->
              wellFormedVersion version /\ ~ lexLess version "0.3.3.6").
  { rewrite supportsV3_cases, <- lt_lexLess. change tor.MinTorVersion with "0.3.3.6".
    destruct (Go.lt version "0.3.3.6"); split; intros [? ?];
      (split; [assumption|]); try congruence. }
  split; [exact H|]. rewrite H, <- lt_lexLess.
  destruct (Go.lt version "0.3.3.6"); split.
  - intros _. right. reflexivity.
  - intros _ [_ Hn]. apply Hn. reflexivity.
  - intros Hn. left. intros Hw. apply Hn. split; [exact Hw | discriminate].
  - intros [Hn|Hn] [Hw _]; [exact (Hn Hw) | discriminate].
Qed.

End VersionGate.

(** ** Reading from the connection *)

Section Reading.

Import tor.

Lemma joinAll_app (l1 l2 : list string) :
  joinAll (l1 ++ l2) = joinAll l1 +:+ joinAll l2.
Proof.
  induction l1 as [|x l1 IH]; [reflexivity|].
  simpl. rewrite IH, app_assoc_s. reflexivity.
Qed.

Lemma length_joinAll (l : list string) :
  String.length (joinAll l) = sizeAll l.
Proof.
  induction l as [|x l IH]; [reflexivity|].
  simpl. rewrite length_app_s, IH. reflexivity.
Qed.

Lemma pending_stream (c : Conn) : pending c = String.length (stream c).
Proof. unfold pending, stream. rewrite length_app_s, length_joinAll. reflexivity. Qed.

Lemma app_inv_head_s (s t u : string) : s +:+ t = s +:+ u -> t = u.
Proof.
  induction s as [|c s IH]; [trivial|].
  rewrite !app_cons. intros H. injection H as H. exact (IH H).
Qed.

Lemma advance_refl (c : Conn) : advance c c EmptyString.
Proof. exists []. simpl. rewrite app_empty_r. auto. Qed.

Lemma advance_trans (c1 c2 c3 : Conn) (t1 t2 : string) :
  advance c1 c2 t1 -> advance c2 c3 t2 -> advance c1 c3 (t1 +:+ t2).
Proof.
  intros (k1 & Hi1 & Hr1 & Hc1 & Hw1) (k2 & Hi2 & Hr2 & Hc2 & Hw2).
  exists (k1 ++ k2). repeat split.
  - rewrite Hi1, Hi2, app_assoc. reflexivity.
  - rewrite joinAll_app, <- app_assoc_s, Hr1, app_assoc_s, Hr2, app_assoc_s.
    reflexivity.
  - congruence.
  - congruence.
Qed.

Lemma advance_stream (c c' : Conn) (taken : string) :
  advance c c' taken -> stream c = taken +:+ stream c'.
Proof.
  intros (k & Hi & Hr & _). unfold stream.
  rewrite Hi, joinAll_app, <- app_assoc_s, Hr, app_assoc_s. reflexivity.
Qed.

Lemma take_drop (n : nat) (s : string) : Go.take n s +:+ Go.drop n s = s.
Proof.
  revert s. induction n as [|n IH]; intros [|c s]; simpl; try reflexivity.
  rewrite app_cons, IH. reflexivity.
Qed.

Lemma IndexByte_Some (s : string) (b : ascii) (i : nat) :
  IndexByte s b = Some i ->
  exists pre post, s = pre +:+ String b post /\ ~ occurs b pre /\
    Go.take (S i) s = pre +:+ String b EmptyString /\ Go.drop (S i) s = post.
Proof.
  revert i. induction s as [|c s IH]; intros i; simpl; [discriminate|].
  destruct (Ascii.eqb c b) eqn:E.
  - intros [= <-]. apply Ascii.eqb_eq in E as ->.
    exists EmptyString, s. repeat split. apply occurs_empty.
  - destruct (IndexByte s b) as [j|]; [|discriminate].
    intros [= <-]. destruct (IH j eq_refl) as (pre & post & -> & Hn & Ht & Hd).
    exists (String c pre), post. repeat split.
    + rewrite occurs_cons. intros [->|H]; [|exact (Hn H)].
      rewrite Ascii.eqb_refl in E. discriminate.
    + change (Go.take (S (S j)) (String c (pre +:+ String b post)))
        with (String c (Go.take (S j) (pre +:+ String b post))).
      rewrite Ht. reflexivity.
    + exact Hd.
Qed.

Lemma IndexByte_None (s : string) (b : ascii) :
  IndexByte s b = None -> ~ occurs b s.
Proof.
  induction s as [|c s IH]; simpl; [intros _; apply occurs_empty|].
  destruct (Ascii.eqb c b) eqn:E; [discriminate|].
  destruct (IndexByte s b); [discriminate|]. intros _.
  rewrite occurs_cons. intros [->|H]; [|exact (IH eq_refl H)].
  rewrite Ascii.eqb_refl in E. discriminate.
Qed.

(** The first occurrence of a byte cuts a string in one way only. *)
Lemma first_cut (b : ascii) (l1 l2 r1 r2 : string) :
  ~ occurs b l1 -> ~ occurs b l2 ->
  l1 +:+ String b r1 = l2 +:+ String b r2 -> l1 = l2 /\ r1 = r2.
Proof.
  revert l2. induction l1 as [|c l1 IH]; intros [|d l2] H1 H2 H.
  - rewrite !app_empty_l in H. injection H as ->. auto.
  - rewrite app_empty_l, app_cons in H. injection H as <- _.
    exfalso. apply H2. apply occurs_cons. auto.
  - rewrite app_empty_l, app_cons in H. injection H as -> _.
    exfalso. apply H1. apply occurs_cons. auto.
  - rewrite !app_cons in H. injection H as -> H.
    rewrite occurs_cons in H1, H2.
    destruct (IH l2) as [-> ->]; try tauto.
Qed.

Lemma occurs_app_l (b : ascii) (s t : string) :
  occurs b s -> occurs b (s +:+ t).
Proof.
  intros (pre & post & ->). exists pre, (post +:+ t).
  rewrite app_assoc_s, app_cons. reflexivity.
Qed.

(** [ReadSlice] on a stream that starts with a line: the line comes out
    with its LF, and nothing beyond the chunk that held the LF is
    touched. *)
Lemma ReadSlice_line (inc : list string) (buf line rest : string) :
  buf +:+ joinAll inc = line +:+ String LF rest ->
  ~ occurs LF line ->
  exists buf' inc' consumed,
    ReadSlice false buf inc =
      ((line +:+ String LF EmptyString, None), (buf', inc')) /\
    inc = consumed ++ inc' /\
    buf +:+ joinAll consumed = (line +:+ String LF EmptyString) +:+ buf'.
Proof.
  revert buf. induction inc as [|chunk more IH]; intros buf H Hn;
    cbn [ReadSlice].
  - destruct (IndexByte buf LF) as [i|] eqn:E.
    + destruct (IndexByte_Some _ _ _ E) as (pre & post & Hb & Hp & Ht & Hd).
      simpl in H. rewrite app_empty_r in H. rewrite Hb in H.
      destruct (first_cut _ _ _ _ _ Hp Hn H) as [E1 E2].
      exists rest, [], []. rewrite Ht, Hd, E1, E2. repeat split.
      simpl. rewrite app_empty_r, app_assoc_s, app_cons, app_empty_l.
      rewrite Hb, E1, E2. reflexivity.
    + apply IndexByte_None in E. exfalso. apply E.
      simpl in H. rewrite app_empty_r in H. rewrite H. exists line, rest. reflexivity.
  - destruct (IndexByte buf LF) as [i|] eqn:E.
    + destruct (IndexByte_Some _ _ _ E) as (pre & post & Hb & Hp & Ht & Hd).
      rewrite Hb, app_assoc_s, app_cons in H.
      destruct (first_cut _ _ _ _ _ Hp Hn H) as [E1 _].
      exists post, (chunk :: more), []. rewrite Ht, Hd, E1. repeat split.
      simpl. rewrite app_empty_r, app_assoc_s, app_cons, app_empty_l.
      rewrite Hb, E1. reflexivity.
    + simpl in H. rewrite <- app_assoc_s in H.
      destruct (IH _ H Hn) as (buf' & inc' & consumed & HR & Hi & Hj).
      exists buf', inc', (chunk :: consumed). repeat split.
      * exact HR.
      * simpl. rewrite Hi. reflexivity.
      * simpl. rewrite <- app_assoc_s. exact Hj.
Qed.

Lemma chomp_cons (c : ascii) (rest : string) :
  chomp (String c rest) =
  if Ascii.eqb c LF && String.eqb rest EmptyString then EmptyString
  else if Ascii.eqb c CR && String.eqb rest (String LF EmptyString)
       then EmptyString
       else String c (chomp rest).
Proof. reflexivity. Qed.

Lemma CRLF_not_LF (text : string) :
  String.eqb (text +:+ CRLF) (String LF EmptyString) = false.
Proof.
  destruct text as [|a [|b text]]; try reflexivity;
    rewrite !app_cons; simpl; apply andb_false_r.
Qed.

Lemma chomp_CRLF (text : string) :
  ~ occurs LF text -> chomp (text +:+ CRLF) = text.
Proof.
  induction text as [|c text IH]; intros H; [reflexivity|].
  rewrite occurs_cons in H. rewrite app_cons, chomp_cons, CRLF_not_LF.
  rewrite andb_false_r.
  destruct (Ascii.eqb c LF) eqn:E1.
  { apply Ascii.eqb_eq in E1. tauto. }
  simpl. rewrite IH by tauto. reflexivity.
Qed.

(** [ReadLine] on an open connection whose stream starts with a line
    ended by CRLF. *)
Lemma ReadLine_line (c : Conn) (text rest : string) :
  closed c = false ->
  stream c = text +:+ CRLF +:+ rest ->
  ~ occurs LF text ->
  exists c', ReadLine c = ((text, None), c') /\
             advance c c' (text +:+ CRLF).
Proof.
  intros Hc Hs Hn. unfold ReadLine. rewrite Hc.
  assert (Hn' : ~ occurs LF (text +:+ String CR EmptyString)).
  { intros (pre & post & H). apply Hn.
    revert pre H. clear -text. induction text as [|a text IH]; intros pre H.
    - destruct pre as [|p [|p' pre]]; rewrite ?app_cons, ?app_empty_l in H;
        try discriminate.
    - destruct pre as [|p pre]; rewrite ?app_cons, ?app_empty_l in H.
      + injection H as -> _. apply occurs_cons. auto.
      + injection H as -> H. apply occurs_cons. right. exact (IH _ H). }
  assert (Hs' : R c +:+ joinAll (incoming c) =
                (text +:+ String CR EmptyString) +:+ String LF rest).
  { unfold stream in Hs. rewrite Hs. unfold CRLF.
    rewrite !app_assoc_s, !app_cons, !app_empty_l. reflexivity. }
  destruct (ReadSlice_line _ _ _ _ Hs' Hn')
    as (buf' & inc' & consumed & HR & Hi & Hj).
  rewrite HR.
  assert (HL : (text +:+ String CR EmptyString) +:+ String LF EmptyString
               = text +:+ CRLF).
  { unfold CRLF. rewrite app_assoc_s, app_cons, app_empty_l. reflexivity. }
  rewrite HL in *.
  destruct (text +:+ CRLF) as [|a line] eqn:EL.
  { destruct text; discriminate. }
  rewrite <- EL, chomp_CRLF by exact Hn.
  eexists. split; [reflexivity|].
  exists consumed. simpl. rewrite EL. auto.
Qed.

(** *** The loops end before their fuel does *)

Lemma ReadSlice_size (isClosed : bool) (inc : list string) (buf : string) :
  forall line err buf' inc',
    ReadSlice isClosed buf inc = ((line, err), (buf', inc')) ->
    (String.length line + String.length buf' + sizeAll inc'
     = String.length buf + sizeAll inc)%nat
    /\ (err = None -> line <> EmptyString).
Proof.
  revert buf. induction inc as [|chunk more IH]; intros buf line err buf' inc';
    cbn [ReadSlice]; destruct (IndexByte buf LF) as [i|] eqn:E.
  1, 3: destruct (IndexByte_Some _ _ _ E) as (pre & post & Hb & _ & Ht & Hd);
    rewrite Ht, Hd; intros H; injection H as <- <- <- <-;
    rewrite Hb, !length_app_s; simpl; split; [lia|];
    intros _; destruct pre; discriminate.
  - destruct isClosed; intros [= <- <- <- <-]; simpl;
      (split; [lia | discriminate]).
  - destruct isClosed.
    + intros [= <- <- <- <-]; simpl; split; [lia | discriminate].
    + intros H. destruct (IH _ _ _ _ _ H) as [H1 H2]. split; [|exact H2].
      rewrite H1, length_app_s. simpl. lia.
Qed.

Lemma ReadLine_frame (c c' : Conn) (line : string) (err : option error) :
  ReadLine c = ((line, err), c') ->
  (pending c' <= pending c)%nat /\ (err = None -> (pending c' < pending c)%nat)
  /\ closed c' = closed c /\ cmds c' = cmds c.
Proof.
  unfold ReadLine.
  destruct (ReadSlice (closed c) (R c) (incoming c)) as [[raw e] [buf inc]] eqn:E.
  destruct (ReadSlice_size _ _ _ _ _ _ _ E) as [H1 H2].
  unfold pending in *.
  destruct raw as [|a raw]; intros [= <- <- <-]; simpl in *.
  - repeat split; try lia. intros ->. exfalso. apply H2; reflexivity.
  - repeat split; lia.
Qed.

Lemma dotLoop_total (fuel : nat) :
  forall v c, (pending c < fuel)%nat ->
    exists r c', dotLoop fuel v c = Some (r, c') /\
                 (pending c' <= pending c)%nat /\
                 closed c' = closed c /\ cmds c' = cmds c.
Proof.
  induction fuel as [|fuel IH]; intros v c Hf; [lia|].
  cbn [dotLoop].
  destruct (ReadLine c) as [[line err] c1] eqn:E.
  destruct (ReadLine_frame _ _ _ _ E) as (H1 & H2 & H3 & H4).
  destruct err as [e|].
  - eexists _, _. split; [reflexivity|]. auto.
  - specialize (H2 eq_refl).
    destruct (match line with
              | EmptyString => (false, line)
              | String c0 rest =>
                  if Ascii.eqb c0 "."
                  then if (String.length line =? 1)%nat then (true, line)
                       else (false, rest)
                  else (false, line)
              end) as [stop line'].
    destruct stop.
    + eexists _, _. split; [reflexivity|]. auto.
    + destruct (IH (v ++ [line']) c1) as (r & c' & Hr & Hp & Hc & Hw); [lia|].
      exists r, c'. split; [exact Hr|]. repeat split; [lia | congruence | congruence].
Qed.

Lemma ReadDotLines_frame (c : Conn) :
  (pending (snd (ReadDotLines c)) <= pending c)%nat
  /\ closed (snd (ReadDotLines c)) = closed c
  /\ cmds (snd (ReadDotLines c)) = cmds c.
Proof.
  unfold ReadDotLines.
  destruct (dotLoop_total (S (pending c)) [] c) as (r & c' & -> & H); [lia|].
  exact H.
Qed.

Lemma readLoop_total (expected : Z) (fuel : nat) :
  forall reply c, (pending c < fuel)%nat ->
    exists r c', readLoop fuel expected reply c = Some (r, c')
                 /\ closed c' = closed c /\ cmds c' = cmds c.
Proof.
  induction fuel as [|fuel IH]; intros reply c Hf; [lia|].
  cbn [readLoop].
  destruct (ReadLine c) as [[line err] c1] eqn:E.
  destruct (ReadLine_frame _ _ _ _ E) as (H1 & H2 & H3 & H4).
  destruct err as [e|]; [eexists _, _; split; [reflexivity | auto]|].
  specialize (H2 eq_refl).
  destruct (String.length line <? 4)%nat;
    [eexists _, _; split; [reflexivity | auto]|].
  destruct (Go.Atoi (Go.take 3 line)) as [code [e|]];
    [eexists _, _; split; [reflexivity | auto]|].
  destruct (Ascii.eqb (byteAt 3 line) " ").
  { destruct (negb (code =? expected)); eexists _, _; split; try reflexivity; auto. }
  destruct (Ascii.eqb (byteAt 3 line) "-").
  { destruct (negb (code =? expected));
      [eexists _, _; split; [reflexivity | auto]|].
    destruct (IH ((reply +:+ Go.drop 4 line) +:+ String LF EmptyString) c1)
      as (r & c' & Hr & Hc & Hw); [lia|].
    exists r, c'. split; [exact Hr|]. split; congruence. }
  destruct (Ascii.eqb (byteAt 3 line) "+");
    [|eexists _, _; split; [reflexivity | auto]].
  pose proof (ReadDotLines_frame c1) as (Hd & Hdc & Hdw).
  destruct (ReadDotLines c1) as [[resp derr] c2]. simpl in Hd, Hdc, Hdw.
  destruct derr as [e|];
    [eexists _, _; split; [reflexivity | split; congruence]|].
  destruct (negb (code =? expected));
    [eexists _, _; split; [reflexivity | split; congruence]|].
  destruct (IH (((reply +:+ Go.drop 4 line) +:+ Go.Join resp ",") +:+
                String LF EmptyString) c2)
    as (r & c' & Hr & Hc & Hw); [lia|].
  exists r, c'. split; [exact Hr|]. split; congruence.
Qed.

(** [readResponse] always runs its loop to a result: the fuel it starts
    with is never used up. *)
Lemma readResponse_runs (expected : Z) (c : Conn) :
  exists r c', readLoop (S (pending c)) expected EmptyString c = Some (r, c')
               /\ readResponse expected c = (r, discardBuffered c').
Proof.
  destruct (readLoop_total expected (S (pending c)) EmptyString c)
    as (r & c' & H & _); [lia|].
  exists r, c'. split; [exact H|]. unfold readResponse. rewrite H. reflexivity.
Qed.

Lemma ReadDotLines_runs (c : Conn) :
  exists r c', dotLoop (S (pending c)) [] c = Some (r, c')
               /\ ReadDotLines c = (r, c').
Proof.
  destruct (dotLoop_total (S (pending c)) [] c) as (r & c' & H & _); [lia|].
  exists r, c'. split; [exact H|]. unfold ReadDotLines. rewrite H. reflexivity.
Qed.

(** *** Replies that follow the grammar *)

Lemma StatusCode_ok (n : Z) :
  0 <= n < 1000 ->
  Go.Atoi (StatusCode n) = (n, None) /\ ~ occurs LF (StatusCode n).
Proof.
  intros Hn.
  pose (check := fun k : nat =>
    match Go.Atoi (StatusCode (Z.of_nat k)),
          IndexByte (StatusCode (Z.of_nat k)) LF with
    | (v, None), None => v =? Z.of_nat k
    | _, _ => false
    end).
  assert (H : forallb check (seq 0 1000) = true) by (vm_compute; reflexivity).
  rewrite forallb_forall in H. specialize (H (Z.to_nat n)).
  unfold check in H. rewrite Z2Nat.id in H by lia.
  assert (Hin : In (Z.to_nat n) (seq 0 1000)) by (apply in_seq; lia).
  specialize (H Hin).
  destruct (Go.Atoi (StatusCode n)) as [v [e|]]; [discriminate|].
  destruct (IndexByte (StatusCode n) LF) eqn:E; [discriminate|].
  apply Z.eqb_eq in H as ->. split; [reflexivity|].
  apply IndexByte_None. exact E.
Qed.

Lemma occurs_app (b : ascii) (s t : string) :
  occurs b (s +:+ t) <-> occurs b s \/ occurs b t.
Proof.
  induction s as [|c s IH].
  - rewrite app_empty_l. split; [auto|]. intros [H|H]; [|exact H].
    destruct (occurs_empty _ H).
  - rewrite app_cons, !occurs_cons, IH. tauto.
Qed.

Lemma statusLine_noLF (n : Z) (sep : ascii) (text : string) :
  0 <= n < 1000 -> sep <> LF -> ~ occurs LF text ->
  ~ occurs LF (statusLine n sep text).
Proof.
  intros Hn Hs Ht. unfold statusLine. rewrite occurs_app, occurs_cons.
  destruct (StatusCode_ok n Hn) as [_ H]. tauto.
Qed.

Lemma readLoop_line (fuel : nat) (expected : Z) (reply : string) (c c1 : Conn)
      (n : Z) (sep : ascii) (text : string) :
  ReadLine c = ((statusLine n sep text, None), c1) ->
  0 <= n < 1000 ->
  readLoop (S fuel) expected reply c =
    if Ascii.eqb sep " " then
      if negb (n =? expected)
      then Some ((n, reply +:+ text, Some errCodeNotMatch), c1)
      else Some ((n, reply +:+ text, None), c1)
    else if Ascii.eqb sep "-" then
      if negb (n =? expected)
      then Some ((n, reply +:+ text, Some errCodeNotMatch), c1)
      else readLoop fuel expected ((reply +:+ text) +:+ String LF EmptyString) c1
    else if Ascii.eqb sep "+" then
      let '((resp, derr), c2) := ReadDotLines c1 in
      match derr with
      | Some e => Some ((n, reply +:+ text, Some e), c2)
      | None =>
          if negb (n =? expected)
          then Some ((n, (reply +:+ text) +:+ Go.Join resp ",",
                      Some errCodeNotMatch), c2)
          else readLoop fuel expected
                 (((reply +:+ text) +:+ Go.Join resp ",") +:+
                  String LF EmptyString) c2
      end
    else
      Some ((n, reply,
             Some (ProtocolError
                     ("invalid line: " +:+ statusLine n sep text))),
            c1).
Proof.
  intros H Hn. cbn [readLoop]. rewrite H.
  destruct (StatusCode_ok n Hn) as [HA _].
  unfold statusLine, StatusCode in *. rewrite !app_cons, app_empty_l.
  cbn [String.length Nat.ltb Nat.leb Go.take byteAt Go.drop].
  rewrite HA. reflexivity.
Qed.

Lemma dotStuff_noLF (d : string) : ~ occurs LF d -> ~ occurs LF (dotStuff d).
Proof.
  intros H. unfold dotStuff. destruct d as [|c d]; [exact H|].
  destruct (Ascii.eqb c ".") eqn:E; [|exact H].
  rewrite occurs_cons. intros [E'|H']; [discriminate | exact (H H')].
Qed.

(** [ReadDotLines] on a data block. *)
Lemma dotLoop_data (rest : string) (data : list string) :
  forall fuel v c,
    closed c = false ->
    Forall (fun d => ~ occurs LF d) data ->
    stream c = CmdData data +:+ rest ->
    (pending c < fuel)%nat ->
    exists c', dotLoop fuel v c = Some ((v ++ data, None), c') /\
               advance c c' (CmdData data).
Proof.
  induction data as [|d data IH]; intros fuel v c Hc Hd Hs Hf;
    (destruct fuel as [|fuel]; [lia|]); cbn [dotLoop].
  - cbn [CmdData] in Hs. rewrite app_assoc_s in Hs.
    destruct (ReadLine_line c "." rest Hc Hs) as (c1 & HR & HA).
    { rewrite occurs_cons. intros [E|E]; [discriminate | exact (occurs_empty _ E)]. }
    rewrite HR. simpl. rewrite app_nil_r. eauto.
  - cbn [CmdData] in Hs. rewrite !app_assoc_s in Hs.
    inversion Hd as [|? ? Hd1 Hd2]; subst.
    destruct (ReadLine_line c (dotStuff d) _ Hc Hs (dotStuff_noLF _ Hd1))
      as (c1 & HR & HA).
    rewrite HR.
    pose proof (advance_stream _ _ _ HA) as HS1.
    rewrite Hs, <- app_assoc_s in HS1. apply app_inv_head_s in HS1.
    assert (Hp : (pending c1 < fuel)%nat).
    { destruct (ReadLine_frame _ _ _ _ HR) as (_ & H2 & _).
      specialize (H2 eq_refl). lia. }
    assert (Hc1 : closed c1 = false).
    { destruct HA as (? & _ & _ & -> & _). exact Hc. }
    assert (HL : (let '(stop, line) :=
                    match dotStuff d with
                    | EmptyString => (false, dotStuff d)
                    | String c0 rest0 =>
                        if Ascii.eqb c0 "."
                        then if (String.length (dotStuff d) =? 1)%nat
                             then (true, dotStuff d) else (false, rest0)
                        else (false, dotStuff d)
                    end in
                  if stop then Some ((v, None), c1)
                  else dotLoop fuel (v ++ [line]) c1)
                 = dotLoop fuel (v ++ [d]) c1).
    { unfold dotStuff. destruct d as [|a d']; [reflexivity|].
      destruct (Ascii.eqb a ".") eqn:E; [|rewrite E; reflexivity].
      simpl. reflexivity. }
    rewrite HL.
    destruct (IH fuel (v ++ [d]) c1 Hc1 Hd2 (eq_sym HS1) Hp) as (c' & HD & HA').
    exists c'. split.
    + rewrite HD, <- app_assoc. reflexivity.
    + cbn [CmdData]. rewrite <- app_assoc_s.
      exact (advance_trans _ _ _ _ _ HA HA').
Qed.

Lemma ReadDotLines_data (c : Conn) (data : list string) (rest : string) :
  closed c = false ->
  Forall (fun d => ~ occurs LF d) data ->
  stream c = CmdData data +:+ rest ->
  exists c', ReadDotLines c = ((data, None), c') /\ advance c c' (CmdData data).
Proof.
  intros Hc Hd Hs. unfold ReadDotLines.
  destruct (dotLoop_data rest data (S (pending c)) [] c Hc Hd Hs) as (c' & -> & HA);
    [lia|].
  exists c'. auto.
Qed.

Lemma replyText_snoc (ls : list ReplyLine) (l : ReplyLine) :
  replyText (ls ++ [l]) = prefixText ls +:+ lineText l.
Proof.
  unfold replyText, prefixText.
  induction ls as [|a ls IH]; [reflexivity|].
  change (Go.Join (lineText <$> (a :: ls) ++ [l]) (String LF EmptyString))
    with (Go.Join (lineText a :: (lineText <$> ls ++ [l])) (String LF EmptyString)).
  destruct (lineText <$> ls ++ [l]) as [|x xs] eqn:E.
  { destruct ls; discriminate. }
  change (Go.Join (lineText a :: x :: xs) (String LF EmptyString))
    with (lineText a +:+ String LF EmptyString +:+
          Go.Join (x :: xs) (String LF EmptyString)).
  rewrite IH. simpl. rewrite !app_assoc_s. reflexivity.
Qed.

Lemma advance_closed (c c' : Conn) (t : string) :
  advance c c' t -> closed c' = closed c.
Proof. intros (? & _ & _ & H & _). exact H. Qed.

(** One line that asks for more, of the expected code. *)
Lemma readLoop_more (expected : Z) (l : ReplyLine) (rest : string) :
  forall fuel reply c,
    closed c = false -> goodLine expected l ->
    stream c = wire l +:+ rest -> (pending c < S fuel)%nat ->
    exists c',
      readLoop (S fuel) expected reply c =
        readLoop fuel expected (reply +:+ lineText l +:+ String LF EmptyString) c'
      /\ advance c c' (wire l) /\ (pending c' < fuel)%nat.
Proof.
  intros fuel reply c Hc ((Hn & Hw) & Hk & He) Hs Hf.
  destruct l as [code text|code text data|code text]; simpl in Hn, Hw, Hk, He;
    [| |contradiction]; subst code; cbn [wire lineText] in *.
  - rewrite ?app_assoc_s in Hs.
    destruct (ReadLine_line c _ _ Hc Hs) as (c1 & HR & HA).
    { apply statusLine_noLF; [exact Hn | discriminate | exact Hw]. }
    rewrite (readLoop_line _ _ _ _ _ _ _ _ HR Hn). cbn [Ascii.eqb Bool.eqb].
    rewrite Z.eqb_refl. cbn [negb]. exists c1.
    rewrite app_assoc_s. split; [reflexivity|]. split; [exact HA|].
    destruct (ReadLine_frame _ _ _ _ HR) as (_ & H2 & _).
    specialize (H2 eq_refl). lia.
  - destruct Hw as [Hw Hd]. rewrite !app_assoc_s in Hs.
    rewrite ?app_assoc_s in Hs.
    destruct (ReadLine_line c _ _ Hc Hs) as (c1 & HR & HA).
    { apply statusLine_noLF; [exact Hn | discriminate | exact Hw]. }
    rewrite (readLoop_line _ _ _ _ _ _ _ _ HR Hn). cbn [Ascii.eqb Bool.eqb].
    pose proof (advance_stream _ _ _ HA) as HS1.
    rewrite Hs, <- app_assoc_s in HS1. apply app_inv_head_s in HS1.
    assert (Hc1 : closed c1 = false)
      by (rewrite (advance_closed _ _ _ HA); exact Hc).
    destruct (ReadDotLines_data c1 data rest Hc1 Hd (eq_sym HS1))
      as (c2 & HD & HA2).
    rewrite HD. rewrite Z.eqb_refl. cbn [negb]. exists c2.
    rewrite !app_assoc_s. split; [reflexivity|].
    split; [rewrite <- app_assoc_s; exact (advance_trans _ _ _ _ _ HA HA2)|].
    destruct (ReadLine_frame _ _ _ _ HR) as (_ & H2 & _).
    specialize (H2 eq_refl).
    pose proof (ReadDotLines_frame c1) as (H3 & _). rewrite HD in H3.
    simpl in H3. lia.
Qed.

Lemma readLoop_good (expected : Z) (rest : string) (good : list ReplyLine) :
  forall fuel reply c,
    closed c = false -> Forall (goodLine expected) good ->
    stream c = wireAll good +:+ rest -> (pending c < fuel)%nat ->
    exists c' fuel',
      readLoop fuel expected reply c =
        readLoop fuel' expected (reply +:+ prefixText good) c'
      /\ advance c c' (wireAll good) /\ (pending c' < fuel')%nat.
Proof.
  induction good as [|l good IH]; intros fuel reply c Hc Hg Hs Hf.
  - exists c, fuel. unfold prefixText. simpl. rewrite app_empty_r.
    split; [reflexivity|]. split; [apply advance_refl | exact Hf].
  - inversion Hg as [|? ? Hl Hg']; subst.
    destruct fuel as [|fuel]; [lia|].
    unfold wireAll in Hs. cbn [fmap list_fmap joinAll] in Hs.
    rewrite app_assoc_s in Hs.
    destruct (readLoop_more expected l _ fuel reply c Hc Hl Hs Hf)
      as (c1 & HR & HA & Hp).
    pose proof (advance_stream _ _ _ HA) as HS1.
    rewrite Hs in HS1. apply app_inv_head_s in HS1.
    assert (Hc1 : closed c1 = false)
      by (rewrite (advance_closed _ _ _ HA); exact Hc).
    destruct (IH fuel (reply +:+ lineText l +:+ String LF EmptyString) c1
                Hc1 Hg' (eq_sym HS1) Hp) as (c' & fuel' & HR' & HA' & Hp').
    exists c', fuel'. split; [|split; [|exact Hp']].
    + rewrite HR, HR'. unfold prefixText. cbn [fmap list_fmap joinAll].
      rewrite !app_assoc_s. reflexivity.
    + exact (advance_trans _ _ _ _ _ HA HA').
Qed.

(** The line that ends the loop: an end line, or any line whose code is
    not the expected one. *)
Lemma readLoop_last (expected : Z) (l : ReplyLine) (rest : string) :
  forall fuel reply c,
    closed c = false -> wellFormedLine l ->
    (lineCode l <> expected \/ ~ continues l) ->
    stream c = wire l +:+ rest -> (pending c < fuel)%nat ->
    exists c',
      readLoop fuel expected reply c =
        Some ((lineCode l, reply +:+ lineText l,
               if lineCode l =? expected then None else Some errCodeNotMatch),
              c')
      /\ advance c c' (wire l).
Proof.
  intros fuel reply c Hc (Hn & Hw) Hlast Hs Hf.
  destruct fuel as [|fuel]; [lia|].
  destruct l as [code text|code text data|code text]; simpl in Hn, Hw, Hlast;
    cbn [wire lineText lineCode] in *.
  - destruct Hlast as [Hne|Hk]; [|tauto].
    rewrite ?app_assoc_s in Hs.
    destruct (ReadLine_line c _ _ Hc Hs) as (c1 & HR & HA).
    { apply statusLine_noLF; [exact Hn | discriminate | exact Hw]. }
    rewrite (readLoop_line _ _ _ _ _ _ _ _ HR Hn). cbn [Ascii.eqb Bool.eqb].
    apply Z.eqb_neq in Hne. rewrite Hne. cbn [negb]. eauto.
  - destruct Hlast as [Hne|Hk]; [|tauto].
    destruct Hw as [Hw Hd]. rewrite !app_assoc_s in Hs.
    rewrite ?app_assoc_s in Hs.
    destruct (ReadLine_line c _ _ Hc Hs) as (c1 & HR & HA).
    { apply statusLine_noLF; [exact Hn | discriminate | exact Hw]. }
    rewrite (readLoop_line _ _ _ _ _ _ _ _ HR Hn). cbn [Ascii.eqb Bool.eqb].
    pose proof (advance_stream _ _ _ HA) as HS1.
    rewrite Hs, <- app_assoc_s in HS1. apply app_inv_head_s in HS1.
    assert (Hc1 : closed c1 = false)
      by (rewrite (advance_closed _ _ _ HA); exact Hc).
    destruct (ReadDotLines_data c1 data rest Hc1 Hd (eq_sym HS1))
      as (c2 & HD & HA2).
    rewrite HD. apply Z.eqb_neq in Hne. rewrite Hne. cbn [negb].
    exists c2. split; [rewrite app_assoc_s; reflexivity|].
    rewrite <- app_assoc_s. exact (advance_trans _ _ _ _ _ HA HA2).
  - rewrite ?app_assoc_s in Hs.
    destruct (ReadLine_line c _ _ Hc Hs) as (c1 & HR & HA).
    { apply statusLine_noLF; [exact Hn | discriminate | exact Hw]. }
    rewrite (readLoop_line _ _ _ _ _ _ _ _ HR Hn). cbn [Ascii.eqb Bool.eqb].
    exists c1. split; [|exact HA].
    destruct (code =? expected); reflexivity.
Qed.

(** A whole reply: lines that continue, then the line that ends the
    loop. *)
Lemma readResponse_lines (expected : Z) (good : list ReplyLine)
      (last : ReplyLine) (c : Conn) (rest : string) :
  closed c = false -> Forall (goodLine expected) good ->
  wellFormedLine last ->
  (lineCode last <> expected \/ ~ continues last) ->
  stream c = wireAll (good ++ [last]) +:+ rest ->
  exists c',
    readResponse expected c =
      ((lineCode last, replyText (good ++ [last]),
        if lineCode last =? expected then None else Some errCodeNotMatch),
       discardBuffered c')
    /\ advance c c' (wireAll (good ++ [last])).
Proof.
  intros Hc Hg Hw Hlast Hs.
  assert (HW : wireAll (good ++ [last]) = wireAll good +:+ wire last).
  { unfold wireAll. rewrite fmap_app, joinAll_app. simpl.
    rewrite app_empty_r. reflexivity. }
  rewrite HW, app_assoc_s in Hs.
  destruct (readLoop_good expected _ good (S (pending c)) EmptyString c Hc Hg Hs)
    as (c1 & fuel1 & HR1 & HA1 & Hp1); [lia|].
  pose proof (advance_stream _ _ _ HA1) as HS1.
  rewrite Hs in HS1. apply app_inv_head_s in HS1.
  assert (Hc1 : closed c1 = false)
    by (rewrite (advance_closed _ _ _ HA1); exact Hc).
  destruct (readLoop_last expected last rest fuel1 (EmptyString +:+ prefixText good)
              c1 Hc1 Hw Hlast (eq_sym HS1) Hp1) as (c2 & HR2 & HA2).
  exists c2. split.
  - unfold readResponse. rewrite HR1, HR2, replyText_snoc, app_empty_l. reflexivity.
  - rewrite HW. exact (advance_trans _ _ _ _ _ HA1 HA2).
Qed.

(** C6.  A reply whose lines all carry the expected code is returned with
    that code and no error; its text is the texts of its lines joined by
    line feeds, a data line counting as its own text followed by the lines
    of its dot-terminated block joined by commas.  How the bytes are split
    between the buffer and the chunks still to come does not matter. *)
Theorem readResponse_collapses (expected : Z) (lines : list ReplyLine)
        (text : string) (c : Conn) (rest : string) :
  closed c = false ->
  0 <= expected < 1000 ->
  Forall (goodLine expected) lines ->
  ~ occurs LF text ->
  stream c = wireAll (lines ++ [EndReplyLine expected text]) +:+ rest ->
  fst (readResponse expected c) =
    (expected, replyText (lines ++ [EndReplyLine expected text]), None).
Proof.
  intros Hc He Hg Ht Hs.
  destruct (readResponse_lines expected lines (EndReplyLine expected text)
              c rest Hc Hg) as (c' & HR & _).
  - split; [exact He | exact Ht].
  - right. simpl. tauto.
  - exact Hs.
  - rewrite HR. simpl. rewrite Z.eqb_refl. reflexivity.
Qed.

(** The scenario of the spec: the lines [250+config-text=], [alpha],
    [beta], [.] and [250 OK], one chunk each. *)
Lemma readResponse_collapses_witness :
  fst (readResponse 250
         (mkConn EmptyString
            [ "250+config-text=" +:+ CRLF; "alpha" +:+ CRLF; "beta" +:+ CRLF;
              "." +:+ CRLF; "250 OK" +:+ CRLF ] [] false))
  = (250, "config-text=alpha,beta" +:+ String LF "OK", None).
Proof.
  apply (readResponse_collapses 250
           [DataReplyLine 250 "config-text=" ["alpha"; "beta"]] "OK"
           (mkConn EmptyString
              [ "250+config-text=" +:+ CRLF; "alpha" +:+ CRLF;
                "beta" +:+ CRLF; "." +:+ CRLF; "250 OK" +:+ CRLF ] [] false)
           EmptyString).
  - reflexivity.
  - lia.
  - constructor; [|constructor].
    split; [split; [simpl; lia | split] | split; [exact I | reflexivity]].
    + apply IndexByte_None; reflexivity.
    + repeat (constructor; [apply IndexByte_None; reflexivity|]). constructor.
  - apply IndexByte_None; reflexivity.
  - reflexivity.
Defined.



(** In that scenario the read that follows meets the end of the stream; it
    does not parse [250 OK]. *)
Lemma readResponse_drained_example :
  exists c',
    readResponse 250
      (mkConn EmptyString
         [ "515 Authentication required." +:+ CRLF +:+ "250 OK" +:+ CRLF ]
         [] false) =
      ((515, "Authentication required.", Some errCodeNotMatch), c')
    /\ readResponse 250 c' = ((0, EmptyString, Some EOF), c').
Proof. eexists. split; vm_compute; reflexivity. Qed.


End Reading.

(** ** The life cycle of the controller *)

Section Lifecycle.

Import tor.

Lemma frame_refl st : frame st st.
Proof. repeat split. Qed.

Lemma frame_trans st1 st2 st3 : frame st1 st2 -> frame st2 st3 -> frame st1 st3.
Proof. unfold frame. intuition congruence. Qed.

Lemma preserves_ret {A} (a : A) : preserves (mret a).
Proof. intros st r st' [= <- <-]. apply frame_refl. Qed.

Lemma preserves_bind {A B} (m : M A) (f : A -> M B) :
  preserves m -> (forall a, preserves (f a)) -> preserves (m ≫= f).
Proof.
  intros Hm Hf st r st'. unfold mbind, M_bind.
  destruct (m st) as [[a|msg] st1] eqn:E.
  - intros H. exact (frame_trans _ _ _ (Hm _ _ _ E) (Hf a _ _ _ H)).
  - intros [= <- <-]. exact (Hm _ _ _ E).
Qed.

Lemma preserves_getCtl : preserves getCtl.
Proof. intros st r st' [= <- <-]. apply frame_refl. Qed.

Lemma preserves_nilDeref {A} : preserves (@nilDeref A).
Proof. intros st r st' [= <- <-]. apply frame_refl. Qed.

Lemma preserves_set_conn v : preserves (setCtl (set_conn v)).
Proof. intros st r st' [= <- <-]. repeat split. Qed.

Lemma preserves_set_version v : preserves (setCtl (set_version v)).
Proof. intros st r st' [= <- <-]. repeat split. Qed.

Lemma preserves_Cmd format : preserves (Cmd format).
Proof.
  unfold Cmd. apply preserves_bind; [apply preserves_getCtl|]. intros c.
  destruct (conn c) as [cn|]; [|apply preserves_nilDeref].
  destruct (closed cn); [apply preserves_ret|].
  apply preserves_bind; [apply preserves_set_conn | intros; apply preserves_ret].
Qed.

Lemma preserves_Close : preserves Close.
Proof.
  unfold Close. apply preserves_bind; [apply preserves_getCtl|]. intros c.
  destruct (conn c) as [cn|]; [|apply preserves_nilDeref].
  destruct (closed cn); [apply preserves_ret|].
  apply preserves_bind; [apply preserves_set_conn | intros; apply preserves_ret].
Qed.

Lemma preserves_readResponse expected : preserves (Controller_readResponse expected).
Proof.
  unfold Controller_readResponse.
  apply preserves_bind; [apply preserves_getCtl|]. intros c.
  destruct (conn c) as [cn|]; [|apply preserves_nilDeref].
  destruct (readResponse expected cn) as [r cn'].
  apply preserves_bind; [apply preserves_set_conn | intros; apply preserves_ret].
Qed.

Lemma preserves_sendCommand command : preserves (sendCommand command).
Proof.
  unfold sendCommand. apply preserves_bind; [apply preserves_Cmd|].
  intros [e|]; [apply preserves_ret | apply preserves_readResponse].
Qed.

Lemma preserves_DelOnion serviceID : preserves (DelOnion serviceID).
Proof.
  unfold DelOnion. apply preserves_bind; [apply preserves_sendCommand|].
  intros [[code reply] err]. apply preserves_ret.
Qed.

Lemma preserves_ReadFile path : preserves (ReadFile path).
Proof.
  intros st r st'. unfold ReadFile.
  destruct (files (world st) !! path); intros [= <- <-]; apply frame_refl.
Qed.

Lemma preserves_randRead n : preserves (randRead n).
Proof.
  intros st r st'. unfold randRead.
  destruct (String.length (entropy (world st)) <? n)%nat;
    intros [= <- <-]; repeat split.
Qed.

Lemma preserves_Dial : preserves Dial.
Proof.
  intros st r st'. unfold Dial.
  destruct (dials (world st)) as [|[chunks|] later];
    intros [= <- <-]; repeat split.
Qed.

Ltac preserve :=
  repeat first
    [ apply preserves_ret | apply preserves_getCtl | apply preserves_nilDeref
    | apply preserves_set_conn | apply preserves_set_version
    | apply preserves_sendCommand | apply preserves_ReadFile
    | apply preserves_randRead | apply preserves_Dial | apply preserves_Close
    | apply preserves_DelOnion
    | apply preserves_bind; [|intros ?]
    | match goal with
      | |- preserves (match ?x with _ => _ end) => destruct x
      | |- preserves (if ?x then _ else _) => destruct x
      | |- preserves (let '(_, _) := ?x in _) => destruct x
      end ].

Lemma preserves_authenticateViaNull : preserves authenticateViaNull.
Proof. unfold authenticateViaNull. preserve. Qed.

Lemma preserves_authenticateViaHashedPassword :
  preserves authenticateViaHashedPassword.
Proof. unfold authenticateViaHashedPassword. preserve. Qed.

Lemma preserves_getAuthCookie info : preserves (getAuthCookie info).
Proof. unfold getAuthCookie. preserve. Qed.

Lemma preserves_authenticateViaSafeCookie info :
  preserves (authenticateViaSafeCookie info).
Proof.
  unfold authenticateViaSafeCookie.
  apply preserves_bind; [apply preserves_getAuthCookie|]. intros r. preserve.
Qed.

Lemma preserves_protocolInfo : preserves Controller_protocolInfo.
Proof. unfold Controller_protocolInfo. preserve. Qed.

Lemma preserves_authenticate : preserves authenticate.
Proof.
  unfold authenticate.
  apply preserves_bind; [apply preserves_protocolInfo|]. intros [info|e];
    [|apply preserves_ret].
  apply preserves_bind; [apply preserves_set_version|]. intros _.
  apply preserves_bind; [apply preserves_getCtl|]. intros c.
  repeat match goal with
         | |- preserves (if ?x then _ else _) => destruct x
         end;
    first [ apply preserves_ret | apply preserves_authenticateViaHashedPassword
          | apply preserves_authenticateViaSafeCookie
          | apply preserves_authenticateViaNull ].
Qed.

Lemma readResponse_frame (expected : Z) (c : Conn) :
  closed (snd (readResponse expected c)) = closed c
  /\ cmds (snd (readResponse expected c)) = cmds c
  /\ R (snd (readResponse expected c)) = EmptyString.
Proof.
  unfold readResponse.
  destruct (readLoop_total expected (S (pending c)) EmptyString c)
    as (r & c' & -> & Hc & Hw); [lia|].
  simpl. auto.
Qed.

(** The state of the connection as [sendCommand] leaves it. *)
Lemma sendCommand_conn (command : string) (st st' : State)
      (r : Outcome (Z * string * option error)) :
  sendCommand command st = (r, st') ->
  match conn (ctl st) with
  | None => st' = st /\ exists msg, r = Panic msg
  | Some cn =>
      if closed cn then st' = st /\ r = Done (0, EmptyString, Some ErrClosed)
      else exists cn', conn (ctl st') = Some cn' /\ closed cn' = false
                       /\ cmds cn' = cmds cn ++ [command]
                       /\ exists res, r = Done res
  end.
Proof.
  unfold sendCommand, Cmd, Controller_readResponse, mbind, M_bind, mret, M_ret,
    getCtl, setCtl, nilDeref.
  destruct st as [c w]. simpl.
  destruct (conn c) as [[buf inc sent cl]|] eqn:E; simpl.
  - destruct cl; simpl.
    + intros [= <- <-]. auto.
    + pose proof (readResponse_frame success
                    (mkConn buf inc (sent ++ [command]) false))
        as (H1 & H2 & _).
      destruct (readResponse success
                  (mkConn buf inc (sent ++ [command]) false)) as [res cn'].
      simpl in *.
      intros [= <- <-]. simpl. exists cn'. eauto.
  - intros [= <- <-]. eauto.
Qed.

Lemma Stop_again (st : State) :
  stopped (ctl st) <> 0 -> Stop st = (Done None, st).
Proof.
  intros H. unfold Stop, CompareAndSwap_stopped, mbind, M_bind, mret, M_ret,
    getCtl. simpl. apply Z.eqb_neq in H. rewrite H. reflexivity.
Qed.

Lemma Stop_first (st : State) :
  stopped (ctl st) = 0 ->
  Stop st =
    (err ← DelOnion (activeServiceID (ctl st));
     match err with
     | Some err => mret (Some err)
     | None => _ ← setCtl (set_activeServiceID EmptyString); Close
     end) (flagged st).
Proof.
  intros H. unfold Stop, CompareAndSwap_stopped, mbind, M_bind, mret, M_ret,
    getCtl, setCtl. simpl. rewrite H. reflexivity.
Qed.

Lemma Stop_flag (st st1 : State) (r : Outcome (option error)) :
  Stop st = (r, st1) ->
  stopped (ctl st) = 0 -> stopped (ctl st1) = 1.
Proof.
  intros H E. rewrite (Stop_first st E) in H.
  unfold mbind, M_bind in H.
  destruct (DelOnion (activeServiceID (ctl st)) (flagged st))
    as [[[e|]|msg] st2] eqn:ED;
    pose proof (preserves_DelOnion _ _ _ _ ED) as (_ & Hs & _); simpl in Hs.
  - injection H as <- <-. exact Hs.
  - unfold setCtl in H.
    destruct (Close _) as [r' st3] eqn:EC.
    pose proof (preserves_Close _ _ _ EC) as (_ & Hs' & _). simpl in Hs'.
    destruct r'; injection H as <- <-; congruence.
  - injection H as <- <-. exact Hs.
Qed.

(** C10.  Whatever the first [Stop] did, it has set the stopped flag, so
    every later [Stop] returns nil and changes nothing.  In particular,
    when [DelOnion] failed the first [Stop] returned its error with the
    flag set, the service ID kept and the connection as open as before,
    and no later [Stop] comes back to that. *)
Theorem Stop_not_retried (st : State) :
  (forall r st1, Stop st = (r, st1) ->
     stopped (ctl st1) <> 0 /\ Stop st1 = (Done None, st1))
  /\ (stopped (ctl st) = 0 ->
      forall e st1,
        DelOnion (activeServiceID (ctl st)) (flagged st) = (Done (Some e), st1) ->
        Stop st = (Done (Some e), st1)
        /\ stopped (ctl st1) = 1
        /\ activeServiceID (ctl st1) = activeServiceID (ctl st)
        /\ (closed <$> conn (ctl st1)) = (closed <$> conn (ctl st))
        /\ Stop st1 = (Done None, st1)).
Proof.
  split.
  - intros r st1 H.
    assert (Hs : stopped (ctl st1) <> 0).
    { destruct (Z.eq_dec (stopped (ctl st)) 0) as [E|E].
      - rewrite (Stop_flag _ _ _ H E). discriminate.
      - rewrite (Stop_again st E) in H. injection H as <- <-. exact E. }
    split; [exact Hs | apply Stop_again; exact Hs].
  - intros E e st1 HD.
    assert (HS : Stop st = (Done (Some e), st1)).
    { rewrite (Stop_first st E). unfold mbind, M_bind. rewrite HD. reflexivity. }
    pose proof (preserves_DelOnion _ _ _ _ HD) as (_ & Hs & _ & Hid & _).
    simpl in Hs, Hid.
    split; [exact HS|]. split; [exact Hs|]. split; [exact Hid|]. split.
    + unfold DelOnion, mbind, M_bind in HD.
      destruct (sendCommand _ (flagged st)) as [r2 st2] eqn:ES.
      pose proof (sendCommand_conn _ _ _ _ ES) as HC. simpl in HC.
      destruct r2 as [[[code reply] err]|msg]; [|discriminate].
      unfold mret, M_ret in HD. injection HD as _ H2. subst st2.
      destruct (conn (ctl st)) as [cn|] eqn:En.
      * destruct (closed cn) eqn:Ec.
        -- destruct HC as [-> _]. simpl. rewrite En. reflexivity.
        -- destruct HC as (cn' & -> & Hc' & _). simpl. congruence.
      * destruct HC as [-> _]. simpl. rewrite En. reflexivity.
    + apply Stop_again. rewrite Hs. discriminate.
Qed.

Lemma Start_again (st : State) :
  started (ctl st) <> 0 -> Start st = (Done None, st).
Proof.
  intros H. unfold Start, CompareAndSwap_started, mbind, M_bind, mret, M_ret,
    getCtl. simpl. apply Z.eqb_neq in H. rewrite H. reflexivity.
Qed.

Lemma Start_flag (st st1 : State) (r : Outcome (option error)) :
  started (ctl st) = 0 -> Start st = (r, st1) ->
  started (ctl st1) = 1 /\ stopped (ctl st1) = stopped (ctl st).
Proof.
  intros E H.
  unfold Start, CompareAndSwap_started, mbind, M_bind, mret, M_ret,
    getCtl, setCtl in H. simpl in H. rewrite E in H. simpl in H.
  destruct (Dial _) as [[[cn|e]|msg] st2] eqn:ED;
    pose proof (preserves_Dial _ _ _ ED) as (H1 & H2 & _); simpl in H1, H2.
  - pose proof (preserves_authenticate _ _ _ H) as (H3 & H4 & _).
    simpl in H3, H4. split; congruence.
  - injection H as <- <-. auto.
  - injection H as <- <-. auto.
Qed.

Lemma Reconnect_success (st st1 : State) :
  Reconnect st = (Done None, st1) ->
  started (ctl st) = 1 /\ stopped (ctl st) = 0 /\
  started (ctl st1) = 1 /\ stopped (ctl st1) = 0 /\
  activeServiceID (ctl st1) = EmptyString.
Proof.
  unfold Reconnect. unfold mbind at 1, M_bind at 1. unfold getCtl at 1.
  destruct (started (ctl st) =? 1) eqn:E1; simpl; [|discriminate].
  destruct (stopped (ctl st) =? 0) eqn:E2; simpl; [|discriminate].
  apply Z.eqb_eq in E1, E2. intros H.
  unfold mbind at 1, M_bind at 1 in H.
  destruct ((match conn (ctl st) with
             | Some _ => Close ≫= λ _ : option error, mret ()
             | None => mret ()
             end) st) as [[[]|msg] st2] eqn:EC; [|discriminate].
  assert (F2 : frame st st2).
  { revert EC. destruct (conn (ctl st)).
    - apply preserves_bind; [apply preserves_Close | intros; apply preserves_ret].
    - apply preserves_ret. }
  unfold mbind at 1, M_bind at 1 in H.
  destruct (Dial st2) as [[[cn|e]|msg] st3] eqn:ED; try discriminate.
  pose proof (preserves_Dial _ _ _ ED) as F3.
  unfold mbind at 1, M_bind at 1, setCtl at 1 in H.
  unfold mbind at 1, M_bind at 1 in H.
  destruct (authenticate _) as [[[e|]|msg] st4] eqn:EA; try discriminate.
  pose proof (preserves_authenticate _ _ _ EA) as F4.
  unfold mbind, M_bind, setCtl, mret, M_ret in H. injection H as <-.
  destruct F2 as (A1 & A2 & _), F3 as (B1 & B2 & _), F4 as (C1 & C2 & _).
  simpl in *. repeat split; congruence.
Qed.


(** A DEL_ONION that the server refuses: [Stop] returns the error once,
    and a second [Stop] does nothing. *)
Lemma Stop_not_retried_witness :
  exists st1,
    Stop (scenario.connected EmptyString "abcdefghijklmnop"
            ["552 Unknown onion service" +:+ CRLF])
      = (Done (Some errCodeNotMatch), st1)
    /\ stopped (ctl st1) = 1
    /\ activeServiceID (ctl st1) = "abcdefghijklmnop"
    /\ (closed <$> conn (ctl st1)) = Some false
    /\ Stop st1 = (Done None, st1).
Proof.
  eexists.
  apply (proj2 (Stop_not_retried
                  (scenario.connected EmptyString "abcdefghijklmnop"
                     ["552 Unknown onion service" +:+ CRLF]))
               eq_refl errCodeNotMatch).
  vm_compute. reflexivity.
Defined.



End Lifecycle.

(** ** Authentication *)

Section Authentication.

Import tor.

(** C4, as the code has it.  Once PROTOCOLINFO has answered with [info],
    a configured password decides alone: the password method runs when
    HASHEDPASSWORD is advertised, and otherwise [authenticate] fails
    without trying another method.  Without a password the SAFECOOKIE
    handshake runs when SAFECOOKIE is advertised, else the NULL method when
    NULL is, else [authenticate] fails. *)
Theorem authenticate_selects (st st1 : State) (info : gmap string string) :
  Controller_protocolInfo st = (Done (inl info), st1) ->
  authenticate st =
    if negb (String.eqb (password (ctl st)) EmptyString) then
      if supportsAuthMethod info authHashedPassword
      then authenticateViaHashedPassword (versioned info st1)
      else (Done (Some (errorString
                          "HASHEDPASSWORD authentication method not supported")),
            versioned info st1)
    else if supportsAuthMethod info authSafeCookie
    then authenticateViaSafeCookie info (versioned info st1)
    else if supportsAuthMethod info authNull
    then authenticateViaNull (versioned info st1)
    else (Done (Some (errorString
                        ("the Tor server must be configured with " +:+
                         "NULL, SAFECOOKIE, or HASHEDPASSWORD authentication"))),
          versioned info st1).
Proof.
  intros H. pose proof (preserves_protocolInfo _ _ _ H) as (_ & _ & Hp & _).
  unfold authenticate. unfold mbind at 1, M_bind at 1. rewrite H.
  unfold mbind, M_bind, setCtl, getCtl. simpl. rewrite Hp.
  destruct (String.eqb (password (ctl st)) EmptyString); simpl.
  - destruct (supportsAuthMethod info authSafeCookie); [reflexivity|].
    destruct (supportsAuthMethod info authNull); reflexivity.
  - destruct (supportsAuthMethod info authHashedPassword); reflexivity.
Qed.

(** A password and a server that offers HASHEDPASSWORD: the password
    method runs. *)
Lemma authenticate_selects_witness :
  authenticate
    (scenario.connected "hunter2" EmptyString
       [scenario.protocolInfoReply "COOKIE,SAFECOOKIE,HASHEDPASSWORD";
        "250 OK" +:+ CRLF])
  = authenticateViaHashedPassword
      (versioned
         (parseTorReply
            (scenario.protocolInfoReply "COOKIE,SAFECOOKIE,HASHEDPASSWORD"))
         (snd (Controller_protocolInfo
                 (scenario.connected "hunter2" EmptyString
                    [scenario.protocolInfoReply
                       "COOKIE,SAFECOOKIE,HASHEDPASSWORD";
                     "250 OK" +:+ CRLF])))).
Proof.
  rewrite (authenticate_selects
             (scenario.connected "hunter2" EmptyString
                [scenario.protocolInfoReply "COOKIE,SAFECOOKIE,HASHEDPASSWORD";
                 "250 OK" +:+ CRLF])
             (snd (Controller_protocolInfo
                     (scenario.connected "hunter2" EmptyString
                        [scenario.protocolInfoReply
                           "COOKIE,SAFECOOKIE,HASHEDPASSWORD";
                         "250 OK" +:+ CRLF])))
             (parseTorReply
                (scenario.protocolInfoReply "COOKIE,SAFECOOKIE,HASHEDPASSWORD"))).
  - vm_compute. reflexivity.
  - vm_compute. reflexivity.
Defined.

(** C4 as stated fails on the code: a password is configured, the server
    offers SAFECOOKIE and not HASHEDPASSWORD, and everything the SAFECOOKIE
    handshake needs is there (it succeeds when run by itself).
    [authenticate] returns an error, having sent PROTOCOLINFO and nothing
    else. *)
Lemma authenticate_password_counterexample :
  let st := scenario.connected "hunter2" EmptyString
              [scenario.protocolInfoReply "COOKIE,SAFECOOKIE";
               scenario.challengeReply; "250 OK" +:+ CRLF] in
  let st1 := snd (Controller_protocolInfo st) in
  password (ctl st) = "hunter2"
  /\ Controller_protocolInfo st = (Done (inl scenario.safeCookieInfo), st1)
  /\ supportsAuthMethod scenario.safeCookieInfo authSafeCookie = true
  /\ supportsAuthMethod scenario.safeCookieInfo authHashedPassword = false
  /\ fst (authenticate st) =
     Done (Some (errorString
                   "HASHEDPASSWORD authentication method not supported"))
  /\ (cmds <$> conn (ctl (snd (authenticate st)))) = Some ["PROTOCOLINFO 1"]
  /\ fst (authenticateViaSafeCookie scenario.safeCookieInfo
            (versioned scenario.safeCookieInfo st1)) = Done None.
Proof. repeat split; vm_compute; reflexivity. Qed.

Lemma occurs_IndexByte (s : string) (b : ascii) (i : nat) :
  IndexByte s b = Some i -> occurs b s.
Proof.
  intros H. destruct (IndexByte_Some _ _ _ H) as (pre & post & -> & _).
  exists pre, post. reflexivity.
Qed.

Lemma hexDigit_lower (k : Z) :
  0 <= k < 16 -> occurs (Go.hexDigit k) "0123456789abcdef".
Proof.
  intros H.
  assert (C : k = 0 \/ k = 1 \/ k = 2 \/ k = 3 \/ k = 4 \/ k = 5 \/ k = 6 \/
              k = 7 \/ k = 8 \/ k = 9 \/ k = 10 \/ k = 11 \/ k = 12 \/
              k = 13 \/ k = 14 \/ k = 15) by lia.
  repeat (destruct C as [->|C]; [eapply occurs_IndexByte; vm_compute; reflexivity|]).
  subst k. eapply occurs_IndexByte; vm_compute; reflexivity.
Qed.

Lemma N_of_ascii_bound (c : ascii) : (N_of_ascii c < 256)%N.
Proof. destruct c as [[] [] [] [] [] [] [] []]; vm_compute; reflexivity. Qed.

Lemma EncodeToString_lowerHex (b : string) : lowerHex (Go.EncodeToString b).
Proof.
  induction b as [|c b IH]; intros x Hx; simpl in Hx.
  - destruct (occurs_empty _ Hx).
  - pose proof (N_of_ascii_bound c) as Hb.
    rewrite !occurs_cons in Hx. destruct Hx as [<-|[<-|Hx]].
    + apply hexDigit_lower. split.
      * apply Z.div_pos; lia.
      * apply Z.div_lt_upper_bound; lia.
    + apply hexDigit_lower. apply Z.mod_pos_bound. lia.
    + exact (IH x Hx).
Qed.

Lemma getAuthCookie_ok (info : gmap string string) (st st0 : State) (cookie : string) :
  getAuthCookie info st = (Done (inl cookie), st0) ->
  st0 = st /\ exists path,
    info !! "COOKIEFILE" = Some path /\
    files (world st) !! Go.Trim path quote = Some cookie /\
    String.length cookie = 32%nat.
Proof.
  unfold getAuthCookie. destruct (info !! "COOKIEFILE") as [path|]; [|discriminate].
  unfold mbind, M_bind, ReadFile, mret, M_ret.
  destruct (files (world st) !! Go.Trim path quote) as [content|] eqn:EF;
    [|discriminate].
  destruct (String.length content =? cookieLen)%nat eqn:EL; simpl; [|discriminate].
  intros [= <- <-]. split; [reflexivity|]. exists path.
  apply Nat.eqb_eq in EL. auto.
Qed.

(** C2.  A cookie file whose content is not 32 bytes long makes the
    handshake fail before anything is sent.  When the handshake succeeds,
    the cookie had 32 bytes, the reply to AUTHCHALLENGE carried a
    SERVERHASH and a SERVERNONCE that decode to 32 bytes each, the decoded
    hash was the HMAC-SHA256 under the server-to-controller key of cookie,
    client nonce and server nonce, and the command sent last was
    AUTHENTICATE followed by the hex form of the HMAC-SHA256 of the same
    message under the controller-to-server key; so the handshake fails
    whenever one of these does not hold.  The hex form is lower case. *)
Theorem safeCookie_handshake (info : gmap string string) (st : State) :
  (forall path content,
      info !! "COOKIEFILE" = Some path ->
      files (world st) !! Go.Trim path quote = Some content ->
      String.length content <> 32%nat ->
      exists e, authenticateViaSafeCookie info st = (Done (Some e), st))
  /\ (forall st',
      authenticateViaSafeCookie info st = (Done None, st') ->
      exists path cookie clientNonce st1 code reply st2
             serverHash serverNonce decodedServerHash decodedServerNonce
             code' reply',
        info !! "COOKIEFILE" = Some path
        /\ files (world st) !! Go.Trim path quote = Some cookie
        /\ String.length cookie = 32%nat
        /\ randRead 32 st = (Done (inl clientNonce), st1)
        /\ sendCommand ("AUTHCHALLENGE SAFECOOKIE " +:+
                        Go.EncodeToString clientNonce) st1
           = (Done (code, reply, None), st2)
        /\ parseTorReply reply !! "SERVERHASH" = Some serverHash
        /\ Go.DecodeString serverHash = inl decodedServerHash
        /\ String.length decodedServerHash = 32%nat
        /\ parseTorReply reply !! "SERVERNONCE" = Some serverNonce
        /\ Go.DecodeString serverNonce = inl decodedServerNonce
        /\ String.length decodedServerNonce = 32%nat
        /\ decodedServerHash =
           Go.HMAC_SHA256
             "Tor safe cookie authentication server-to-controller hash"
             (cookie +:+ clientNonce +:+ decodedServerNonce)
        /\ sendCommand
             ("AUTHENTICATE " +:+
              Go.EncodeToString
                (Go.HMAC_SHA256
                   "Tor safe cookie authentication controller-to-server hash"
                   (cookie +:+ clientNonce +:+ decodedServerNonce))) st2
           = (Done (code', reply', None), st'))
  /\ (forall b, lowerHex (Go.EncodeToString b)).
Proof.
  split; [|split; [|exact EncodeToString_lowerHex]].
  - intros path content Hp Hf Hl.
    unfold authenticateViaSafeCookie, getAuthCookie, mbind, M_bind, ReadFile,
      mret, M_ret.
    rewrite Hp, Hf. apply Nat.eqb_neq in Hl. unfold cookieLen. rewrite Hl.
    cbn [negb]. eauto.
  - intros st' H. unfold authenticateViaSafeCookie in H.
    unfold mbind at 1, M_bind at 1 in H.
    destruct (getAuthCookie info st) as [[[cookie|e]|msg] st0] eqn:EG;
      try discriminate.
    destruct (getAuthCookie_ok _ _ _ _ EG) as (-> & path & Hp & Hf & Hl).
    unfold mbind at 1, M_bind at 1 in H.
    destruct (randRead nonceLen st) as [[[clientNonce|e]|msg] st1] eqn:ER;
      try discriminate.
    unfold mbind at 1, M_bind at 1 in H.
    destruct (sendCommand _ st1) as [[[[code reply] [e|]]|msg] st2] eqn:ES;
      try discriminate.
    destruct (parseTorReply reply !! "SERVERHASH") as [serverHash|] eqn:EH;
      try discriminate.
    destruct (Go.DecodeString serverHash) as [dsh|e] eqn:EDH; try discriminate.
    destruct (String.length dsh =? sha256_Size)%nat eqn:ELH; cbn [negb] in H;
      try discriminate.
    destruct (parseTorReply reply !! "SERVERNONCE") as [serverNonce|] eqn:EN;
      try discriminate.
    destruct (Go.DecodeString serverNonce) as [dsn|e] eqn:EDN; try discriminate.
    destruct (String.length dsn =? nonceLen)%nat eqn:ELN; cbn [negb] in H;
      try discriminate.
    destruct (String.eqb (computeHMAC256 serverKey (cookie +:+ clientNonce +:+ dsn))
                dsh) eqn:EQ; cbn [negb] in H; try discriminate.
    destruct (String.length (computeHMAC256 controllerKey
                (cookie +:+ clientNonce +:+ dsn)) =? sha256_Size)%nat eqn:ELC;
      cbn [negb] in H; try discriminate.
    unfold mbind at 1, M_bind at 1 in H.
    destruct (sendCommand _ st2) as [[[[code' reply'] [e|]]|msg] st3] eqn:ES2;
      try discriminate.
    injection H as <-.
    apply Nat.eqb_eq in ELH, ELN. apply String.eqb_eq in EQ.
    exists path, cookie, clientNonce, st1, code, reply, st2,
      serverHash, serverNonce, dsh, dsn, code', reply'.
    repeat split; try assumption.
    symmetry. exact EQ.
Qed.

(** Scenario 3 of the spec, and a cookie file of 31 bytes. *)
Lemma safeCookie_handshake_witness :
  (exists e,
      authenticateViaSafeCookie scenario.safeCookieInfo
        (mkState (ctl (scenario.connected EmptyString EmptyString []))
                 (mkWorld [] (<[scenario.cookiePath := scenario.rep 31 zero]> ∅)
                          scenario.clientNonce))
      = (Done (Some e),
         mkState (ctl (scenario.connected EmptyString EmptyString []))
                 (mkWorld [] (<[scenario.cookiePath := scenario.rep 31 zero]> ∅)
                          scenario.clientNonce)))
  /\ (exists st' st2 code reply,
        authenticateViaSafeCookie scenario.safeCookieInfo
          (scenario.connected EmptyString EmptyString
             [scenario.challengeReply; "250 OK" +:+ CRLF])
        = (Done None, st')
        /\ sendCommand
             ("AUTHENTICATE " +:+
              "bb5aee37b2a6b2d6788bee767cff35f9532493a56f753698662387494dcb5c9c")
             st2
           = (Done (code, reply, None), st')
        /\ (cmds <$> conn (ctl st')) =
           Some [ "AUTHCHALLENGE SAFECOOKIE " +:+
                  "aaaaaaaaaaaaaaaaaaaaaaaaaaaaaaaaaaaaaaaaaaaaaaaaaaaaaaaaaaaaaaaa";
                  "AUTHENTICATE " +:+
                  "bb5aee37b2a6b2d6788bee767cff35f9532493a56f753698662387494dcb5c9c" ]).
Proof.
  split.
  - apply (proj1 (safeCookie_handshake _ _)
             scenario.cookiePath
             (scenario.rep 31 zero)).
    + vm_compute. reflexivity.
    + vm_compute. reflexivity.
    + vm_compute. discriminate.
  - destruct (proj1 (proj2 (safeCookie_handshake scenario.safeCookieInfo
                (scenario.connected EmptyString EmptyString
                   [scenario.challengeReply; "250 OK" +:+ CRLF])))
               (snd (authenticateViaSafeCookie scenario.safeCookieInfo
                       (scenario.connected EmptyString EmptyString
                          [scenario.challengeReply; "250 OK" +:+ CRLF]))))
      as (path & ck & cn & st1 & code & reply & st2 & sh & sn & dsh & dsn
          & code' & reply' & Hp & Hf & Hl & Hr & Hs1 & Hh & Hdh & Hlh & Hn
          & Hdn & Hln & Hmac & Hs2).
    { vm_compute. reflexivity. }
    exists (snd (authenticateViaSafeCookie scenario.safeCookieInfo
                   (scenario.connected EmptyString EmptyString
                      [scenario.challengeReply; "250 OK" +:+ CRLF]))),
      st2, code', reply'.
    split; [vm_compute; reflexivity|]. split; [|vm_compute; reflexivity].
    assert (Hck : ck = scenario.cookie).
    { assert (Hp' : scenario.safeCookieInfo !! "COOKIEFILE"
                    = Some scenario.cookiePath)
        by (vm_compute; reflexivity).
      rewrite Hp' in Hp. injection Hp as <-.
      assert (Hf' : files (world (scenario.connected EmptyString EmptyString
                       [scenario.challengeReply; "250 OK" +:+ CRLF]))
                    !! Go.Trim scenario.cookiePath
                         quote = Some scenario.cookie)
        by (vm_compute; reflexivity).
      rewrite Hf' in Hf. injection Hf as <-. reflexivity. }
    assert (Hcn : cn = scenario.clientNonce /\
                  st1 = snd (randRead 32
                    (scenario.connected EmptyString EmptyString
                       [scenario.challengeReply; "250 OK" +:+ CRLF]))).
    { assert (Hr' : randRead 32 (scenario.connected EmptyString EmptyString
                       [scenario.challengeReply; "250 OK" +:+ CRLF])
                    = (Done (inl scenario.clientNonce),
                       snd (randRead 32
                         (scenario.connected EmptyString EmptyString
                            [scenario.challengeReply; "250 OK" +:+ CRLF]))))
        by (vm_compute; reflexivity).
      rewrite Hr' in Hr. injection Hr as <- <-. auto. }
    destruct Hcn as [-> ->]. subst ck.
    assert (Hs1' : sendCommand
                     ("AUTHCHALLENGE SAFECOOKIE " +:+
                      Go.EncodeToString scenario.clientNonce)
                     (snd (randRead 32
                        (scenario.connected EmptyString EmptyString
                           [scenario.challengeReply; "250 OK" +:+ CRLF])))
                   = (Done (250,
                            "AUTHCHALLENGE SERVERHASH=" +:+
                            "c0efaea62b86e0f81ffdb345896b09b6c9d21b40ef2c401c00fd42798f9dbedf"
                            +:+ " SERVERNONCE=" +:+
                            "bbbbbbbbbbbbbbbbbbbbbbbbbbbbbbbbbbbbbbbbbbbbbbbbbbbbbbbbbbbbbbbb",
                            None),
                      snd (sendCommand
                             ("AUTHCHALLENGE SAFECOOKIE " +:+
                              Go.EncodeToString scenario.clientNonce)
                             (snd (randRead 32
                                (scenario.connected EmptyString EmptyString
                                   [scenario.challengeReply;
                                    "250 OK" +:+ CRLF]))))))
      by (vm_compute; reflexivity).
    rewrite Hs1' in Hs1. injection Hs1 as <- <- <-.
    assert (Hn' : parseTorReply
                    ("AUTHCHALLENGE SERVERHASH=" +:+
                     "c0efaea62b86e0f81ffdb345896b09b6c9d21b40ef2c401c00fd42798f9dbedf"
                     +:+ " SERVERNONCE=" +:+
                     "bbbbbbbbbbbbbbbbbbbbbbbbbbbbbbbbbbbbbbbbbbbbbbbbbbbbbbbbbbbbbbbb")
                  !! "SERVERNONCE"
                  = Some "bbbbbbbbbbbbbbbbbbbbbbbbbbbbbbbbbbbbbbbbbbbbbbbbbbbbbbbbbbbbbbbb")
      by (vm_compute; reflexivity).
    rewrite Hn' in Hn. injection Hn as <-.
    assert (Hdn' : Go.DecodeString
                     "bbbbbbbbbbbbbbbbbbbbbbbbbbbbbbbbbbbbbbbbbbbbbbbbbbbbbbbbbbbbbbbb"
                   = inl scenario.serverNonce) by (vm_compute; reflexivity).
    rewrite Hdn' in Hdn. injection Hdn as <-.
    assert (Hx : Go.EncodeToString
                   (Go.HMAC_SHA256
                      "Tor safe cookie authentication controller-to-server hash"
                      (scenario.cookie +:+ scenario.clientNonce +:+
                       scenario.serverNonce))
                 = "bb5aee37b2a6b2d6788bee767cff35f9532493a56f753698662387494dcb5c9c")
      by (vm_compute; reflexivity).
    rewrite Hx in Hs2. exact Hs2.
Defined.

End Authentication.

(** ** The peer-wire codec *)

Import lnwire.

Section Bytes.

Lemma valOf_range (b : ascii) : 0 <= valOf b < 256.
Proof.
  unfold valOf. pose proof (N_of_ascii_bound b). lia.
Qed.

Lemma valOf_byteOf (v : Z) : valOf (byteOf v) = v mod 256.
Proof.
  unfold valOf, byteOf.
  pose proof (Z.mod_pos_bound v 256 ltac:(lia)) as H.
  rewrite N_ascii_embedding by lia. lia.
Qed.

Lemma byteOf_valOf (b : ascii) : byteOf (valOf b) = b.
Proof.
  unfold byteOf, valOf. pose proof (N_of_ascii_bound b).
  rewrite Z.mod_small by lia. rewrite N2Z.id. apply ascii_N_embedding.
Qed.

Lemma length_encodeUint (n : nat) (v : Z) : length (encodeUint n v) = n.
Proof. induction n as [|n IH]; simpl; [reflexivity | rewrite IH; reflexivity]. Qed.

Lemma fold_encodeUint (n : nat) (v acc : Z) :
  fold_left (fun a b => a * 256 + valOf b) (encodeUint n v) acc
  = acc * 256 ^ Z.of_nat n + v mod 256 ^ Z.of_nat n.
Proof.
  revert acc. induction n as [|n IH]; intros acc.
  - simpl. rewrite Z.mod_1_r. lia.
  - cbn [encodeUint fold_left]. rewrite IH, valOf_byteOf.
    rewrite Nat2Z.inj_succ, Z.pow_succ_r by lia.
    assert (Hp : 0 < 256 ^ Z.of_nat n) by (apply Z.pow_pos_nonneg; lia).
    rewrite (Z.mul_comm 256 (256 ^ Z.of_nat n)).
    rewrite (Z.rem_mul_r v (256 ^ Z.of_nat n) 256) by lia. lia.
Qed.

Lemma decodeUint_encodeUint (n : nat) (v : Z) :
  decodeUint (encodeUint n v) = v mod 256 ^ Z.of_nat n.
Proof. unfold decodeUint. rewrite fold_encodeUint. lia. Qed.

Lemma readN_app (e : Err) (pre rest : list ascii) :
  readN (length pre) e (pre ++ rest) = inl (pre, rest).
Proof.
  unfold readN. rewrite length_app.
  destruct (Nat.ltb_spec (length pre + length rest) (length pre)); [lia|].
  rewrite firstn_app, Nat.sub_diag, firstn_all, skipn_app, Nat.sub_diag, skipn_all.
  rewrite firstn_O, skipn_O, app_nil_r, app_nil_l. reflexivity.
Qed.

Lemma readUint_encodeUint (n : nat) (v : Z) (rest : list ascii) :
  0 <= v < 256 ^ Z.of_nat n ->
  readUint n (encodeUint n v ++ rest) = inl (v, rest).
Proof.
  intros H. unfold readUint.
  rewrite <- (length_encodeUint n v) at 1. rewrite readN_app.
  rewrite decodeUint_encodeUint, Z.mod_small by exact H. reflexivity.
Qed.

End Bytes.

Section Addresses.

Lemma decodeAddrs_skip (pre block : list ascii) :
  decodeAddrs (length pre) (pre ++ block) = decodeAddrs 0 block.
Proof.
  induction pre as [|b pre IH]; [reflexivity|]. simpl. exact IH.
Qed.

Lemma decodeAddrs_payload (d : Z) (size : nat) (payload block : list ascii) :
  payloadSize d = Some size -> length payload = size -> 0 <= d < 256 ->
  decodeAddrs 0 (byteOf d :: payload ++ block) =
    match decodeAddrs 0 block with
    | inl more => inl (mkAddr d payload :: more)
    | inr e => inr e
    end.
Proof.
  intros Hs Hl Hd. cbn [decodeAddrs].
  rewrite valOf_byteOf, Z.mod_small, Hs by exact Hd.
  rewrite length_app.
  destruct (Nat.ltb_spec (length payload + length block) size); [lia|].
  rewrite <- Hl, decodeAddrs_skip, firstn_app, Nat.sub_diag, firstn_all.
  simpl. rewrite app_nil_r. reflexivity.
Qed.

Lemma mkAddr_payload (host : list ascii) (port : Z) :
  0 <= port < 65536 ->
  firstn (length (host ++ encodeUint 2 port) - 2) (host ++ encodeUint 2 port)
    = host
  /\ decodeUint (skipn (length (host ++ encodeUint 2 port) - 2)
                   (host ++ encodeUint 2 port)) = port.
Proof.
  intros Hp. rewrite length_app, length_encodeUint.
  replace (length host + 2 - 2)%nat with (length host) by lia.
  rewrite firstn_app, Nat.sub_diag, firstn_all, skipn_app, Nat.sub_diag, skipn_all.
  rewrite firstn_O, skipn_O, app_nil_r, app_nil_l. split; [reflexivity|].
  rewrite decodeUint_encodeUint. apply Z.mod_small.
  change (256 ^ Z.of_nat 2) with 65536. exact Hp.
Qed.

Lemma decodeAddrs_known (a : Addr) (block : list ascii) :
  knownAddr a ->
  decodeAddrs 0 (encodeAddr a ++ block) =
    match decodeAddrs 0 block with
    | inl more => inl (a :: more)
    | inr e => inr e
    end.
Proof.
  intros H.
  destruct a as [ip port|ip port|id port|id port|payload]; simpl in H;
    [| | | |contradiction]; destruct H as [Hl Hp];
    cbn [encodeAddr]; rewrite <- app_comm_cons.
  - rewrite (decodeAddrs_payload 1 6 (ip ++ encodeUint 2 port) block eq_refl);
      [|rewrite length_app, length_encodeUint, Hl; reflexivity | lia].
    unfold mkAddr. destruct (mkAddr_payload ip port Hp) as [-> ->]. reflexivity.
  - rewrite (decodeAddrs_payload 2 18 (ip ++ encodeUint 2 port) block eq_refl);
      [|rewrite length_app, length_encodeUint, Hl; reflexivity | lia].
    unfold mkAddr. destruct (mkAddr_payload ip port Hp) as [-> ->]. reflexivity.
  - rewrite (decodeAddrs_payload 3 12 (id ++ encodeUint 2 port) block eq_refl);
      [|rewrite length_app, length_encodeUint, Hl; reflexivity | lia].
    unfold mkAddr. destruct (mkAddr_payload id port Hp) as [-> ->]. reflexivity.
  - rewrite (decodeAddrs_payload 4 37 (id ++ encodeUint 2 port) block eq_refl);
      [|rewrite length_app, length_encodeUint, Hl; reflexivity | lia].
    unfold mkAddr. destruct (mkAddr_payload id port Hp) as [-> ->]. reflexivity.
Qed.

(** An unknown discriminator takes the rest of the block with it. *)
Lemma decodeAddrs_unknown (known : list Addr) (d : ascii) (rest : list ascii) :
  Forall knownAddr known -> unknownType d ->
  decodeAddrs 0 (encodeAddrs known ++ d :: rest)
  = inl (known ++ [Opaque (d :: rest)]).
Proof.
  intros Hk (H1 & H2 & H3 & H4).
  induction Hk as [|a known Ha Hk IH].
  - cbn [encodeAddrs fmap list_fmap concat app decodeAddrs].
    unfold payloadSize.
    apply Z.eqb_neq in H1, H2, H3, H4. rewrite H1, H2, H3, H4. reflexivity.
  - unfold encodeAddrs in *. cbn [fmap list_fmap concat].
    rewrite <- app_assoc, decodeAddrs_known, IH by exact Ha. reflexivity.
Qed.

Lemma decodeAddrs_all_known (known : list Addr) :
  Forall knownAddr known -> decodeAddrs 0 (encodeAddrs known) = inl known.
Proof.
  intros Hk. induction Hk as [|a known Ha Hk IH]; [reflexivity|].
  unfold encodeAddrs in *. cbn [fmap list_fmap concat].
  rewrite decodeAddrs_known, IH by exact Ha. reflexivity.
Qed.

Lemma ReadNetAddrs_block (addrs decoded : list Addr) (tail : list ascii) :
  Z.of_nat (length (encodeAddrs addrs)) < 65536 ->
  decodeAddrs 0 (encodeAddrs addrs) = inl decoded ->
  ReadNetAddrs (WriteNetAddrs addrs ++ tail) = inl (decoded, tail).
Proof.
  intros Hl Hd. unfold ReadNetAddrs, WriteNetAddrs.
  rewrite <- !app_assoc, readUint_encodeUint
    by (change (256 ^ Z.of_nat 2) with 65536; lia).
  rewrite Nat2Z.id, readN_app, Hd. reflexivity.
Qed.

Lemma fromHexChar_hexDigit (k : Z) :
  0 <= k < 16 -> Go.fromHexChar (Go.hexDigit k) = Some k.
Proof.
  intros H. unfold Go.fromHexChar, Go.hexDigit.
  destruct (Z.ltb_spec k 10).
  - rewrite N_ascii_embedding, Z2N.id by lia.
    destruct (Z.leb_spec 48 (48 + k)); [|lia].
    destruct (Z.leb_spec (48 + k) 57); [|lia].
    cbn [andb]. f_equal. lia.
  - rewrite N_ascii_embedding, Z2N.id by lia.
    destruct (Z.leb_spec 48 (87 + k)); [|lia].
    destruct (Z.leb_spec (87 + k) 57); [lia|].
    destruct (Z.leb_spec 97 (87 + k)); [|lia].
    destruct (Z.leb_spec (87 + k) 102); [|lia].
    cbn [andb]. f_equal. lia.
Qed.

(** Decoding the hex of a byte string gives the byte string. *)
Lemma DecodeString_EncodeToString (b : string) :
  Go.DecodeString (Go.EncodeToString b) = inl b.
Proof.
  induction b as [|c b IH]; [reflexivity|].
  pose proof (N_of_ascii_bound c) as Hc.
  cbn [Go.EncodeToString Go.DecodeString].
  rewrite !fromHexChar_hexDigit.
  - rewrite IH. rewrite <- Z.div_mod by lia.
    rewrite N2Z.id, ascii_N_embedding. reflexivity.
  - apply Z.mod_pos_bound. lia.
  - split; [apply Z.div_pos; lia | apply Z.div_lt_upper_bound; lia].
Qed.

Lemma encodeAddrs_snoc (known : list Addr) (payload : list ascii) :
  encodeAddrs (known ++ [Opaque payload]) = encodeAddrs known ++ payload.
Proof.
  unfold encodeAddrs. rewrite fmap_app, concat_app. simpl.
  rewrite app_nil_r. reflexivity.
Qed.

(** C7: at an address type other than 1, 2, 3 and 4 the reader of the
    address list gives the discriminator and all that is left of the block
    to one opaque address, after the known addresses before it; the writer
    emits that payload as it is, so that the list reads back as written;
    and the string form of the opaque address is the lower-case hex of its
    bytes. *)
Theorem unknown_address_type (known : list Addr) (d : ascii)
        (rest tail : list ascii) :
  Forall knownAddr known ->
  unknownType d ->
  decodeAddrs 0 (encodeAddrs known ++ d :: rest)
    = inl (known ++ [Opaque (d :: rest)])
  /\ WriteNetAddrs (known ++ [Opaque (d :: rest)])
     = encodeUint 2 (Z.of_nat (length (encodeAddrs known ++ d :: rest)))
         ++ encodeAddrs known ++ d :: rest
  /\ (Z.of_nat (length (encodeAddrs known ++ d :: rest)) < 65536 ->
      ReadNetAddrs (WriteNetAddrs (known ++ [Opaque (d :: rest)]) ++ tail)
      = inl (known ++ [Opaque (d :: rest)], tail))
  /\ lowerHex (OpaqueAddrs_String (d :: rest))
  /\ Go.DecodeString (OpaqueAddrs_String (d :: rest))
     = inl (string_of_list_ascii (d :: rest)).
Proof.
  intros Hk Hd.
  pose proof (decodeAddrs_unknown known d rest Hk Hd) as Hr.
  split; [exact Hr|]. split.
  { unfold WriteNetAddrs. rewrite encodeAddrs_snoc. reflexivity. }
  split.
  { intros Hl. apply ReadNetAddrs_block; rewrite encodeAddrs_snoc; assumption. }
  split.
  - apply EncodeToString_lowerHex.
  - apply DecodeString_EncodeToString.
Qed.

(** Scenario 7 of the spec. *)
Lemma unknown_address_type_witness :
  ReadNetAddrs
    (WriteNetAddrs [scenario.clearnet; scenario.onion;
                    Opaque (scenario.bytes [255; 1; 2])])
  = inl ([scenario.clearnet; scenario.onion;
          Opaque (scenario.bytes [255; 1; 2])], [])
  /\ OpaqueAddrs_String (scenario.bytes [255; 1; 2]) = "ff0102"%string.
Proof.
  assert (Hk : Forall knownAddr [scenario.clearnet; scenario.onion]).
  { constructor; [split; [reflexivity | lia]|].
    constructor; [split; [reflexivity | lia] | constructor]. }
  assert (Hd : unknownType (byteOf 255)).
  { unfold unknownType. vm_compute. repeat split; discriminate. }
  destruct (unknown_address_type [scenario.clearnet; scenario.onion]
              (byteOf 255) (scenario.bytes [1; 2]) [] Hk Hd)
    as (_ & _ & Hr & _ & _).
  split.
  - rewrite app_nil_r in Hr. apply Hr. vm_compute. reflexivity.
  - vm_compute. reflexivity.
Defined.

End Addresses.

Section TLV.

Lemma readCanonical_encodeUint (n : nat) (least v : Z) (rest : list ascii) :
  0 <= v -> least <= v < 256 ^ Z.of_nat n ->
  readCanonical n least (encodeUint n v ++ rest) = inl (v, rest).
Proof.
  intros H0 H. unfold readCanonical.
  rewrite readUint_encodeUint by lia.
  destruct (Z.ltb_spec v least); [lia | reflexivity].
Qed.

Lemma readBigSize_marker (t : Z) (bs : list ascii) :
  253 <= t < 256 ->
  readBigSize (byteOf t :: bs) =
    if t =? 253 then readCanonical 2 253 bs
    else if t =? 254 then readCanonical 4 65536 bs
    else readCanonical 8 4294967296 bs.
Proof.
  intros H. cbn [readBigSize]. rewrite valOf_byteOf, Z.mod_small by lia.
  destruct (Z.ltb_spec t 253); [lia | reflexivity].
Qed.

Lemma readBigSize_encodeBigSize (v : Z) (rest : list ascii) :
  0 <= v < 2 ^ 64 ->
  readBigSize (encodeBigSize v ++ rest) = inl (v, rest).
Proof.
  intros H. unfold encodeBigSize.
  destruct (Z.ltb_spec v 253).
  - cbn [app readBigSize]. rewrite valOf_byteOf, Z.mod_small by lia.
    destruct (Z.ltb_spec v 253); [reflexivity | lia].
  - destruct (Z.ltb_spec v 65536); [|destruct (Z.ltb_spec v 4294967296)];
      rewrite <- app_comm_cons, readBigSize_marker by lia.
    + apply readCanonical_encodeUint; [lia|].
      change (256 ^ Z.of_nat 2) with 65536. lia.
    + apply readCanonical_encodeUint; [lia|].
      change (256 ^ Z.of_nat 4) with 4294967296. lia.
    + apply readCanonical_encodeUint; [lia|].
      change (256 ^ Z.of_nat 8) with (2 ^ 64). lia.
Qed.

Lemma encodeBigSize_nonempty (v : Z) : encodeBigSize v <> [].
Proof.
  unfold encodeBigSize.
  repeat match goal with |- context [if ?c then _ else _] => destruct c end;
    discriminate.
Qed.

Lemma decodeLoop_step (fuel : nat) (prev : Z) (bs : list ascii) :
  bs <> [] ->
  decodeLoop (S fuel) prev bs =
    match readBigSize bs with
    | inr e => Some (inr e)
    | inl (type, bs1) =>
        if type <=? prev then Some (inr MalformedTLV)
        else
          match readBigSize bs1 with
          | inr e => Some (inr e)
          | inl (len, bs2) =>
              match readN (Z.to_nat len) TruncatedField bs2 with
              | inr e => Some (inr e)
              | inl (value, bs3) =>
                  match decodeLoop fuel type bs3 with
                  | Some (inl more) => Some (inl ((type, value) :: more))
                  | other => other
                  end
              end
          end
    end.
Proof. destruct bs; [contradiction | reflexivity]. Qed.

Lemma decodeLoop_records (records : list (Z * list ascii)) :
  forall fuel prev,
    Forall recordOK records ->
    ascending prev records = true ->
    (length records <= fuel)%nat ->
    decodeLoop fuel prev (encodeStream records) = Some (inl records).
Proof.
  induction records as [|[type value] more IH]; intros fuel prev Hok Ha Hf.
  - destruct fuel; reflexivity.
  - inversion Hok as [|? ? [Ht Hv] Hok']; subst. simpl in Ht, Hv.
    cbn [ascending fst] in Ha. apply andb_true_iff in Ha as [Hp Ha].
    apply Z.ltb_lt in Hp.
    destruct fuel as [|fuel]; [simpl in Hf; lia|].
    unfold encodeStream. cbn [fmap list_fmap concat]. unfold encodeRecord.
    cbn [fst snd]. rewrite <- !app_assoc.
    rewrite decodeLoop_step.
    2: { destruct (encodeBigSize type) eqn:E'; [|discriminate].
         destruct (encodeBigSize_nonempty _ E'). }
    rewrite readBigSize_encodeBigSize by exact Ht.
    destruct (Z.leb_spec type prev); [lia|].
    rewrite readBigSize_encodeBigSize by lia.
    rewrite Nat2Z.id, readN_app.
    change (concat (encodeRecord <$> more)) with (encodeStream more).
    rewrite IH; [reflexivity | exact Hok' | exact Ha | simpl in Hf; lia].
Qed.

Lemma readUint_shorter (n : nat) (bs rest : list ascii) (v : Z) :
  readUint n bs = inl (v, rest) -> (length rest <= length bs)%nat.
Proof.
  unfold readUint, readN.
  destruct (length bs <? n)%nat; [discriminate|].
  intros [= _ <-]. rewrite length_skipn. lia.
Qed.

Lemma readBigSize_shorter (bs rest : list ascii) (v : Z) :
  readBigSize bs = inl (v, rest) -> (length rest < length bs)%nat.
Proof.
  destruct bs as [|b bs]; [discriminate|]. cbn [readBigSize].
  unfold readCanonical.
  repeat match goal with |- context [if ?c then _ else _] => destruct c end;
    try (intros [= _ <-]; simpl; lia);
    destruct (readUint _ bs) as [[v' r']|e] eqn:E; try discriminate;
    destruct (v' <? _); try discriminate;
    intros [= _ <-]; apply readUint_shorter in E; simpl; lia.
Qed.

(** The reader of the stream never runs out of fuel. *)
Lemma decodeLoop_total (fuel : nat) :
  forall prev bs, (length bs <= fuel)%nat -> decodeLoop fuel prev bs <> None.
Proof.
  induction fuel as [|fuel IH]; intros prev bs Hf.
  - destruct bs; [discriminate | simpl in Hf; lia].
  - destruct bs as [|b bs]; [discriminate|]. cbn [decodeLoop].
    destruct (readBigSize (b :: bs)) as [[type bs1]|e] eqn:E1; [|discriminate].
    apply readBigSize_shorter in E1.
    destruct (type <=? prev); [discriminate|].
    destruct (readBigSize bs1) as [[len bs2]|e] eqn:E2; [|discriminate].
    apply readBigSize_shorter in E2.
    unfold readN. destruct (length bs2 <? Z.to_nat len)%nat; [discriminate|].
    specialize (IH type (skipn (Z.to_nat len) bs2)).
    destruct (decodeLoop fuel type (skipn (Z.to_nat len) bs2)) as [[more|e]|];
      try discriminate.
    exfalso. apply IH; [|reflexivity]. rewrite length_skipn. simpl in *. lia.
Qed.

Lemma decodeLoop_fuel (fuel1 fuel2 : nat) :
  forall prev bs r,
    decodeLoop fuel1 prev bs = Some r -> (fuel1 <= fuel2)%nat ->
    decodeLoop fuel2 prev bs = Some r.
Proof.
  revert fuel2. induction fuel1 as [|fuel1 IH]; intros fuel2 prev bs r H Hf.
  - destruct bs; [|discriminate]. destruct fuel2; exact H.
  - destruct fuel2 as [|fuel2]; [lia|].
    destruct bs as [|b bs]; [exact H|]. cbn [decodeLoop] in *.
    destruct (readBigSize (b :: bs)) as [[type bs1]|e]; [|exact H].
    destruct (type <=? prev); [exact H|].
    destruct (readBigSize bs1) as [[len bs2]|e]; [|exact H].
    destruct (readN (Z.to_nat len) TruncatedField bs2) as [[value bs3]|e];
      [|exact H].
    destruct (decodeLoop fuel1 type bs3) as [r1|] eqn:E; [|discriminate].
    rewrite (IH fuel2 type bs3 r1 E) by lia. exact H.
Qed.

Lemma length_encodeRecord_pos (r : Z * list ascii) :
  (1 <= length (encodeRecord r))%nat.
Proof.
  unfold encodeRecord. rewrite length_app.
  destruct (encodeBigSize (fst r)) eqn:E; [destruct (encodeBigSize_nonempty _ E)|].
  simpl. lia.
Qed.

Lemma length_encodeStream (records : list (Z * list ascii)) :
  (length records <= length (encodeStream records))%nat.
Proof.
  induction records as [|r more IH]; [simpl; lia|].
  unfold encodeStream in *. cbn [fmap list_fmap concat]. rewrite length_app.
  pose proof (length_encodeRecord_pos r). simpl. lia.
Qed.

Lemma decodeStream_encodeStream (records : list (Z * list ascii)) :
  Forall recordOK records ->
  ascending (-1) records = true ->
  decodeStream (encodeStream records) = inl records.
Proof.
  intros Hok Ha. unfold decodeStream.
  rewrite (decodeLoop_records records _ _ Hok Ha (length_encodeStream records)).
  reflexivity.
Qed.

End TLV.

Section Values.

Lemma bits_ind8 (P : list bool -> Prop) :
  P [] ->
  (forall l, (0 < length l < 8)%nat -> P l) ->
  (forall b0 b1 b2 b3 b4 b5 b6 b7 rest,
      P rest -> P (b0 :: b1 :: b2 :: b3 :: b4 :: b5 :: b6 :: b7 :: rest)) ->
  forall l, P l.
Proof.
  intros H0 Hs H8 l.
  induction l as [l IH] using (induction_ltof1 _ (@length bool)).
  unfold ltof in IH.
  destruct l as [|b0 [|b1 [|b2 [|b3 [|b4 [|b5 [|b6 [|b7 rest]]]]]]]];
    try exact H0; try (apply Hs; simpl; lia).
  apply H8. apply IH. simpl. lia.
Qed.

Lemma packBits_spec (bits : list bool) :
  firstn (length bits) (unpackBits (packBits bits)) = bits
  /\ length (packBits bits)
     = Z.to_nat ((Z.of_nat (length bits) + 7) / 8).
Proof.
  induction bits as [|l Hl|b0 b1 b2 b3 b4 b5 b6 b7 rest [IH1 IH2]] using bits_ind8.
  - split; reflexivity.
  - destruct l as [|b0 [|b1 [|b2 [|b3 [|b4 [|b5 [|b6 [|b7 rest]]]]]]]];
      simpl in Hl; try lia; split; reflexivity.
  - split.
    + cbn [packBits unpackBits fmap list_fmap concat byteOfBits bitsOfByte nth
           length firstn app].
      unfold unpackBits in IH1. rewrite IH1. reflexivity.
    + cbn [packBits length]. rewrite IH2.
      rewrite !Nat2Z.inj_succ.
      replace (Z.succ (Z.succ (Z.succ (Z.succ (Z.succ (Z.succ (Z.succ (Z.succ
                 (Z.of_nat (length rest))))))))) + 7)
        with (Z.of_nat (length rest) + 7 + 1 * 8) by lia.
      rewrite Z.div_add by lia.
      rewrite Z2Nat.inj_add; [simpl; lia | | lia].
      apply Z.div_pos; lia.
Qed.

Lemma ReadNetAddrs_ok (addrs : list Addr) (rest : list ascii) :
  Z.of_nat (length (encodeAddrs addrs)) < 65536 -> addrsOK addrs ->
  ReadNetAddrs (WriteNetAddrs addrs ++ rest) = inl (addrs, rest).
Proof.
  intros Hl (known & Hk & [->|(d & r & Hd & ->)]).
  - apply ReadNetAddrs_block; [exact Hl|]. apply decodeAddrs_all_known. exact Hk.
  - apply ReadNetAddrs_block; [exact Hl|].
    replace (encodeAddrs (known ++ [Opaque (d :: r)]))
      with (encodeAddrs known ++ d :: r).
    + apply decodeAddrs_unknown; assumption.
    + unfold encodeAddrs. rewrite fmap_app, concat_app. simpl.
      rewrite app_nil_r. reflexivity.
Qed.

Lemma decodeValue_encodeValue (v : Value) (e rest : list ascii) :
  wfValue v -> encodeValue v = inl e ->
  decodeValue (kindOf v) (e ++ rest) = inl (v, rest).
Proof.
  destruct v as [width x|b|b|bits|hash index|addrs];
    cbn [wfValue encodeValue kindOf decodeValue]; intros H He.
  - assert (E : e = encodeUint width x) by congruence. subst e.
    rewrite readUint_encodeUint by exact H. reflexivity.
  - assert (E : e = b) by congruence. subst e.
    rewrite readN_app. reflexivity.
  - assert (E : e = encodeUint 2 (Z.of_nat (length b)) ++ b) by congruence.
    subst e. rewrite <- app_assoc.
    rewrite readUint_encodeUint by (change (256 ^ Z.of_nat 2) with 65536; lia).
    rewrite Nat2Z.id, readN_app. reflexivity.
  - assert (E : e = encodeUint 2 (Z.of_nat (length bits)) ++ packBits bits)
      by congruence.
    subst e. rewrite <- app_assoc.
    rewrite readUint_encodeUint by (change (256 ^ Z.of_nat 2) with 65536; lia).
    destruct (packBits_spec bits) as [H1 H2].
    rewrite <- H2, readN_app, Nat2Z.id, H1. reflexivity.
  - destruct H as [Hh Hi]. destruct (Z.ltb_spec 65535 index); [discriminate|].
    assert (E : e = hash ++ encodeUint 2 index) by congruence. subst e.
    rewrite <- app_assoc, <- Hh, readN_app.
    rewrite readUint_encodeUint by (change (256 ^ Z.of_nat 2) with 65536; lia).
    reflexivity.
  - destruct H as [Hl Hok].
    assert (E : e = WriteNetAddrs addrs) by congruence. subst e.
    rewrite ReadNetAddrs_ok by assumption. reflexivity.
Qed.

Lemma decodeFields_encodeFields (fields : list Value) :
  forall e rest,
    Forall wfValue fields -> encodeFields fields = inl e ->
    decodeFields (kindOf <$> fields) (e ++ rest) = inl (fields, rest).
Proof.
  induction fields as [|v more IH]; intros e rest Hw He.
  - assert (E : e = []) by (simpl in He; congruence). subst e. reflexivity.
  - inversion Hw as [|? ? Hv Hw']; subst. cbn [encodeFields] in He.
    destruct (encodeValue v) as [b|err] eqn:Ev; [|discriminate].
    destruct (encodeFields more) as [bs|err] eqn:Em; [|discriminate].
    assert (E : e = b ++ bs) by congruence. subst e.
    cbn [fmap list_fmap decodeFields].
    rewrite <- app_assoc, (decodeValue_encodeValue v b _ Hv Ev).
    change (list_fmap Value Kind kindOf more) with (kindOf <$> more).
    rewrite (IH bs rest Hw' eq_refl). reflexivity.
Qed.

End Values.

Section Messages.

#[local] Instance byType_trans : Transitive byType.
Proof. intros x y z. unfold byType. lia. Qed.

#[local] Instance byType_total : Total byType.
Proof. intros x y. unfold byType. lia. Qed.

Lemma sortedRecords_perm (custom : gmap Z (list ascii)) :
  sortedRecords custom ≡ₚ map_to_list custom.
Proof. apply merge_sort_Permutation. Qed.

Lemma sortedRecords_map (custom : gmap Z (list ascii)) :
  list_to_map (sortedRecords custom) = custom.
Proof.
  rewrite <- (list_to_map_to_list custom) at 2.
  apply list_to_map_proper; [|apply sortedRecords_perm].
  rewrite sortedRecords_perm. apply NoDup_fst_map_to_list.
Qed.

Lemma sortedRecords_elem (custom : gmap Z (list ascii)) (r : Z * list ascii) :
  r ∈ sortedRecords custom -> custom !! fst r = Some (snd r).
Proof.
  rewrite sortedRecords_perm. destruct r as [k v].
  rewrite elem_of_map_to_list. trivial.
Qed.

Lemma ascending_sorted (l : list (Z * list ascii)) :
  forall prev,
    StronglySorted byType l -> NoDup (l.*1) ->
    Forall (fun r => prev < fst r) l ->
    ascending prev l = true.
Proof.
  induction l as [|r more IH]; intros prev Hs Hn Hp; [reflexivity|].
  inversion Hs as [|? ? Hs' Hle]; subst.
  inversion Hp as [|? ? Hr Hp']; subst.
  cbn [fmap list_fmap] in Hn. apply NoDup_cons in Hn as [Hnot Hn].
  cbn [ascending]. apply andb_true_iff. split; [apply Z.ltb_lt; exact Hr|].
  apply IH; [exact Hs' | exact Hn|].
  apply Forall_forall. intros r' Hin.
  rewrite Forall_forall in Hle. specialize (Hle r' Hin). unfold byType in Hle.
  assert (fst r <> fst r').
  { intros E. apply Hnot. rewrite E. apply list_elem_of_fmap.
    exists r'. split; [reflexivity | exact Hin]. }
  lia.
Qed.

Lemma ascending_app (l1 l2 : list (Z * list ascii)) (bound : Z) :
  forall prev,
    ascending prev l1 = true ->
    prev <= bound ->
    Forall (fun r => fst r <= bound) l1 ->
    ascending bound l2 = true ->
    ascending prev (l1 ++ l2) = true.
Proof.
  induction l1 as [|r more IH]; intros prev H1 Hb Hf H2.
  - simpl. destruct l2 as [|r2 l2]; [reflexivity|].
    cbn [ascending] in *. apply andb_true_iff in H2 as [Hr H2].
    apply Z.ltb_lt in Hr. apply andb_true_iff. split; [apply Z.ltb_lt; lia|].
    exact H2.
  - cbn [ascending app] in *. apply andb_true_iff in H1 as [Hr H1].
    inversion Hf as [|? ? Hrb Hf']; subst.
    apply andb_true_iff. split; [exact Hr|].
    apply IH; assumption.
Qed.

Lemma ascending_lower (l : list (Z * list ascii)) (prev : Z) :
  ascending prev l = true -> Forall (fun r => prev < fst r) l.
Proof.
  revert prev. induction l as [|r more IH]; intros prev H; [constructor|].
  cbn [ascending] in H. apply andb_true_iff in H as [Hr H].
  apply Z.ltb_lt in Hr. constructor; [exact Hr|].
  apply IH in H. eapply Forall_impl; [exact H|]. simpl. intros. lia.
Qed.

Lemma sortedRecords_ascending (custom : gmap Z (list ascii)) (prev : Z) :
  (forall k v, custom !! k = Some v -> prev < k) ->
  ascending prev (sortedRecords custom) = true.
Proof.
  intros H. apply ascending_sorted.
  - apply StronglySorted_merge_sort; apply _.
  - rewrite sortedRecords_perm. apply NoDup_fst_map_to_list.
  - apply Forall_forall. intros [k v] Hin. apply sortedRecords_elem in Hin.
    simpl in *. exact (H k v Hin).
Qed.

Lemma In_encodeStream (records : list (Z * list ascii)) (r : Z * list ascii) :
  r ∈ records ->
  (length (snd r) <= length (encodeStream records))%nat.
Proof.
  induction records as [|r' more IH]; intros Hin; [inversion Hin|].
  unfold encodeStream in *. cbn [fmap list_fmap concat]. rewrite length_app.
  apply elem_of_cons in Hin as [->|Hin].
  - unfold encodeRecord. rewrite !length_app. lia.
  - specialize (IH Hin). lia.
Qed.

(** The records a well-formed message writes. *)
Lemma records_ok (extra : list (Z * list ascii)) (custom : gmap Z (list ascii)) :
  ascending (-1) (extra ++ sortedRecords custom) = true ->
  Forall (fun r => fst r < 2 ^ 64) extra ->
  (forall k v, custom !! k = Some v -> k < 2 ^ 64) ->
  Z.of_nat (length (encodeStream (extra ++ sortedRecords custom))) <= MaxMsgBody ->
  Forall recordOK (extra ++ sortedRecords custom).
Proof.
  intros Ha He Hc Hl. pose proof (ascending_lower _ _ Ha) as Hlow.
  apply Forall_forall. intros r Hin.
  rewrite Forall_forall in Hlow. specialize (Hlow r Hin).
  pose proof (In_encodeStream _ r Hin) as Hlen.
  unfold recordOK, MaxMsgBody in *. split; [split; [lia|] | lia].
  apply elem_of_app in Hin as [Hin|Hin].
  - rewrite Forall_forall in He. exact (He r Hin).
  - apply sortedRecords_elem in Hin. exact (Hc _ _ Hin).
Qed.

Lemma filter_all {A} (P : A -> Prop) `{!forall x, Decision (P x)} (l : list A) :
  Forall P l -> filter P l = l.
Proof.
  induction 1 as [|x l Hx Hl IH]; [reflexivity|].
  rewrite filter_cons_True by exact Hx. rewrite IH. reflexivity.
Qed.

Lemma filter_none {A} (P : A -> Prop) `{!forall x, Decision (P x)} (l : list A) :
  Forall (fun x => ~ P x) l -> filter P l = [].
Proof.
  induction 1 as [|x l Hx Hl IH]; [reflexivity|].
  rewrite filter_cons_False by exact Hx. exact IH.
Qed.

End Messages.

Section RoundTrip.

Lemma sortedRecords_empty : sortedRecords ∅ = [].
Proof. unfold sortedRecords. rewrite map_to_list_empty. reflexivity. Qed.

Lemma encodeFields_error (fields : list Value) (e : Err) :
  encodeFields fields = inr e -> e = IndexOverflow.
Proof.
  induction fields as [|v more IH]; [discriminate|]. cbn [encodeFields].
  destruct (encodeValue v) as [b|e1] eqn:Ev.
  - destruct (encodeFields more) as [bs|e2]; [discriminate|].
    intros H. apply IH. congruence.
  - intros H. assert (e = e1) by (destruct (encodeFields more); congruence).
    subst e1. destruct v; simpl in Ev; try discriminate.
    destruct (65535 <? index); congruence.
Qed.

Lemma wf_ascending (registry : gmap Z Schema) (t : Z) (fields : list Value)
      (extra : list (Z * list ascii)) (custom : gmap Z (list ascii)) :
  wfMessage registry (Msg t fields extra custom) ->
  ascending (-1) extra = true ->
  ascending (-1) (extra ++ sortedRecords custom) = true.
Proof.
  intros (_ & schema & _ & _ & _ & _ & Hc) Ha.
  destruct (customRecords schema).
  - destruct Hc as [He Hk].
    apply (ascending_app extra _ (MinCustomRecordsTlvType - 1));
      [exact Ha | unfold MinCustomRecordsTlvType; lia | |].
    + eapply Forall_impl; [exact He|]. simpl. intros. lia.
    + apply sortedRecords_ascending. intros k v H. specialize (Hk k v H). lia.
  - subst custom. rewrite sortedRecords_empty, app_nil_r. exact Ha.
Qed.

Lemma length_prefix (t : Z) (body : list ascii) :
  Z.of_nat (length (encodeUint 2 t ++ body)) = 2 + Z.of_nat (length body).
Proof. rewrite length_app, length_encodeUint. lia. Qed.

Lemma ReadMessage_known (registry : gmap Z Schema) (t : Z) (fields : list Value)
      (extra : list (Z * list ascii)) (custom : gmap Z (list ascii))
      (fs : list ascii) :
  wfMessage registry (Msg t fields extra custom) ->
  encodeFields fields = inl fs ->
  ascending (-1) (extra ++ sortedRecords custom) = true ->
  Z.of_nat (length (fs ++ encodeStream (extra ++ sortedRecords custom)))
    <= MaxMsgBody ->
  ReadMessage registry
    (encodeUint 2 t ++ fs ++ encodeStream (extra ++ sortedRecords custom))
  = inl (Msg t fields extra custom).
Proof.
  intros Hwf Hfs Hasc Hlen.
  destruct Hwf as (Ht & schema & Hreg & Hk & Hv & He & Hc).
  unfold ReadMessage.
  rewrite readUint_encodeUint
    by (change (256 ^ Z.of_nat 2) with 65536; unfold CustomTypeStart in Ht; lia).
  destruct (Z.ltb_spec MaxMsgBody
              (Z.of_nat (length (fs ++ encodeStream (extra ++ sortedRecords custom)))));
    [lia|].
  destruct (Z.leb_spec CustomTypeStart t); [lia|].
  rewrite Hreg, <- Hk, (decodeFields_encodeFields fields fs _ Hv Hfs).
  assert (Hok : Forall recordOK (extra ++ sortedRecords custom)).
  { apply records_ok; [exact Hasc | exact He | |].
    - destruct (customRecords schema).
      + intros k v Hkv. apply (proj2 Hc) in Hkv. lia.
      + subst custom. intros k v Hkv. rewrite lookup_empty in Hkv. discriminate.
    - rewrite length_app in Hlen. lia. }
  rewrite (decodeStream_encodeStream _ Hok Hasc).
  destruct (customRecords schema).
  - destruct Hc as [Hex Hcu].
    assert (Hs : Forall isCustomRecord (sortedRecords custom)).
    { apply Forall_forall. intros [k v] Hin. apply sortedRecords_elem in Hin.
      unfold isCustomRecord. simpl in *. apply Hcu in Hin. lia. }
    assert (Hx : Forall (fun r => ~ isCustomRecord r) extra).
    { eapply Forall_impl; [exact Hex|]. unfold isCustomRecord. simpl. intros. lia. }
    rewrite !filter_app.
    rewrite (filter_all (fun r => ~ isCustomRecord r) extra Hx).
    rewrite (filter_none (fun r => ~ isCustomRecord r) (sortedRecords custom)).
    2: { eapply Forall_impl; [exact Hs|]. simpl. tauto. }
    rewrite (filter_none isCustomRecord extra Hx).
    rewrite (filter_all isCustomRecord _ Hs).
    rewrite app_nil_r, app_nil_l, sortedRecords_map. reflexivity.
  - subst custom. rewrite sortedRecords_empty, app_nil_r. reflexivity.
Qed.




End RoundTrip.

(** ** Replies that go wrong *)

Section ReadingErrors.

Import tor.

(** What [readResponse] returns once it has passed the lines [good]: the
    result of its loop on what follows them. *)
Lemma readResponse_after_good (expected : Z) (good : list ReplyLine)
      (c : Conn) (rest : string) (r : Z * string * option error) :
  closed c = false ->
  Forall (goodLine expected) good ->
  stream c = wireAll good +:+ rest ->
  (forall fuel c', closed c' = false -> stream c' = rest ->
     (pending c' < fuel)%nat ->
     exists c'', readLoop fuel expected (prefixText good) c' = Some (r, c'')) ->
  fst (readResponse expected c) = r.
Proof.
  intros Hc Hg Hs Hr. unfold readResponse.
  destruct (readLoop_good expected rest good (S (pending c)) EmptyString c
              Hc Hg Hs) as (c' & fuel' & -> & Ha & Hf); [lia|].
  pose proof (advance_stream _ _ _ Ha) as Hs'. rewrite Hs in Hs'.
  apply app_inv_head_s in Hs'.
  rewrite app_empty_l.
  destruct (Hr fuel' c') as (c'' & ->); [|auto|exact Hf|reflexivity].
  rewrite (advance_closed _ _ _ Ha). exact Hc.
Qed.

(** A line shorter than four bytes ends the reply with a protocol error
    and the code 0, whatever was read before it. *)
Theorem readResponse_short_line (expected : Z) (good : list ReplyLine)
        (c : Conn) (line rest : string) :
  closed c = false ->
  Forall (goodLine expected) good ->
  ~ occurs LF line ->
  (String.length line < 4)%nat ->
  stream c = wireAll good +:+ line +:+ CRLF +:+ rest ->
  fst (readResponse expected c) =
    (0, prefixText good, Some (ProtocolError ("short line: " +:+ line))).
Proof.
  intros Hc Hg Hn Hl Hs.
  apply (readResponse_after_good expected good c (line +:+ CRLF +:+ rest));
    try assumption.
  intros fuel c' Hc' Hs' Hf. destruct fuel as [|fuel]; [lia|].
  destruct (ReadLine_line c' line rest Hc' Hs' Hn) as (c1 & HR & _).
  exists c1. cbn [readLoop]. rewrite HR.
  apply Nat.ltb_lt in Hl. rewrite Hl. reflexivity.
Qed.

Lemma readResponse_short_line_witness :
  fst (readResponse 250
         (mkConn EmptyString
            ["250-version=1" +:+ CRLF; "OK" +:+ CRLF] [] false))
  = (0, "version=1" +:+ String LF EmptyString,
     Some (ProtocolError "short line: OK")).
Proof.
  apply (readResponse_short_line 250 [MidReplyLine 250 "version=1"]
           (mkConn EmptyString
              ["250-version=1" +:+ CRLF; "OK" +:+ CRLF] [] false)
           "OK" EmptyString).
  - reflexivity.
  - constructor; [|constructor].
    split; [split; [simpl; lia | apply IndexByte_None; reflexivity]
           | split; [exact I | reflexivity]].
  - apply IndexByte_None; reflexivity.
  - simpl. lia.
  - reflexivity.
Defined.

Lemma digit_range (c : ascii) (d : Z) : Go.digit c = Some d -> 0 <= d <= 9.
Proof.
  unfold Go.digit.
  destruct (Z.leb_spec 48 (Z.of_N (N_of_ascii c)));
    destruct (Z.leb_spec (Z.of_N (N_of_ascii c)) 57); simpl;
    intros [= <-]; lia.
Qed.

(** A number of few digits is in range. *)
Lemma digits_small (s : string) :
  forall acc,
    0 <= acc ->
    (acc + 1) * 10 ^ Z.of_nat (String.length s) <= 2 ^ 63 ->
    match Go.digits acc s with
    | inl n => 0 <= n < 2 ^ 63
    | inr e => e = Go.ErrSyntax
    end.
Proof.
  induction s as [|c s IH]; intros acc H0 Hb.
  - simpl in *. lia.
  - cbn [Go.digits]. destruct (Go.digit c) as [d|] eqn:Ed; [|reflexivity].
    apply digit_range in Ed.
    cbn [String.length] in Hb. rewrite Nat2Z.inj_succ, Z.pow_succ_r in Hb by lia.
    assert (Hp : 1 <= 10 ^ Z.of_nat (String.length s))
      by (pose proof (Z.pow_pos_nonneg 10 (Z.of_nat (String.length s))); lia).
    assert (Hn : (10 * acc + d + 1) * 10 ^ Z.of_nat (String.length s) <= 2 ^ 63)
      by nia.
    destruct (Z.ltb_spec (2 ^ 64 - 1) (10 * acc + d)); [nia|].
    apply IH; [lia | exact Hn].
Qed.

Lemma Atoi_short (s : string) (v : Z) (e : Go.NumErr) :
  (String.length s <= 18)%nat -> Go.Atoi s = (v, Some e) ->
  v = 0 /\ e = Go.ErrSyntax.
Proof.
  intros Hl. unfold Go.Atoi.
  assert (Hd : forall body, (String.length body <= 18)%nat ->
             match Go.digits 0 body with
             | inl n => 0 <= n < 2 ^ 63
             | inr e => e = Go.ErrSyntax
             end).
  { intros body Hb. apply digits_small; [lia|].
    assert (10 ^ Z.of_nat (String.length body) <= 10 ^ 18)
      by (apply Z.pow_le_mono_r; lia).
    lia. }
  assert (Hk : forall neg body, (String.length body <= 18)%nat ->
             match body with
             | EmptyString => (0, Some Go.ErrSyntax)
             | String _ _ =>
                 match Go.digits 0 body with
                 | inl n =>
                     if negb neg && (2 ^ 63 <=? n) then (2 ^ 63 - 1, Some Go.ErrRange)
                     else if neg && (2 ^ 63 <? n) then (- 2 ^ 63, Some Go.ErrRange)
                     else (if neg then - n else n, None)
                 | inr Go.ErrSyntax => (0, Some Go.ErrSyntax)
                 | inr Go.ErrRange =>
                     (if neg then - 2 ^ 63 else 2 ^ 63 - 1, Some Go.ErrRange)
                 end
             end = (v, Some e) -> v = 0 /\ e = Go.ErrSyntax).
  { intros neg body Hb. specialize (Hd body Hb).
    destruct body as [|b body']; [intros [= <- <-]; auto|].
    destruct (Go.digits 0 (String b body')) as [n|e'].
    - destruct (Z.leb_spec (2 ^ 63) n); [lia|].
      destruct (Z.ltb_spec (2 ^ 63) n); [lia|].
      rewrite !andb_false_r. discriminate.
    - subst e'. intros [= <- <-]. auto. }
  destruct s as [|a r]; [intros [= <- <-]; auto|].
  destruct (Ascii.eqb_spec a "-") as [->|Hm].
  - apply (Hk true r). simpl in Hl. lia.
  - destruct (Ascii.eqb_spec a "+") as [->|Hp].
    + apply (Hk false r). simpl in Hl. lia.
    + intros H. apply (Hk false (String a r) Hl).
      revert H.
      destruct a as [[] [] [] [] [] [] [] []]; try exact (fun H => H);
        congruence.
Qed.

Lemma length_take (n : nat) (s : string) :
  String.length (Go.take n s) = Nat.min n (String.length s).
Proof.
  revert s. induction n as [|n IH]; intros [|c s]; simpl; auto.
Qed.

(** A line whose first three bytes are not a number ends the reply with
    the error of [strconv.Atoi], a syntax error, and the code 0. *)
Theorem readResponse_bad_status (expected : Z) (good : list ReplyLine)
        (c : Conn) (line rest : string) :
  closed c = false ->
  Forall (goodLine expected) good ->
  ~ occurs LF line ->
  (4 <= String.length line)%nat ->
  ~ isInteger (Go.take 3 line) ->
  stream c = wireAll good +:+ line +:+ CRLF +:+ rest ->
  fst (readResponse expected c) =
    (0, prefixText good,
     Some (NumError "Atoi" (Go.take 3 line) Go.ErrSyntax)).
Proof.
  intros Hc Hg Hn Hl Hi Hs.
  apply (readResponse_after_good expected good c (line +:+ CRLF +:+ rest));
    try assumption.
  intros fuel c' Hc' Hs' Hf. destruct fuel as [|fuel]; [lia|].
  destruct (ReadLine_line c' line rest Hc' Hs' Hn) as (c1 & HR & _).
  exists c1. cbn [readLoop]. rewrite HR.
  destruct (Nat.ltb_spec (String.length line) 4); [lia|].
  unfold isInteger in Hi.
  destruct (Go.Atoi (Go.take 3 line)) as [v [e|]] eqn:EA;
    [|exfalso; apply Hi; reflexivity].
  assert (H3 : (String.length (Go.take 3 line) <= 18)%nat)
    by (rewrite length_take; lia).
  destruct (Atoi_short _ _ _ H3 EA) as [-> ->].
  reflexivity.
Qed.

Lemma readResponse_bad_status_witness :
  fst (readResponse 250
         (mkConn EmptyString ["2x0 OK" +:+ CRLF] [] false))
  = (0, EmptyString, Some (NumError "Atoi" "2x0" Go.ErrSyntax)).
Proof.
  apply (readResponse_bad_status 250 []
           (mkConn EmptyString ["2x0 OK" +:+ CRLF] [] false)
           "2x0 OK" EmptyString).
  - reflexivity.
  - constructor.
  - apply IndexByte_None; reflexivity.
  - simpl. lia.
  - unfold isInteger. vm_compute. discriminate.
  - reflexivity.
Defined.

(** A line with a status code and a fourth byte that is none of space,
    ['-'] and ['+'] ends the reply with a protocol error that quotes the
    line.  The code of the line is returned, expected or not, and the text
    of the line is not added to the reply. *)
Theorem readResponse_invalid_line (expected : Z) (good : list ReplyLine)
        (c : Conn) (n : Z) (sep : ascii) (text rest : string) :
  closed c = false ->
  Forall (goodLine expected) good ->
  0 <= n < 1000 ->
  sep <> " "%char -> sep <> "-"%char -> sep <> "+"%char -> sep <> LF ->
  ~ occurs LF text ->
  stream c = wireAll good +:+ statusLine n sep text +:+ CRLF +:+ rest ->
  fst (readResponse expected c) =
    (n, prefixText good,
     Some (ProtocolError ("invalid line: " +:+ statusLine n sep text))).
Proof.
  intros Hc Hg Hn H1 H2 H3 H4 Ht Hs.
  apply (readResponse_after_good expected good c
           (statusLine n sep text +:+ CRLF +:+ rest)); try assumption.
  intros fuel c' Hc' Hs' Hf. destruct fuel as [|fuel]; [lia|].
  destruct (ReadLine_line c' (statusLine n sep text) rest Hc' Hs'
              (statusLine_noLF n sep text Hn H4 Ht)) as (c1 & HR & _).
  exists c1. rewrite (readLoop_line fuel expected _ c' c1 n sep text HR Hn).
  apply Ascii.eqb_neq in H1, H2, H3. rewrite H1, H2, H3. reflexivity.
Qed.

Lemma readResponse_invalid_line_witness :
  fst (readResponse 250
         (mkConn EmptyString ["515=Bad authentication" +:+ CRLF] [] false))
  = (515, EmptyString,
     Some (ProtocolError "invalid line: 515=Bad authentication")).
Proof.
  apply (readResponse_invalid_line 250 []
           (mkConn EmptyString ["515=Bad authentication" +:+ CRLF] [] false)
           515 "=" "Bad authentication" EmptyString);
    try discriminate; try reflexivity.
  - constructor.
  - lia.
  - apply IndexByte_None; reflexivity.
Defined.

Lemma IndexByte_absent (s : string) (b : ascii) :
  ~ occurs b s -> IndexByte s b = None.
Proof.
  intros H. destruct (IndexByte s b) as [i|] eqn:E; [|reflexivity].
  destruct (IndexByte_Some s b i E) as (pre & post & -> & _).
  exfalso. apply H. exists pre, post. reflexivity.
Qed.

Lemma ReadSlice_eq (isClosed : bool) (buf : string) (inc : list string) :
  ReadSlice isClosed buf inc =
    match IndexByte buf LF with
    | Some i => ((Go.take (S i) buf, None), (Go.drop (S i) buf, inc))
    | None =>
        if isClosed then ((buf, Some ErrClosed), (EmptyString, inc))
        else
          match inc with
          | [] => ((buf, Some EOF), (EmptyString, []))
          | chunk :: more => ReadSlice isClosed (buf +:+ chunk) more
          end
    end.
Proof. destruct inc; reflexivity. Qed.

(** At the end of the stream the reader hands out what is left. *)
Lemma ReadSlice_end (inc : list string) :
  forall buf,
    ~ occurs LF (buf +:+ joinAll inc) ->
    ReadSlice false buf inc =
      ((buf +:+ joinAll inc, Some EOF), (EmptyString, [])).
Proof.
  induction inc as [|chunk more IH]; intros buf H; rewrite ReadSlice_eq.
  - cbn [joinAll] in *. rewrite app_empty_r in *.
    rewrite IndexByte_absent by exact H. reflexivity.
  - assert (Hb : ~ occurs LF buf).
    { intros Hb. apply H. apply occurs_app_l. exact Hb. }
    cbn [joinAll] in *. rewrite <- app_assoc_s in *.
    rewrite IndexByte_absent by exact Hb. apply IH. exact H.
Qed.

Lemma chomp_noLF (s : string) : ~ occurs LF s -> chomp s = s.
Proof.
  induction s as [|c s IH]; intros H; [reflexivity|].
  rewrite chomp_cons.
  destruct (Ascii.eqb_spec c LF) as [->|Hc].
  { exfalso. apply H. exists EmptyString, s. reflexivity. }
  cbn [andb].
  destruct (String.eqb_spec s (String LF EmptyString)) as [->|Hs].
  { exfalso. apply H. exists (String c EmptyString), EmptyString. reflexivity. }
  rewrite andb_false_r, IH; [reflexivity|].
  intros (pre & post & ->). apply H. exists (String c pre), post. reflexivity.
Qed.

Lemma ReadLine_end (c : Conn) (partial : string) :
  closed c = false -> stream c = partial -> ~ occurs LF partial ->
  ReadLine c =
    ((partial, match partial with EmptyString => Some EOF | _ => None end),
     setR EmptyString [] c).
Proof.
  intros Hc Hs Hn. unfold ReadLine, stream in *. rewrite Hc.
  rewrite ReadSlice_end by (rewrite Hs; exact Hn). rewrite Hs.
  destruct partial as [|a p]; [reflexivity|].
  rewrite chomp_noLF by exact Hn. reflexivity.
Qed.

(** When the stream ends after complete lines that all ask for more, the
    reply ends with [io.EOF] and the code 0; the text read so far is
    returned. *)
Theorem readResponse_eof (expected : Z) (good : list ReplyLine) (c : Conn) :
  closed c = false ->
  Forall (goodLine expected) good ->
  stream c = wireAll good ->
  fst (readResponse expected c) = (0, prefixText good, Some EOF).
Proof.
  intros Hc Hg Hs.
  apply (readResponse_after_good expected good c EmptyString);
    try assumption; [rewrite app_empty_r; exact Hs|].
  intros fuel c' Hc' Hs' Hf.
  pose proof (pending_stream c') as Hp. rewrite Hs' in Hp. simpl in Hp.
  destruct fuel as [|fuel]; [lia|].
  exists (setR EmptyString [] c'). cbn [readLoop].
  rewrite (ReadLine_end c' EmptyString Hc' Hs') by (intros ([|] & ? & [=])).
  reflexivity.
Qed.

Lemma readResponse_eof_witness :
  fst (readResponse 250
         (mkConn EmptyString ["250-version=1" +:+ CRLF] [] false))
  = (0, "version=1" +:+ String LF EmptyString, Some EOF).
Proof.
  apply (readResponse_eof 250 [MidReplyLine 250 "version=1"]
           (mkConn EmptyString ["250-version=1" +:+ CRLF] [] false)).
  - reflexivity.
  - constructor; [|constructor].
    split; [split; [simpl; lia | apply IndexByte_None; reflexivity]
           | split; [exact I | reflexivity]].
  - reflexivity.
Defined.

(** A last line that the end of the stream cuts short before its CRLF is
    read as a line: a reply whose end line lacks the CRLF is accepted. *)
Theorem readResponse_truncated (expected : Z) (good : list ReplyLine)
        (c : Conn) (text : string) :
  closed c = false ->
  0 <= expected < 1000 ->
  Forall (goodLine expected) good ->
  ~ occurs LF text ->
  stream c = wireAll good +:+ statusLine expected " " text ->
  fst (readResponse expected c) =
    (expected, replyText (good ++ [EndReplyLine expected text]), None).
Proof.
  intros Hc He Hg Ht Hs.
  apply (readResponse_after_good expected good c
           (statusLine expected " " text)); try assumption.
  intros fuel c' Hc' Hs' Hf.
  assert (Hn : ~ occurs LF (statusLine expected " " text))
    by (apply statusLine_noLF; [exact He | discriminate | exact Ht]).
  pose proof (ReadLine_end c' _ Hc' Hs' Hn) as HR.
  change (match statusLine expected " " text with
          | EmptyString => Some EOF
          | String _ _ => None
          end) with (@None error) in HR.
  pose proof (pending_stream c') as Hp. rewrite Hs' in Hp.
  destruct fuel as [|fuel]; [lia|].
  exists (setR EmptyString [] c').
  rewrite (readLoop_line fuel expected _ c' _ expected " " text HR He).
  cbn [Ascii.eqb Bool.eqb]. rewrite Z.eqb_refl. cbn [negb].
  rewrite replyText_snoc. reflexivity.
Qed.

Lemma readResponse_truncated_witness :
  fst (readResponse 250 (mkConn EmptyString ["250 OK"] [] false))
  = (250, "OK", None).
Proof.
  apply (readResponse_truncated 250 []
           (mkConn EmptyString ["250 OK"] [] false) "OK").
  - reflexivity.
  - lia.
  - constructor.
  - apply IndexByte_None; reflexivity.
  - reflexivity.
Defined.

Lemma ReadSlice_error (inc : list string) :
  forall isClosed buf line e rest,
    ReadSlice isClosed buf inc = ((line, Some e), rest) ->
    e = EOF \/ e = ErrClosed.
Proof.
  induction inc as [|chunk more IH]; intros isClosed buf line e rest;
    rewrite ReadSlice_eq; destruct (IndexByte buf LF); try discriminate;
    destruct isClosed; try (intros [= _ <- _]; auto).
  apply IH.
Qed.

Lemma ReadLine_error (c c' : Conn) (line : string) (e : error) :
  ReadLine c = ((line, Some e), c') -> e = EOF \/ e = ErrClosed.
Proof.
  unfold ReadLine.
  destruct (ReadSlice (closed c) (R c) (incoming c)) as [[l err] [buf inc]] eqn:E.
  destruct l; [|discriminate]. intros [= _ -> _].
  exact (ReadSlice_error _ _ _ _ _ _ E).
Qed.

Lemma dotLoop_error (fuel : nat) :
  forall v c v' e c',
    dotLoop fuel v c = Some ((v', Some e), c') ->
    e = ErrUnexpectedEOF \/ e = ErrClosed.
Proof.
  induction fuel as [|fuel IH]; intros v c v' e c'; [discriminate|].
  cbn [dotLoop]. destruct (ReadLine c) as [[line [e1|]] c1] eqn:ER.
  - destruct (ReadLine_error _ _ _ _ ER) as [-> | ->]; intros [= _ <- _]; auto.
  - destruct line as [|a rest].
    + apply IH.
    + destruct (Ascii.eqb a "."); [destruct (String.length _ =? 1)%nat|];
        try discriminate; apply IH.
Qed.

Lemma ReadDotLines_error (c c' : Conn) (resp : list string) (e : error) :
  ReadDotLines c = ((resp, Some e), c') ->
  e = ErrUnexpectedEOF \/ e = ErrClosed.
Proof.
  unfold ReadDotLines.
  destruct (dotLoop (S (pending c)) [] c) as [[[v err] c1]|] eqn:E.
  - intros [= -> -> ->]. exact (dotLoop_error _ _ _ _ _ _ E).
  - intros [= _ <- _]. auto.
Qed.

Lemma readLoop_outcome (expected : Z) (fuel : nat) :
  forall reply c code text err c',
    readLoop fuel expected reply c = Some ((code, text, err), c') ->
    outcome expected code err.
Proof.
  induction fuel as [|fuel IH]; intros reply c code text err c'; [discriminate|].
  cbn [readLoop]. destruct (ReadLine c) as [[line [e|]] c1] eqn:ER.
  { destruct (ReadLine_error _ _ _ _ ER) as [-> | ->];
      intros [= <- _ <- _]; simpl; auto. }
  destruct (Nat.ltb_spec (String.length line) 4) as [Hl|Hl].
  { intros [= <- _ <- _]. left. exists line. auto. }
  destruct (Go.Atoi (Go.take 3 line)) as [n [e|]] eqn:EA.
  { assert (H3 : String.length (Go.take 3 line) = 3%nat)
      by (rewrite length_take; lia).
    assert (H18 : (String.length (Go.take 3 line) <= 18)%nat) by lia.
    destruct (Atoi_short _ _ _ H18 EA) as [-> ->].
    intros [= <- _ <- _]. simpl. auto. }
  destruct (Ascii.eqb (byteAt 3 line) " ").
  { destruct (Z.eqb_spec n expected); cbn [negb];
      intros [= <- _ <- _]; simpl; assumption. }
  destruct (Ascii.eqb (byteAt 3 line) "-").
  { destruct (Z.eqb_spec n expected); cbn [negb];
      [apply IH | intros [= <- _ <- _]; simpl; assumption]. }
  destruct (Ascii.eqb (byteAt 3 line) "+").
  { destruct (ReadDotLines c1) as [[resp [e|]] c2] eqn:ED.
    - destruct (ReadDotLines_error _ _ _ _ ED) as [-> | ->];
        intros [= <- _ <- _]; exact I.
    - destruct (Z.eqb_spec n expected); cbn [negb];
        [apply IH | intros [= <- _ <- _]; simpl; assumption]. }
  intros [= <- _ <- _]. right. exists line. auto.
Qed.

Lemma readResponse_classified (expected : Z) (c : Conn) :
  outcome expected (fst (fst (fst (readResponse expected c))))
          (snd (fst (readResponse expected c))).
Proof.
  destruct (readResponse_runs expected c) as ([[code text] err] & c' & HL & ->).
  exact (readLoop_outcome _ _ _ _ _ _ _ _ HL).
Qed.



End ReadingErrors.

(** ** Commands *)

Section Commands.

Import tor.

Lemma sendCommand_classified (command : string) (st st' : State) (code : Z)
      (reply : string) (err : option error) :
  sendCommand command st = (Done (code, reply, err), st') ->
  outcome success code err.
Proof.
  unfold sendCommand, Cmd, Controller_readResponse, mbind, M_bind, mret, M_ret,
    getCtl, setCtl, nilDeref.
  destruct st as [c w]. cbn [ctl world].
  destruct (conn c) as [[buf inc sent cl]|] eqn:E; [|discriminate].
  cbn [closed]. destruct cl; cbn [set_conn conn ctl R incoming cmds closed].
  - intros [= <- <- <- <-]. exact I.
  - pose proof (readResponse_classified success
                  (mkConn buf inc (sent ++ [command]) false)) as HO.
    destruct (readResponse success (mkConn buf inc (sent ++ [command]) false))
      as [[[code' reply'] err'] cn'].
    cbn [fst snd] in *. simpl. intros [= <- <- <- <-]. exact HO.
Qed.



Lemma getAuthCookie_pure (info : gmap string string) (st st0 : State)
      (r : Outcome (string + error)) :
  getAuthCookie info st = (r, st0) -> st0 = st /\ exists a, r = Done a.
Proof.
  unfold getAuthCookie. destruct (info !! "COOKIEFILE") as [path|].
  - unfold mbind, M_bind, ReadFile, mret, M_ret.
    destruct (files (world st) !! Go.Trim path quote) as [content|].
    + destruct (negb _); intros [= <- <-]; eauto.
    + intros [= <- <-]. eauto.
  - intros [= <- <-]. eauto.
Qed.

Lemma randRead_ctl (n : nat) (st st1 : State) (r : Outcome (string + error)) :
  randRead n st = (r, st1) -> ctl st1 = ctl st /\ exists a, r = Done a.
Proof.
  unfold randRead. destruct (_ <? _)%nat; intros [= <- <-]; eauto.
Qed.

Lemma length_HMAC_SHA256 (key message : string) :
  String.length (Go.HMAC_SHA256 key message) = 32%nat.
Proof. unfold Go.HMAC_SHA256. apply length_Sum256. Qed.

Ltac early H Early :=
  unfold mret, M_ret in H;
  match type of H with
  | (Done (Some ?e), _) = _ =>
      let x := fresh "x" in
      set (x := e) in H; clearbody x; injection H as <- <-;
      exact (Early _ _ eq_refl)
  end.



Lemma outcome_not_errorString (expected code : Z) (msg : string) :
  ~ outcome expected code (Some (errorString msg)).
Proof. intros []. Qed.



End Commands.

(** ** The flags of the life cycle *)

Section Flags.

Import tor.

(** The flags as [Reconnect] leaves them, and the service ID. *)
Lemma Reconnect_effect (st st' : State) (r : Outcome (option error)) :
  Reconnect st = (r, st') ->
  started (ctl st') = started (ctl st) /\ stopped (ctl st') = stopped (ctl st)
  /\ activeServiceID (ctl st') =
     match r with
     | Done None => EmptyString
     | _ => activeServiceID (ctl st)
     end.
Proof.
  unfold Reconnect. unfold mbind at 1, M_bind at 1. unfold getCtl at 1.
  destruct (started (ctl st) =? 1); cbn [negb]; [|intros [= <- <-]; auto].
  destruct (stopped (ctl st) =? 0); cbn [negb]; [|intros [= <- <-]; auto].
  intros H. unfold mbind at 1, M_bind at 1 in H.
  destruct ((match conn (ctl st) with
             | Some _ => Close ≫= λ _ : option error, mret ()
             | None => mret ()
             end) st) as [[[]|msg] st2] eqn:EC.
  2: { assert (F2 : frame st st2).
       { revert EC. destruct (conn (ctl st)).
         - apply preserves_bind; [apply preserves_Close | intros; apply preserves_ret].
         - apply preserves_ret. }
       injection H as <- <-. destruct F2 as (A1 & A2 & _ & A4 & _). auto. }
  assert (F2 : frame st st2).
  { revert EC. destruct (conn (ctl st)).
    - apply preserves_bind; [apply preserves_Close | intros; apply preserves_ret].
    - apply preserves_ret. }
  unfold mbind at 1, M_bind at 1 in H.
  destruct (Dial st2) as [[[cn|e]|msg] st3] eqn:ED;
    pose proof (preserves_Dial _ _ _ ED) as F3;
    destruct F2 as (A1 & A2 & _ & A4 & _), F3 as (B1 & B2 & _ & B4 & _).
  - unfold mbind at 1, M_bind at 1, setCtl at 1 in H.
    unfold mbind at 1, M_bind at 1 in H.
    destruct (authenticate _) as [[[e|]|msg] st4] eqn:EA;
      pose proof (preserves_authenticate _ _ _ EA) as (C1 & C2 & _ & C4 & _);
      cbn [ctl set_conn started stopped activeServiceID] in C1, C2, C4.
    + injection H as <- <-. repeat split; congruence.
    + unfold mbind, M_bind, setCtl, mret, M_ret in H. injection H as <- <-.
      cbn [ctl set_activeServiceID started stopped activeServiceID].
      repeat split; congruence.
    + injection H as <- <-. repeat split; congruence.
  - injection H as <- <-. repeat split; congruence.
  - injection H as <- <-. repeat split; congruence.
Qed.

(** [Reconnect] forgets the active onion service exactly when it
    succeeds: when it fails, be it at its guards, at the dial or during
    the authentication, the service ID is kept.  It never touches the
    flags. *)
Theorem Reconnect_serviceID (st st' : State) (res : option error) :
  Reconnect st = (Done res, st') ->
  activeServiceID (ctl st') =
    match res with
    | None => EmptyString
    | Some _ => activeServiceID (ctl st)
    end
  /\ started (ctl st') = started (ctl st)
  /\ stopped (ctl st') = stopped (ctl st).
Proof.
  intros H. destruct (Reconnect_effect _ _ _ H) as (H1 & H2 & H3).
  destruct res; auto.
Qed.

Lemma Reconnect_serviceID_witness :
  activeServiceID
    (ctl (scenario.connected EmptyString "abcdefghijklmnop" [])) =
    "abcdefghijklmnop"
  /\ started (ctl (scenario.connected EmptyString "abcdefghijklmnop" [])) = 1
  /\ stopped (ctl (scenario.connected EmptyString "abcdefghijklmnop" [])) = 0.
Proof.
  refine (Reconnect_serviceID
            (scenario.connected EmptyString "abcdefghijklmnop" [])
            (mkState (set_conn (Some (mkConn EmptyString [] [] true))
                        (ctl (scenario.connected EmptyString
                                "abcdefghijklmnop" [])))
                     (scenario.tor_world []))
            (Some (Errorf "unable to connect to Tor server: %w" ErrDial)) _).
  reflexivity.
Defined.

Lemma Stop_started (st st1 : State) (r : Outcome (option error)) :
  Stop st = (r, st1) -> started (ctl st1) = started (ctl st).
Proof.
  destruct (Z.eq_dec (stopped (ctl st)) 0) as [E|E].
  - intros H. rewrite (Stop_first st E) in H.
    unfold mbind, M_bind in H.
    destruct (DelOnion (activeServiceID (ctl st)) (flagged st))
      as [[[e|]|msg] st2] eqn:ED;
      pose proof (preserves_DelOnion _ _ _ _ ED) as (Hs & _); simpl in Hs.
    + injection H as <- <-. exact Hs.
    + unfold setCtl in H.
      destruct (Close _) as [r' st3] eqn:EC.
      pose proof (preserves_Close _ _ _ EC) as (Hs' & _). simpl in Hs'.
      destruct r'; injection H as <- <-; congruence.
    + injection H as <- <-. exact Hs.
  - rewrite (Stop_again st E). intros [= <- <-]. reflexivity.
Qed.

Lemma call_flags (m : Method) (st st' : State) (r : Outcome (option error)) :
  call m st = (r, st') ->
  (started (ctl st) = 1 -> started (ctl st') = 1)
  /\ (stopped (ctl st) = 1 -> stopped (ctl st') = 1).
Proof.
  destruct m; cbn [call]; intros H.
  - destruct (Z.eq_dec (started (ctl st)) 0) as [E|E].
    + destruct (Start_flag _ _ _ E H) as [H1 H2]. split; congruence.
    + rewrite (Start_again st E) in H. injection H as <- <-. auto.
  - pose proof (Stop_started _ _ _ H) as Hs. split; [congruence|].
    intros E. rewrite (Stop_again st) in H by lia. injection H as <- <-. exact E.
  - destruct (Reconnect_effect _ _ _ H) as (H1 & H2 & _). split; congruence.
Qed.

Lemma calls_flags (ms : list Method) :
  forall st st' r,
    calls ms st = (r, st') ->
    (started (ctl st) = 1 -> started (ctl st') = 1)
    /\ (stopped (ctl st) = 1 -> stopped (ctl st') = 1).
Proof.
  induction ms as [|m more IH]; intros st st' r; cbn [calls].
  - intros [= <- <-]. auto.
  - unfold mbind, M_bind. destruct (call m st) as [[e|msg] st1] eqn:E;
      destruct (call_flags _ _ _ _ E) as [H1 H2].
    + intros H. destruct (IH _ _ _ H). split; auto.
    + intros [= <- <-]. auto.
Qed.

(** The flags are never reset.  Once the stopped flag is set, whatever is
    called afterwards, [Stop] returns nil without doing anything and
    [Reconnect] is refused; once the started flag is set, [Start] returns
    nil without doing anything. *)
Theorem flags_for_good (ms : list Method) (st st' : State)
        (r : Outcome unit) :
  calls ms st = (r, st') ->
  (stopped (ctl st) = 1 ->
   stopped (ctl st') = 1
   /\ Stop st' = (Done None, st')
   /\ exists e, Reconnect st' = (Done (Some e), st')
                /\ (e = errTCStopped \/ e = errTCNotStarted))
  /\ (started (ctl st) = 1 ->
      started (ctl st') = 1 /\ Start st' = (Done None, st')).
Proof.
  intros H. destruct (calls_flags _ _ _ _ H) as [H1 H2]. split.
  - intros E. specialize (H2 E). split; [exact H2|].
    split; [apply Stop_again; lia|].
    unfold Reconnect, mbind, M_bind, getCtl.
    destruct (started (ctl st') =? 1); cbn [negb].
    + rewrite H2. eexists. split; [reflexivity | auto].
    + eexists. split; [reflexivity | auto].
  - intros E. specialize (H1 E). split; [exact H1|].
    apply Start_again. lia.
Qed.

Lemma flags_for_good_witness :
  (stopped (ctl (flagged (scenario.connected EmptyString EmptyString []))) = 1
   /\ Stop (flagged (scenario.connected EmptyString EmptyString []))
      = (Done None, flagged (scenario.connected EmptyString EmptyString []))
   /\ exists e,
        Reconnect (flagged (scenario.connected EmptyString EmptyString []))
        = (Done (Some e), flagged (scenario.connected EmptyString EmptyString []))
        /\ (e = errTCStopped \/ e = errTCNotStarted))
  /\ started (ctl (flagged (scenario.connected EmptyString EmptyString []))) = 1
  /\ Start (flagged (scenario.connected EmptyString EmptyString []))
     = (Done None, flagged (scenario.connected EmptyString EmptyString [])).
Proof.
  destruct (flags_for_good [CallReconnect; CallStart; CallStop]
              (flagged (scenario.connected EmptyString EmptyString []))
              (flagged (scenario.connected EmptyString EmptyString []))
              (Done tt) eq_refl) as [H1 H2].
  split; [exact (H1 eq_refl) | exact (H2 eq_refl)].
Defined.

Lemma Dial_fails (st : State) :
  dialFails (world st) ->
  exists st', Dial st = (Done (inr ErrDial), st')
              /\ ctl st' = ctl st /\ files (world st') = files (world st).
Proof.
  unfold dialFails, Dial. destruct (dials (world st)) as [|[chunks|] later];
    [|contradiction|]; intros _; eexists; split; try reflexivity; auto.
Qed.

(** [Reconnect] closes the old connection before it dials: when the dial
    fails the controller is left with its connection closed, and with its
    service ID. *)
Theorem Reconnect_dial_failure (st : State) (cn : Conn) :
  started (ctl st) = 1 -> stopped (ctl st) = 0 ->
  conn (ctl st) = Some cn ->
  dialFails (world st) ->
  exists st',
    Reconnect st =
      (Done (Some (Errorf "unable to connect to Tor server: %w" ErrDial)), st')
    /\ conn (ctl st') = Some (closeConn cn)
    /\ activeServiceID (ctl st') = activeServiceID (ctl st).
Proof.
  intros H1 H2 Hc Hd.
  unfold Reconnect, Close, mbind, M_bind, getCtl, setCtl, mret, M_ret.
  cbv beta iota. rewrite H1, H2. cbn [Z.eqb Pos.eqb negb]. rewrite Hc.
  cbv beta iota. rewrite Hc.
  destruct cn as [buf inc sent [|]]; cbn [closed R incoming cmds closeConn]; cbv beta iota.
  - destruct (Dial_fails st Hd) as (st' & -> & Hctl & _).
    exists st'. rewrite Hctl, Hc. auto.
  - destruct (Dial_fails
                (mkState (set_conn (Some (mkConn buf inc sent true)) (ctl st))
                         (world st)) Hd) as (st' & -> & Hctl & _).
    exists st'. rewrite Hctl. auto.
Qed.

Lemma Reconnect_dial_failure_witness :
  exists st',
    Reconnect (scenario.connected EmptyString "abcdefghijklmnop" []) =
      (Done (Some (Errorf "unable to connect to Tor server: %w" ErrDial)), st')
    /\ conn (ctl st') = Some (closeConn (mkConn EmptyString [] [] false))
    /\ activeServiceID (ctl st') = "abcdefghijklmnop".
Proof.
  apply (Reconnect_dial_failure
           (scenario.connected EmptyString "abcdefghijklmnop" [])
           (mkConn EmptyString [] [] false)); solve [reflexivity | exact I].
Defined.

(** A [Start] that could not connect has set the started flag all the
    same: it returns the error of the dial, leaves the controller without
    a new connection, and a second [Start] returns nil without dialling
    again. *)
Theorem Start_dial_failure (st : State) :
  started (ctl st) = 0 ->
  dialFails (world st) ->
  exists st',
    Start st =
      (Done (Some (Errorf "unable to connect to Tor server: %w" ErrDial)), st')
    /\ conn (ctl st') = conn (ctl st)
    /\ dials (world st') = tail (dials (world st))
    /\ Start st' = (Done None, st').
Proof.
  intros H0 Hd.
  unfold Start, CompareAndSwap_started. unfold mbind at 1, M_bind at 1.
  unfold mbind at 1, M_bind at 1. unfold getCtl at 1. rewrite H0.
  cbn [Z.eqb]. unfold mbind at 1, M_bind at 1, setCtl at 1, mret at 1, M_ret at 1.
  cbn [negb]. unfold mbind at 1, M_bind at 1.
  unfold dialFails in Hd. unfold Dial at 1. cbn [world].
  destruct (dials (world st)) as [|[chunks|] later] eqn:ED; [|contradiction|];
    unfold mret, M_ret; eexists; (split; [reflexivity|]);
    cbn [ctl world set_started conn dials tail];
    (split; [reflexivity|]); (split; [try reflexivity|]);
    try (unfold mbind, M_bind, getCtl; cbn [ctl set_started started Z.eqb negb];
         reflexivity).
  exact ED.
Qed.

Lemma Start_dial_failure_witness :
  exists st',
    Start (scenario.fresh [None]) =
      (Done (Some (Errorf "unable to connect to Tor server: %w" ErrDial)), st')
    /\ conn (ctl st') = None
    /\ dials (world st') = []
    /\ Start st' = (Done None, st').
Proof.
  apply (Start_dial_failure (scenario.fresh [None])); [reflexivity | exact I].
Defined.

End Flags.

(** ** The parameters of a reply *)

Section Parsing.

Import runtime.
Import tor.

Lemma unescapeLoop_escape (value : string) :
  unescapeLoop false (escape value) = value.
Proof.
  induction value as [|c rest IH]; [reflexivity|]. cbn [escape].
  destruct (Ascii.eqb_spec c quote) as [->|Hq]; cbn [orb].
  - cbn [unescapeLoop]. rewrite IH. reflexivity.
  - destruct (Ascii.eqb_spec c backslash) as [->|Hb].
    + cbn [unescapeLoop]. rewrite IH. reflexivity.
    + cbn [unescapeLoop]. apply Ascii.eqb_neq in Hb. rewrite Hb.
      cbn [andb]. rewrite IH. reflexivity.
Qed.

Lemma isSep_inv (c : ascii) :
  isSep c = true -> fieldByte c = false /\ Ascii.eqb c quote = false.
Proof.
  unfold isSep, fieldByte. rewrite !orb_true_iff, !Ascii.eqb_eq.
  intros [[-> | ->] | ->]; split; reflexivity.
Qed.

Lemma keyByte_inv (c : ascii) :
  keyByte c = true -> fieldByte c = true /\ Ascii.eqb c "=" = false.
Proof.
  unfold keyByte. rewrite andb_true_iff, negb_true_iff. tauto.
Qed.

Lemma allBytes_app (p : ascii -> bool) (s t : string) :
  allBytes p (s +:+ t) = allBytes p s && allBytes p t.
Proof.
  induction s as [|c s IH]; [reflexivity|].
  rewrite app_cons. cbn [allBytes]. rewrite IH, andb_assoc. reflexivity.
Qed.

Lemma allBytes_key_field (s : string) :
  allBytes keyByte s = true -> allBytes fieldByte s = true.
Proof.
  induction s as [|c s IH]; [reflexivity|]. cbn [allBytes].
  rewrite !andb_true_iff. intros [Hc Hs]. apply keyByte_inv in Hc. tauto.
Qed.

Lemma fieldRun_app (run rest : string) :
  allBytes fieldByte run = true -> ends rest ->
  fieldRun (run +:+ rest) = (run, rest).
Proof.
  intros Hr He. induction run as [|c run IH].
  - rewrite app_empty_l. destruct rest as [|c rest]; [reflexivity|].
    simpl in He. cbn [fieldRun]. rewrite He. reflexivity.
  - cbn [allBytes] in Hr. apply andb_true_iff in Hr as [Hc Hr].
    rewrite app_cons. cbn [fieldRun]. rewrite Hc, (IH Hr). reflexivity.
Qed.

Lemma Contains_key (s : string) :
  allBytes keyByte s = true -> Go.Contains s "=" = false.
Proof.
  induction s as [|c s IH]; [reflexivity|]. cbn [allBytes].
  rewrite andb_true_iff. intros [Hc Hs]. apply keyByte_inv in Hc as [_ Hc].
  cbn [Go.Contains Go.HasPrefix]. rewrite Ascii.eqb_sym, Hc, (IH Hs).
  reflexivity.
Qed.

Lemma Contains_eq (k rest : string) :
  Go.Contains (k +:+ String "=" rest) "=" = true.
Proof.
  apply Contains_spec. exists k, rest. reflexivity.
Qed.

Lemma lastByte_snoc (s : string) (c : ascii) :
  lastByte (s +:+ String c EmptyString) = Some c.
Proof.
  induction s as [|a s IH]; [reflexivity|]. rewrite app_cons.
  cbn [lastByte]. rewrite IH.
  destruct (s +:+ String c EmptyString) eqn:E; [|reflexivity].
  destruct s; discriminate.
Qed.

Lemma matchAt_word (w rest : string) :
  allBytes keyByte w = true -> ends rest -> matchAt (w +:+ rest) = None.
Proof.
  intros Hw He. unfold matchAt.
  rewrite (fieldRun_app w rest (allBytes_key_field w Hw) He).
  destruct w as [|a tail]; [reflexivity|].
  cbn [allBytes] in Hw. apply andb_true_iff in Hw as [_ Hw].
  rewrite (Contains_key tail Hw). reflexivity.
Qed.

Lemma findAllFrom_skip (pre rest : string) :
  findAllFrom (String.length pre) (pre +:+ rest) = findAllFrom 0 rest.
Proof.
  induction pre as [|c pre IH]; [rewrite app_empty_l; reflexivity|].
  rewrite app_cons. cbn [String.length findAllFrom]. exact IH.
Qed.

Lemma findAllFrom_match (m rest : string) :
  m <> EmptyString -> matchAt (m +:+ rest) = Some m ->
  findAllFrom 0 (m +:+ rest) = m :: findAllFrom 0 rest.
Proof.
  intros Hm H. destruct m as [|c m]; [contradiction|].
  rewrite app_cons in *. cbn [findAllFrom]. rewrite H.
  replace (String.length (String c m) - 1)%nat with (String.length m)
    by (cbn [String.length]; lia).
  rewrite findAllFrom_skip. reflexivity.
Qed.

Lemma findAllFrom_word (w rest : string) :
  allBytes keyByte w = true -> ends rest ->
  findAllFrom 0 (w +:+ rest) = findAllFrom 0 rest.
Proof.
  intros Hw He. induction w as [|c w IH]; [rewrite app_empty_l; reflexivity|].
  pose proof (matchAt_word _ _ Hw He) as HM.
  cbn [allBytes] in Hw. apply andb_true_iff in Hw as [_ Hw].
  rewrite app_cons in *. cbn [findAllFrom]. rewrite HM. exact (IH Hw).
Qed.

Lemma findAllFrom_sep (c : ascii) (rest : string) :
  fieldByte c = false ->
  findAllFrom 0 (String c rest) = findAllFrom 0 rest.
Proof.
  intros Hc. cbn [findAllFrom]. unfold matchAt. cbn [fieldRun].
  rewrite Hc. reflexivity.
Qed.

Lemma quoted_escape (value rest : string) :
  quoted (escape value +:+ String quote rest)
  = Some (escape value +:+ String quote EmptyString, rest).
Proof.
  induction value as [|c value IH].
  - cbn [escape]. rewrite !app_empty_l. cbn [quoted].
    rewrite Ascii.eqb_refl. reflexivity.
  - cbn [escape].
    destruct (Ascii.eqb_spec c quote) as [->|Hq]; cbn [orb].
    + rewrite !app_cons. cbn [quoted].
      change (Ascii.eqb backslash quote) with false.
      rewrite Ascii.eqb_refl. cbn iota.
      change (N_of_ascii quote <? 128)%N with true. cbn iota.
      rewrite IH. reflexivity.
    + destruct (Ascii.eqb_spec c backslash) as [->|Hb].
      * rewrite !app_cons. cbn [quoted].
        change (Ascii.eqb backslash quote) with false.
        rewrite Ascii.eqb_refl. cbn iota.
        change (N_of_ascii backslash <? 128)%N with true. cbn iota.
        rewrite IH. reflexivity.
      * rewrite !app_cons. cbn [quoted].
        apply Ascii.eqb_neq in Hq, Hb. rewrite Hq, Hb, IH. reflexivity.
Qed.

Lemma matchAt_plain (key value rest : string) :
  key <> EmptyString -> allBytes keyByte key = true ->
  allBytes fieldByte value = true ->
  match rest with
  | EmptyString => True
  | String c _ => isSep c = true
  end ->
  matchAt (tokenText (Plain key value) +:+ rest)
  = Some (tokenText (Plain key value)).
Proof.
  intros Hk Hkb Hv Hr. cbn [tokenText]. unfold matchAt.
  assert (Hrun : allBytes fieldByte (key +:+ String "=" value) = true).
  { rewrite allBytes_app, (allBytes_key_field key Hkb). cbn [allBytes andb].
    rewrite Hv. reflexivity. }
  assert (He : ends rest).
  { destruct rest as [|c rest]; [exact I|]. apply isSep_inv in Hr. apply Hr. }
  rewrite (fieldRun_app _ rest Hrun He).
  destruct key as [|a tail]; [contradiction|]. rewrite app_cons.
  rewrite Contains_eq.
  destruct (lastByte (String a (tail +:+ String "=" value))) as [last|];
    [|reflexivity].
  destruct rest as [|c after]; [reflexivity|].
  apply isSep_inv in Hr as [_ Hq]. rewrite Hq, andb_false_r. reflexivity.
Qed.

Lemma matchAt_quoted (key value rest : string) :
  key <> EmptyString -> allBytes keyByte key = true ->
  matchAt (tokenText (Quoted key value) +:+ rest)
  = Some (tokenText (Quoted key value)).
Proof.
  intros Hk Hkb. cbn [tokenText]. unfold matchAt.
  assert (E : (key +:+ String "=" (String quote
                 (escape value +:+ String quote EmptyString))) +:+ rest
              = (key +:+ String "=" EmptyString) +:+
                String quote (escape value +:+ String quote rest)).
  { rewrite !app_assoc_s, !app_cons, app_empty_l, !app_assoc_s, !app_cons,
      app_empty_l. reflexivity. }
  rewrite E. clear E.
  assert (Hrun : allBytes fieldByte (key +:+ String "=" EmptyString) = true).
  { rewrite allBytes_app, (allBytes_key_field key Hkb). reflexivity. }
  rewrite (fieldRun_app _ _ Hrun) by reflexivity.
  rewrite lastByte_snoc.
  destruct key as [|a tail]; [contradiction|]. rewrite app_cons.
  rewrite Contains_eq, !Ascii.eqb_refl. cbn [andb].
  rewrite quoted_escape.
  rewrite <- app_cons, app_assoc_s, !app_cons, app_empty_l. reflexivity.
Qed.

Lemma SplitN2_key (key rest : string) :
  allBytes keyByte key = true ->
  Go.SplitN2 (key +:+ String "=" rest) "=" = [key; rest].
Proof.
  induction key as [|c key IH]; intros H.
  - rewrite app_empty_l. reflexivity.
  - cbn [allBytes] in H. apply andb_true_iff in H as [Hc H].
    apply keyByte_inv in Hc as [_ Hc].
    rewrite app_cons. cbn [Go.SplitN2]. rewrite Hc, (IH H). reflexivity.
Qed.

Lemma HasPrefix_field (value : string) :
  allBytes fieldByte value = true ->
  Go.HasPrefix value (String quote EmptyString) = false.
Proof.
  destruct value as [|c value]; [reflexivity|]. cbn [allBytes Go.HasPrefix].
  rewrite andb_true_iff. intros [Hc _]. unfold fieldByte in Hc.
  apply negb_true_iff in Hc. apply orb_false_iff in Hc as [Hc _].
  apply orb_false_iff in Hc as [Hc _]. apply orb_false_iff in Hc as [Hc _].
  rewrite Ascii.eqb_sym, Hc. reflexivity.
Qed.

Lemma take_app_length (s t : string) :
  Go.take (String.length s) (s +:+ t) = s.
Proof.
  induction s as [|c s IH]; [reflexivity|].
  rewrite app_cons. cbn [String.length Go.take]. rewrite IH. reflexivity.
Qed.

Lemma parseField_plain (params : gmap string string) (key value : string) :
  allBytes keyByte key = true -> allBytes fieldByte value = true ->
  parseField params (tokenText (Plain key value)) = <[ key := value ]> params.
Proof.
  intros Hk Hv. unfold parseField. cbn [tokenText].
  rewrite (SplitN2_key key value Hk). cbn [nth].
  rewrite (HasPrefix_field value Hv). reflexivity.
Qed.

Lemma parseField_quoted (params : gmap string string) (key value : string) :
  allBytes keyByte key = true ->
  parseField params (tokenText (Quoted key value)) = <[ key := value ]> params.
Proof.
  intros Hk. unfold parseField. cbn [tokenText].
  rewrite (SplitN2_key key _ Hk). cbn [nth Go.HasPrefix].
  rewrite Ascii.eqb_refl. cbn [andb Go.drop String.length].
  rewrite length_app_s. cbn [String.length].
  replace (S (String.length (escape value) + 1) - 2)%nat
    with (String.length (escape value)) by lia.
  rewrite take_app_length. unfold unescapeValue.
  rewrite unescapeLoop_escape. reflexivity.
Qed.

(** One token, then the end of the reply or a separator. *)
Lemma scan_token (t : Token) (rest : string) (params : gmap string string) :
  wellFormedToken t ->
  match rest with
  | EmptyString => True
  | String c _ => isSep c = true
  end ->
  fold_left parseField (findAllFrom 0 (tokenText t +:+ rest)) params
  = fold_left parseField (findAllFrom 0 rest) (addToken params t).
Proof.
  intros Hw Hr.
  assert (He : ends rest).
  { destruct rest as [|c rest]; [exact I|]. apply isSep_inv in Hr. apply Hr. }
  destruct t as [w|key value|key value]; cbn [wellFormedToken addToken] in *.
  - destruct Hw as [_ Hw]. cbn [tokenText].
    rewrite (findAllFrom_word w rest Hw He). reflexivity.
  - destruct Hw as (Hne & Hk & Hv).
    rewrite findAllFrom_match.
    + cbn [fold_left]. rewrite (parseField_plain params key value Hk Hv).
      reflexivity.
    + cbn [tokenText]. destruct key; [contradiction|]. rewrite app_cons.
      discriminate.
    + apply matchAt_plain; assumption.
  - destruct Hw as (Hne & Hk & _).
    rewrite findAllFrom_match.
    + cbn [fold_left]. rewrite (parseField_quoted params key value Hk).
      reflexivity.
    + cbn [tokenText]. destruct key; [contradiction|]. rewrite app_cons.
      discriminate.
    + apply matchAt_quoted; assumption.
Qed.

Lemma scan_tokens (more : list (ascii * Token)) :
  forall first params,
    wellFormedToken first ->
    Forall (fun p => isSep (fst p) = true /\ wellFormedToken (snd p)) more ->
    fold_left parseField (findAllFrom 0 (tokensText first more)) params
    = fold_left addToken (first :: more.*2) params.
Proof.
  induction more as [|[sep t] more IH]; intros first params Hf Hm.
  - cbn [tokensText fmap list_fmap fold_left].
    rewrite <- (app_empty_r (tokenText first)).
    rewrite (scan_token first EmptyString params Hf I). reflexivity.
  - inversion Hm as [|? ? [Hs Ht] Hm']; subst. cbn [fst snd] in *.
    cbn [tokensText].
    rewrite (scan_token first (String sep (tokensText t more)) params Hf Hs).
    rewrite findAllFrom_sep by (apply isSep_inv in Hs; apply Hs).
    rewrite (IH t _ Ht Hm'). reflexivity.
Qed.

(** [parseTorReply] reads back the parameters of a reply made of words,
    parameters KEY=VALUE and parameters KEY="VALUE", one separator between
    two tokens: a quoted value that is valid UTF-8 comes out unescaped,
    words are passed over, and of two parameters of one key the later
    one stays. *)
Theorem parseTorReply_tokens (first : Token) (more : list (ascii * Token)) :
  wellFormedToken first ->
  Forall (fun p => isSep (fst p) = true /\ wellFormedToken (snd p)) more ->
  parseTorReply (tokensText first more)
  = fold_left addToken (first :: more.*2) ∅.
Proof.
  intros Hf Hm. unfold parseTorReply, FindAllString.
  exact (scan_tokens more first ∅ Hf Hm).
Qed.

(** The reply to PROTOCOLINFO as [readResponse] hands it over. *)
Lemma parseTorReply_tokens_witness :
  parseTorReply
    (tokensText (Word "PROTOCOLINFO")
       [(" "%char, Word "1"); (LF, Word "AUTH");
        (" "%char, Plain "METHODS" "COOKIE,SAFECOOKIE");
        (" "%char, Quoted "COOKIEFILE" "/run/tor/control.authcookie");
        (LF, Word "VERSION"); (" "%char, Quoted "Tor" "0.4.7.8");
        (LF, Word "OK")])
  = <[ "Tor" := "0.4.7.8" ]>
      (<[ "COOKIEFILE" := "/run/tor/control.authcookie" ]>
         (<[ "METHODS" := "COOKIE,SAFECOOKIE" ]> ∅)).
Proof.
  apply (parseTorReply_tokens (Word "PROTOCOLINFO")
           [(" "%char, Word "1"); (LF, Word "AUTH");
            (" "%char, Plain "METHODS" "COOKIE,SAFECOOKIE");
            (" "%char, Quoted "COOKIEFILE" "/run/tor/control.authcookie");
            (LF, Word "VERSION"); (" "%char, Quoted "Tor" "0.4.7.8");
            (LF, Word "OK")]);
    [split; [discriminate | reflexivity] |].
  repeat (apply List.Forall_cons;
          [split; [reflexivity | repeat split; solve [discriminate | reflexivity]]|]).
  apply List.Forall_nil.
Defined.

Lemma fieldRun_split (s : string) :
  s = fst (fieldRun s) +:+ snd (fieldRun s)
  /\ allBytes fieldByte (fst (fieldRun s)) = true.
Proof.
  induction s as [|c s [IH1 IH2]]; [split; reflexivity|]. cbn [fieldRun].
  destruct (fieldByte c) eqn:Ec.
  - destruct (fieldRun s) as [run rest]. cbn [fst snd] in *.
    rewrite app_cons, <- IH1. cbn [allBytes]. rewrite Ec, IH2. auto.
  - cbn [fst snd]. rewrite app_empty_l. auto.
Qed.

(** A match is a run of field bytes with an ['='] in it, and what the
    quoted alternative adds. *)
Lemma matchAt_shape (s m : string) :
  matchAt s = Some m ->
  exists run extra,
    m = run +:+ extra /\ allBytes fieldByte run = true /\ occurs "=" run
    /\ exists rest, s = run +:+ rest.
Proof.
  unfold matchAt. destruct (fieldRun_split s) as [Hs Hf].
  destruct (fieldRun s) as [run rest]. cbn [fst snd] in *.
  destruct run as [|a tail]; [discriminate|].
  destruct (Go.Contains tail "=") eqn:EC; [|discriminate].
  apply Contains_spec in EC as (pre & post & EC).
  assert (Ho : occurs "=" (String a tail)).
  { exists (String a pre), post. rewrite EC, app_cons, app_cons, app_empty_l.
    reflexivity. }
  intros H.
  assert (Hm : m = String a tail \/
               exists q, m = String a tail +:+ String quote q).
  { destruct (lastByte (String a tail)) as [last|];
      [|left; congruence].
    destruct rest as [|c after]; [left; congruence|].
    destruct (Ascii.eqb last "=" && Ascii.eqb c quote); [|left; congruence].
    destruct (quoted after) as [[q r]|]; [|left; congruence].
    right. exists q. congruence. }
  destruct Hm as [->|[q ->]].
  - exists (String a tail), EmptyString. rewrite app_empty_r. eauto.
  - exists (String a tail), (String quote q). eauto.
Qed.

Lemma findAllFrom_matches (s : string) :
  forall skip m, m ∈ findAllFrom skip s -> exists s', matchAt s' = Some m.
Proof.
  induction s as [|c s IH]; intros skip m; cbn [findAllFrom].
  - intros H. inversion H.
  - destruct skip as [|k]; [|apply IH].
    destruct (matchAt (String c s)) as [m'|] eqn:E; [|apply IH].
    intros H. apply elem_of_cons in H as [->|H]; [eauto | exact (IH _ _ H)].
Qed.

Lemma findAllFrom_no_equals (s : string) :
  forall skip, ~ occurs "=" s -> findAllFrom skip s = [].
Proof.
  induction s as [|c s IH]; intros skip Hs; [reflexivity|].
  assert (Hs' : ~ occurs "=" s).
  { intros (pre & post & ->). apply Hs. exists (String c pre), post.
    rewrite app_cons. reflexivity. }
  cbn [findAllFrom]. destruct skip as [|k]; [|exact (IH k Hs')].
  destruct (matchAt (String c s)) as [m|] eqn:EM; [|exact (IH 0%nat Hs')].
  exfalso. destruct (matchAt_shape _ _ EM) as (run & extra & _ & _ & Ho & rest & Er).
  apply Hs. rewrite Er. apply occurs_app_l. exact Ho.
Qed.

(** A reply without ['='] holds no parameter. *)
Theorem parseTorReply_no_equals (reply : string) :
  ~ occurs "=" reply -> parseTorReply reply = ∅.
Proof.
  intros H. unfold parseTorReply, FindAllString.
  rewrite (findAllFrom_no_equals reply 0%nat H). reflexivity.
Qed.

Lemma parseTorReply_no_equals_witness :
  parseTorReply "250 OK" = ∅.
Proof.
  apply parseTorReply_no_equals. apply IndexByte_None. reflexivity.
Defined.

Lemma SplitN2_nonempty (s : string) (sep : ascii) : Go.SplitN2 s sep <> [].
Proof.
  induction s as [|c s IH]; cbn [Go.SplitN2]; [discriminate|].
  destruct (Ascii.eqb c sep); [discriminate|].
  destruct (Go.SplitN2 s sep); discriminate.
Qed.

(** The text before the first ['='] of a match lies in its run of field
    bytes. *)
Lemma SplitN2_head_key (run extra : string) :
  allBytes fieldByte run = true -> occurs "=" run ->
  allBytes keyByte (nth 0 (Go.SplitN2 (run +:+ extra) "=") EmptyString) = true.
Proof.
  induction run as [|c run IH]; intros Hf Ho.
  - destruct (occurs_empty _ Ho).
  - cbn [allBytes] in Hf. apply andb_true_iff in Hf as [Hc Hf].
    rewrite app_cons. cbn [Go.SplitN2].
    destruct (Ascii.eqb_spec c "=") as [->|Hne]; [reflexivity|].
    apply occurs_cons in Ho as [Ho|Ho]; [congruence|].
    specialize (IH Hf Ho).
    pose proof (SplitN2_nonempty (run +:+ extra) "=") as Hn.
    destruct (Go.SplitN2 (run +:+ extra) "=") as [|h t]; [contradiction|].
    cbn [nth] in *. cbn [allBytes]. rewrite IH. unfold keyByte.
    rewrite Hc. apply Ascii.eqb_neq in Hne. rewrite Hne. reflexivity.
Qed.

Lemma parseField_keys (params : gmap string string) (s m : string) :
  matchAt s = Some m ->
  map_Forall (fun k _ => allBytes keyByte k = true) params ->
  map_Forall (fun k _ => allBytes keyByte k = true) (parseField params m).
Proof.
  intros HM Hp. destruct (matchAt_shape _ _ HM) as (run & extra & -> & Hf & Ho & _).
  unfold parseField. apply map_Forall_insert_2; [|exact Hp].
  apply SplitN2_head_key; assumption.
Qed.

(** The keys of the parameters [parseTorReply] finds hold no quote, no
    space, no CR, no LF and no ['=']. *)
Theorem parseTorReply_keys (reply key value : string) :
  parseTorReply reply !! key = Some value ->
  allBytes keyByte key = true.
Proof.
  unfold parseTorReply, FindAllString.
  assert (H : forall l params,
             (forall m, m ∈ l -> exists s, matchAt s = Some m) ->
             map_Forall (fun k _ => allBytes keyByte k = true) params ->
             map_Forall (fun k _ => allBytes keyByte k = true)
                        (fold_left parseField l params)).
  { induction l as [|m l IH]; intros params Hl Hp; [exact Hp|].
    cbn [fold_left]. apply IH.
    - intros m' Hm'. apply Hl. apply elem_of_cons. auto.
    - destruct (Hl m) as [s Hs]; [apply elem_of_cons; auto|].
      exact (parseField_keys params s m Hs Hp). }
  intros Hk.
  exact (H (findAllFrom 0 reply) ∅ (findAllFrom_matches reply 0%nat)
           (map_Forall_empty _) key value Hk).
Qed.

Lemma parseTorReply_keys_witness :
  allBytes keyByte "SERVERHASH" = true.
Proof.
  apply (parseTorReply_keys
           "AUTHCHALLENGE SERVERHASH=00 SERVERNONCE=11" "SERVERHASH" "00").
  reflexivity.
Defined.

(** Without a quote to close it, the quoted alternative fails. *)
Lemma quoted_unterminated (n : nat) :
  forall s, (String.length s <= n)%nat -> ~ occurs quote s -> quoted s = None.
Proof.
  induction n as [|n IH]; intros s Hl Hs.
  - destruct s; [reflexivity | simpl in Hl; lia].
  - destruct s as [|c s]; [reflexivity|]. cbn [quoted].
    destruct (Ascii.eqb_spec c quote) as [->|Hq].
    { exfalso. apply Hs. apply occurs_cons. left. reflexivity. }
    assert (Hs' : ~ occurs quote s).
    { intros H. apply Hs. apply occurs_cons. right. exact H. }
    cbn [String.length] in Hl.
    destruct (Ascii.eqb c backslash).
    + destruct s as [|e s]; [reflexivity|].
      destruct (N_of_ascii e <? 128)%N; [|reflexivity].
      rewrite (IH s); [reflexivity | cbn [String.length] in Hl; lia |].
      intros H. apply Hs'. apply occurs_cons. right. exact H.
    + rewrite (IH s); [reflexivity | lia | exact Hs'].
Qed.

(** A quoted value whose closing quote is missing is lost: the key is
    bound to the empty string, and what follows the opening quote is read
    as further text. *)
Theorem parseTorReply_unterminated (key value : string) :
  key <> EmptyString -> allBytes keyByte key = true ->
  ~ occurs quote value -> ~ occurs "=" value ->
  parseTorReply (key +:+ String "=" (String quote value))
  = {[ key := EmptyString ]}.
Proof.
  intros Hk Hkb Hq He. unfold parseTorReply, FindAllString.
  assert (E : key +:+ String "=" (String quote value)
              = (key +:+ String "=" EmptyString) +:+ String quote value).
  { rewrite app_assoc_s, app_cons, app_empty_l. reflexivity. }
  rewrite E. clear E.
  assert (Hrun : allBytes fieldByte (key +:+ String "=" EmptyString) = true).
  { rewrite allBytes_app, (allBytes_key_field key Hkb). reflexivity. }
  assert (HM : matchAt ((key +:+ String "=" EmptyString) +:+ String quote value)
               = Some (key +:+ String "=" EmptyString)).
  { unfold matchAt. rewrite (fieldRun_app _ _ Hrun) by reflexivity.
    rewrite lastByte_snoc.
    destruct key as [|a tail]; [contradiction|]. rewrite app_cons.
    rewrite Contains_eq, !Ascii.eqb_refl. cbn [andb].
    rewrite (quoted_unterminated _ value (le_n _) Hq). reflexivity. }
  rewrite findAllFrom_match; [|destruct key; discriminate | exact HM].
  rewrite findAllFrom_sep by reflexivity.
  rewrite (findAllFrom_no_equals value 0%nat He). cbn [fold_left].
  unfold parseField. rewrite (SplitN2_key key EmptyString Hkb).
  reflexivity.
Qed.

Lemma parseTorReply_unterminated_witness :
  parseTorReply ("COOKIEFILE" +:+ String "=" (String quote "/run/tor/cookie"))
  = {[ "COOKIEFILE"%string := EmptyString ]}.
Proof.
  apply (parseTorReply_unterminated "COOKIEFILE" "/run/tor/cookie").
  - discriminate.
  - reflexivity.
  - apply IndexByte_None. reflexivity.
  - apply IndexByte_None. reflexivity.
Defined.

End Parsing.

(** ** The reply to PROTOCOLINFO *)

Section ProtocolInfo.

Import tor.

(** When the server answers PROTOCOLINFO with a reply of code 250 whose
    lines, joined by line feeds, are words and parameters, [protocolInfo]
    returns the map of the parameters; the command sent is
    [PROTOCOLINFO 1]. *)
Theorem protocolInfo_parameters (st : State) (cn : Conn)
        (lines : list ReplyLine) (text rest : string)
        (first : Token) (more : list (ascii * Token)) :
  conn (ctl st) = Some cn -> closed cn = false ->
  Forall (goodLine success) lines -> ~ occurs LF text ->
  stream cn = wireAll (lines ++ [EndReplyLine success text]) +:+ rest ->
  replyText (lines ++ [EndReplyLine success text]) = tokensText first more ->
  wellFormedToken first ->
  Forall (fun p => isSep (fst p) = true /\ wellFormedToken (snd p)) more ->
  exists st' cn',
    Controller_protocolInfo st
    = (Done (inl (fold_left addToken (first :: more.*2) ∅)), st')
    /\ conn (ctl st') = Some cn'
    /\ cmds cn' = cmds cn ++ ["PROTOCOLINFO 1"%string].
Proof.
  intros Hcn Hcl Hg Ht Hs Hr Hf Hm.
  destruct st as [c w]. cbn [ctl] in Hcn.
  destruct cn as [buf inc sent cl]. cbn [closed] in Hcl. subst cl.
  destruct (readResponse_lines success lines (EndReplyLine success text)
              (mkConn buf inc (sent ++ ["PROTOCOLINFO 1"%string]) false) rest
              eq_refl Hg) as (c' & HR & HA).
  - split; [cbn; unfold success; lia | exact Ht].
  - right. simpl. tauto.
  - exact Hs.
  - destruct HA as (consumed & _ & _ & _ & Hcmds).
    exists (mkState (set_conn (Some (discardBuffered c'))
                       (set_conn (Some (mkConn buf inc
                                          (sent ++ ["PROTOCOLINFO 1"%string]) false)) c)) w),
           (discardBuffered c').
    split; [|split; [reflexivity | exact Hcmds]].
    unfold Controller_protocolInfo, sendCommand, Cmd, Controller_readResponse,
      mbind, M_bind, mret, M_ret, getCtl, setCtl, nilDeref.
    cbn [ctl world]. rewrite Hcn.
    cbn [closed set_conn conn ctl world R incoming cmds].
    change ("PROTOCOLINFO " +:+ Go.Itoa ProtocolInfoVersion)
      with "PROTOCOLINFO 1"%string.
    rewrite HR. cbn [lineCode]. rewrite Z.eqb_refl.
    cbn [set_conn conn ctl world].
    rewrite Hr. unfold parseTorReply, FindAllString.
    rewrite (scan_tokens more first ∅ Hf Hm). reflexivity.
Qed.

(** The reply of the scenario, in one chunk. *)
Lemma protocolInfo_parameters_witness :
  exists st' cn',
    Controller_protocolInfo
      (scenario.connected EmptyString EmptyString
         [scenario.protocolInfoReply "COOKIE,SAFECOOKIE"])
    = (Done (inl (<[ "Tor" := "0.4.7.8" ]>
                    (<[ "COOKIEFILE" := scenario.cookiePath ]>
                       (<[ "METHODS" := "COOKIE,SAFECOOKIE" ]> ∅)))), st')
    /\ conn (ctl st') = Some cn'
    /\ cmds cn' = [] ++ ["PROTOCOLINFO 1"%string].
Proof.
  apply (protocolInfo_parameters
           (scenario.connected EmptyString EmptyString
              [scenario.protocolInfoReply "COOKIE,SAFECOOKIE"])
           (mkConn EmptyString [scenario.protocolInfoReply "COOKIE,SAFECOOKIE"]
              [] false)
           [ MidReplyLine 250 "PROTOCOLINFO 1";
             MidReplyLine 250
               ("AUTH METHODS=COOKIE,SAFECOOKIE COOKIEFILE=" +:+ scenario.q
                +:+ scenario.cookiePath +:+ scenario.q);
             MidReplyLine 250
               ("VERSION Tor=" +:+ scenario.q +:+ "0.4.7.8" +:+ scenario.q) ]
           "OK" EmptyString
           (Word "PROTOCOLINFO")
           [(" "%char, Word "1"); (LF, Word "AUTH");
            (" "%char, Plain "METHODS" "COOKIE,SAFECOOKIE");
            (" "%char, Quoted "COOKIEFILE" scenario.cookiePath);
            (LF, Word "VERSION"); (" "%char, Quoted "Tor" "0.4.7.8");
            (LF, Word "OK")]).
  - reflexivity.
  - reflexivity.
  - repeat (apply List.Forall_cons;
            [split; [split; [simpl; lia | apply IndexByte_None; reflexivity]
                    | split; [exact I | reflexivity]]|]).
    apply List.Forall_nil.
  - apply IndexByte_None. reflexivity.
  - reflexivity.
  - reflexivity.
  - split; [discriminate | reflexivity].
  - repeat (apply List.Forall_cons;
            [split; [reflexivity
                    | repeat split; solve [discriminate | reflexivity]]|]).
    apply List.Forall_nil.
Defined.

End ProtocolInfo.

(** ** Values as runes *)

Section Runes.

Import runtime.
Import tor.

Lemma byteVal_range (c : ascii) : 0 <= byteVal c < 256.
Proof. unfold byteVal. pose proof (N_of_ascii_bound c). lia. Qed.

Lemma byte_byteVal (c : ascii) : byte (byteVal c) = c.
Proof.
  unfold byte, byteVal. pose proof (N_of_ascii_bound c).
  rewrite Z.mod_small by lia. rewrite N2Z.id. apply ascii_N_embedding.
Qed.

Lemma byteVal_byte (v : Z) : 0 <= v < 256 -> byteVal (byte v) = v.
Proof.
  intros H. unfold byte, byteVal. rewrite Z.mod_small by lia.
  rewrite N_ascii_embedding by lia. lia.
Qed.

(** Bits that do not overlap add up. *)
Lemma lor_disjoint (c x k : Z) :
  0 <= k -> 0 <= x < 2 ^ k -> c mod 2 ^ k = 0 -> Z.lor c x = c + x.
Proof.
  intros Hk Hx Hc. rewrite <- Z.add_lor_land.
  assert (E : Z.land c x = 0); [|lia].
  apply Z.bits_inj'. intros n Hn. rewrite Z.land_spec, Z.bits_0.
  assert (Hp : 0 < 2 ^ k) by (apply Z.pow_pos_nonneg; lia).
  destruct (Z.lt_ge_cases n k) as [Hlt|Hge].
  - rewrite (Z.div_mod c (2 ^ k)) by lia. rewrite Hc, Z.add_0_r.
    rewrite (Z.mul_comm (2 ^ k)), Z.mul_pow2_bits_low by exact Hlt. reflexivity.
  - destruct (Z.eq_dec x 0) as [->|Hx0]; [rewrite Z.bits_0, andb_false_r; reflexivity|].
    rewrite (Z.bits_above_log2 x n), andb_false_r; [reflexivity | lia|].
    apply Z.lt_le_trans with k; [|exact Hge].
    apply Z.log2_lt_pow2; lia.
Qed.

Lemma land_low (a k : Z) : 0 <= k -> Z.land a (Z.ones k) = a mod 2 ^ k.
Proof. intros. apply Z.land_ones. assumption. Qed.

Ltac euclid := Z.div_mod_to_equations; lia.

Lemma low_bits (r : Z) : Z.land r 63 = r mod 64.
Proof. change 63 with (Z.ones 6). rewrite land_low by lia. reflexivity. Qed.

Lemma lor_tx (b : Z) : 0 <= b < 64 -> Z.lor 128 b = 128 + b.
Proof. intros. apply (lor_disjoint 128 b 6); [lia | exact H | reflexivity]. Qed.

Lemma decode2 (s0 s1 : Z) :
  192 <= s0 < 224 -> 128 <= s1 <= 191 ->
  Z.lor (Z.shiftl (Z.land s0 31) 6) (Z.land s1 63)
  = (s0 - 192) * 64 + (s1 - 128).
Proof.
  intros H0 H1. rewrite low_bits. change 31 with (Z.ones 5).
  rewrite land_low, Z.shiftl_mul_pow2 by lia.
  rewrite (lor_disjoint _ _ 6); [| lia | apply Z.mod_pos_bound; lia
                                 | apply Z.mod_mul; lia].
  change (2 ^ 5) with 32. change (2 ^ 6) with 64. euclid.
Qed.

Lemma decode3 (s0 s1 s2 : Z) :
  224 <= s0 < 240 -> 128 <= s1 <= 191 -> 128 <= s2 <= 191 ->
  Z.lor (Z.lor (Z.shiftl (Z.land s0 15) 12) (Z.shiftl (Z.land s1 63) 6))
        (Z.land s2 63)
  = (s0 - 224) * 4096 + (s1 - 128) * 64 + (s2 - 128).
Proof.
  intros H0 H1 H2. rewrite !low_bits. change 15 with (Z.ones 4).
  rewrite land_low, !Z.shiftl_mul_pow2 by lia.
  change (2 ^ 4) with 16. change (2 ^ 6) with 64. change (2 ^ 12) with 4096.
  rewrite (lor_disjoint (s0 mod 16 * 4096) (s1 mod 64 * 64) 12);
    [| lia | change (2 ^ 12) with 4096; euclid
     | change (2 ^ 12) with 4096; apply Z.mod_mul; lia].
  rewrite (lor_disjoint _ (s2 mod 64) 6);
    [| lia | change (2 ^ 6) with 64; euclid | change (2 ^ 6) with 64; euclid].
  euclid.
Qed.

Lemma decode4 (s0 s1 s2 s3 : Z) :
  240 <= s0 < 248 -> 128 <= s1 <= 191 -> 128 <= s2 <= 191 ->
  128 <= s3 <= 191 ->
  Z.lor (Z.lor (Z.lor (Z.shiftl (Z.land s0 7) 18)
                      (Z.shiftl (Z.land s1 63) 12))
               (Z.shiftl (Z.land s2 63) 6))
        (Z.land s3 63)
  = (s0 - 240) * 262144 + (s1 - 128) * 4096 + (s2 - 128) * 64 + (s3 - 128).
Proof.
  intros H0 H1 H2 H3. rewrite !low_bits. change 7 with (Z.ones 3).
  rewrite land_low, !Z.shiftl_mul_pow2 by lia.
  change (2 ^ 3) with 8. change (2 ^ 6) with 64. change (2 ^ 12) with 4096.
  change (2 ^ 18) with 262144.
  rewrite (lor_disjoint (s0 mod 8 * 262144) (s1 mod 64 * 4096) 18);
    [| lia | change (2 ^ 18) with 262144; euclid
     | change (2 ^ 18) with 262144; apply Z.mod_mul; lia].
  rewrite (lor_disjoint _ (s2 mod 64 * 64) 12);
    [| lia | change (2 ^ 12) with 4096; euclid
     | change (2 ^ 12) with 4096; euclid].
  rewrite (lor_disjoint _ (s3 mod 64) 6);
    [| lia | change (2 ^ 6) with 64; euclid | change (2 ^ 6) with 64; euclid].
  euclid.
Qed.

Lemma shiftr_div (r k : Z) : 0 <= k -> Z.shiftr r k = r / 2 ^ k.
Proof. intros. apply Z.shiftr_div_pow2. assumption. Qed.

Lemma encode2 (a b : Z) :
  0 <= a < 32 -> 0 <= b < 64 -> 127 < a * 64 + b ->
  encoderune (a * 64 + b)
  = String (byte (192 + a)) (String (byte (128 + b)) EmptyString).
Proof.
  intros Ha Hb Hr. unfold encoderune.
  rewrite (Z.mod_small (a * 64 + b)) by (change (2 ^ 32) with 4294967296; lia).
  destruct (Z.leb_spec (a * 64 + b) 127); [lia|].
  destruct (Z.leb_spec (a * 64 + b) 2047); [|lia].
  rewrite low_bits, shiftr_div by lia. change (2 ^ 6) with 64.
  replace ((a * 64 + b) / 64) with a by euclid.
  replace ((a * 64 + b) mod 64) with b by euclid.
  rewrite (lor_disjoint 192 a 5), lor_tx by (try reflexivity; lia).
  reflexivity.
Qed.

Lemma encode3 (a b c : Z) :
  0 <= a < 16 -> 0 <= b < 64 -> 0 <= c < 64 ->
  2047 < a * 4096 + b * 64 + c ->
  ~ (55296 <= a * 4096 + b * 64 + c <= 57343) ->
  encoderune (a * 4096 + b * 64 + c)
  = String (byte (224 + a))
      (String (byte (128 + b)) (String (byte (128 + c)) EmptyString)).
Proof.
  intros Ha Hb Hc Hr Hs. unfold encoderune. set (r := a * 4096 + b * 64 + c).
  rewrite (Z.mod_small r) by (change (2 ^ 32) with 4294967296; lia).
  destruct (Z.leb_spec r 127); [lia|].
  destruct (Z.leb_spec r 2047); [lia|].
  unfold maxRune. destruct (Z.ltb_spec 1114111 r); [lia|].
  destruct (Z.leb_spec 55296 r); destruct (Z.leb_spec r 57343);
    cbn [orb andb]; try lia;
    (destruct (Z.leb_spec r 65535); [|lia]);
    rewrite !low_bits, !shiftr_div by lia;
    change (2 ^ 6) with 64; change (2 ^ 12) with 4096;
    replace (r / 4096) with a by (unfold r; euclid);
    replace ((r / 64) mod 64) with b by (unfold r; euclid);
    replace (r mod 64) with c by (unfold r; euclid);
    rewrite (lor_disjoint 224 a 4), !lor_tx by (try reflexivity; lia);
    reflexivity.
Qed.

Lemma encode4 (a b c d : Z) :
  0 <= a < 8 -> 0 <= b < 64 -> 0 <= c < 64 -> 0 <= d < 64 ->
  65535 < a * 262144 + b * 4096 + c * 64 + d <= maxRune ->
  encoderune (a * 262144 + b * 4096 + c * 64 + d)
  = String (byte (240 + a))
      (String (byte (128 + b))
         (String (byte (128 + c)) (String (byte (128 + d)) EmptyString))).
Proof.
  intros Ha Hb Hc Hd Hr. unfold encoderune, maxRune in *.
  set (r := a * 262144 + b * 4096 + c * 64 + d) in *.
  rewrite (Z.mod_small r) by (change (2 ^ 32) with 4294967296; lia).
  destruct (Z.leb_spec r 127); [lia|].
  destruct (Z.leb_spec r 2047); [lia|].
  destruct (Z.ltb_spec 1114111 r); [lia|].
  destruct (Z.leb_spec 55296 r); destruct (Z.leb_spec r 57343);
    cbn [orb andb]; try lia;
    (destruct (Z.leb_spec r 65535); [lia|]);
    rewrite !low_bits, !shiftr_div by lia;
    change (2 ^ 6) with 64; change (2 ^ 12) with 4096;
    change (2 ^ 18) with 262144;
    replace (r / 262144) with a by (unfold r; euclid);
    replace ((r / 4096) mod 64) with b by (unfold r; euclid);
    replace ((r / 64) mod 64) with c by (unfold r; euclid);
    replace (r mod 64) with d by (unfold r; euclid);
    rewrite (lor_disjoint 240 a 3), !lor_tx by (try reflexivity; lia);
    reflexivity.
Qed.

Ltac bounds :=
  repeat match goal with
         | H : _ && _ = true |- _ => apply andb_true_iff in H as [? ?]
         | H : (_ <=? _) = true |- _ => apply Z.leb_le in H
         | H : (_ <? _) = true |- _ => apply Z.ltb_lt in H
         | H : negb _ = true |- _ => apply negb_true_iff in H
         | H : _ && _ = false |- _ => apply andb_false_iff in H
         | H : (_ <=? _) = false |- _ => apply Z.leb_gt in H
         end.

(** A rune of several bytes that [decoderune] accepts is written back by
    [encoderune] as the bytes it was read from. *)
Lemma decoderune_wide (s : string) (r : Z) (w : nat) :
  decoderune s = (r, w) -> (2 <= w)%nat ->
  exists enc rest,
    s = enc +:+ rest /\ String.length enc = w /\ encoderune r = enc
    /\ allBytes highByte enc = true /\ 127 < r.
Proof.
  destruct s as [|c0 [|c1 rest1]]; try (intros [= _ <-]; lia).
  unfold decoderune, continuation.
  pose proof (byteVal_range c0) as B0. pose proof (byteVal_range c1) as B1.
  destruct ((192 <=? byteVal c0) && (byteVal c0 <? 224)) eqn:E2.
  { destruct ((128 <=? byteVal c1) && (byteVal c1 <=? 191)) eqn:C1;
      [|intros [= _ <-]; lia].
    bounds. rewrite decode2 by lia.
    destruct (Z.ltb_spec 127 ((byteVal c0 - 192) * 64 + (byteVal c1 - 128)));
      [|intros [= _ <-]; lia].
    intros [= <- <-] _. exists (String c0 (String c1 EmptyString)), rest1.
    rewrite encode2 by lia.
    replace (192 + (byteVal c0 - 192)) with (byteVal c0) by lia.
    replace (128 + (byteVal c1 - 128)) with (byteVal c1) by lia.
    rewrite !byte_byteVal. unfold highByte. cbn [allBytes].
    repeat split; try reflexivity; [|lia].
    rewrite !andb_true_iff, !Z.leb_le. lia. }
  destruct ((224 <=? byteVal c0) && (byteVal c0 <? 240)) eqn:E3.
  { destruct rest1 as [|c2 rest2]; [intros [= _ <-]; lia|].
    pose proof (byteVal_range c2) as B2.
    destruct (((128 <=? byteVal c1) && (byteVal c1 <=? 191)) &&
              ((128 <=? byteVal c2) && (byteVal c2 <=? 191))) eqn:C;
      [|intros [= _ <-]; lia].
    bounds. rewrite decode3 by lia.
    set (r3 := (byteVal c0 - 224) * 4096 + (byteVal c1 - 128) * 64
               + (byteVal c2 - 128)).
    destruct ((2047 <? r3) && negb ((55296 <=? r3) && (r3 <=? 57343))) eqn:V;
      [|intros [= _ <-]; lia].
    bounds. intros [= <- <-] _.
    exists (String c0 (String c1 (String c2 EmptyString))), rest2.
    unfold r3. rewrite encode3 by (fold r3; lia).
    replace (224 + (byteVal c0 - 224)) with (byteVal c0) by lia.
    replace (128 + (byteVal c1 - 128)) with (byteVal c1) by lia.
    replace (128 + (byteVal c2 - 128)) with (byteVal c2) by lia.
    rewrite !byte_byteVal. unfold highByte. cbn [allBytes].
    repeat split; try reflexivity; [|lia].
    rewrite !andb_true_iff, !Z.leb_le. lia. }
  destruct ((240 <=? byteVal c0) && (byteVal c0 <? 248)) eqn:E4;
    [|intros [= _ <-]; lia].
  destruct rest1 as [|c2 [|c3 rest3]]; try (intros [= _ <-]; lia).
  pose proof (byteVal_range c2) as B2. pose proof (byteVal_range c3) as B3.
  destruct ((((128 <=? byteVal c1) && (byteVal c1 <=? 191)) &&
             ((128 <=? byteVal c2) && (byteVal c2 <=? 191))) &&
            ((128 <=? byteVal c3) && (byteVal c3 <=? 191))) eqn:C;
    [|intros [= _ <-]; lia].
  bounds. rewrite decode4 by lia.
  set (r4 := (byteVal c0 - 240) * 262144 + (byteVal c1 - 128) * 4096
             + (byteVal c2 - 128) * 64 + (byteVal c3 - 128)).
  destruct ((65535 <? r4) && (r4 <=? maxRune)) eqn:V; [|intros [= _ <-]; lia].
  bounds. intros [= <- <-] _.
  exists (String c0 (String c1 (String c2 (String c3 EmptyString)))), rest3.
  unfold r4. rewrite encode4 by (fold r4; lia).
  replace (240 + (byteVal c0 - 240)) with (byteVal c0) by lia.
  replace (128 + (byteVal c1 - 128)) with (byteVal c1) by lia.
  replace (128 + (byteVal c2 - 128)) with (byteVal c2) by lia.
  replace (128 + (byteVal c3 - 128)) with (byteVal c3) by lia.
  rewrite !byte_byteVal. unfold highByte. cbn [allBytes].
  repeat split; try reflexivity; [|lia].
  rewrite !andb_true_iff, !Z.leb_le. lia.
Qed.

Lemma decoderune_prefix (s : string) (r : Z) (w : nat) (enc rest : string) :
  decoderune s = (r, w) -> (2 <= w)%nat ->
  s = enc +:+ rest -> String.length enc = w ->
  forall other, decoderune (enc +:+ other) = (r, w).
Proof.
  intros H Hw -> Hl other. revert H.
  destruct enc as [|c0 [|c1 enc]]; try (simpl in Hl; lia).
  rewrite !app_cons. unfold decoderune.
  destruct ((192 <=? byteVal c0) && (byteVal c0 <? 224)).
  { destruct (continuation (byteVal c1)); [|intros [= _ <-]; lia].
    destruct (127 <? _); [|intros [= _ <-]; lia]. trivial. }
  destruct ((224 <=? byteVal c0) && (byteVal c0 <? 240)).
  { destruct enc as [|c2 enc].
    - rewrite !app_empty_l. destruct rest as [|c2 rest].
      + intros [= _ <-]. lia.
      + destruct (continuation (byteVal c1) && continuation (byteVal c2));
          [|intros [= _ <-]; lia].
        destruct (_ && _); intros [= _ <-]; simpl in Hl; lia.
    - rewrite !app_cons.
      destruct (continuation (byteVal c1) && continuation (byteVal c2));
        [|intros [= _ <-]; lia].
      destruct (_ && _); [|intros [= _ <-]; lia]. trivial. }
  destruct ((240 <=? byteVal c0) && (byteVal c0 <? 248));
    [|intros [= _ <-]; lia].
  destruct enc as [|c2 [|c3 enc]].
  - rewrite !app_empty_l. destruct rest as [|c2 [|c3 rest]];
      try (intros [= _ <-]; lia).
    destruct (_ && _ && _); [|intros [= _ <-]; lia].
    destruct (_ && _); intros [= _ <-]; simpl in Hl; lia.
  - rewrite !app_cons, !app_empty_l. destruct rest as [|c3 rest];
      try (intros [= _ <-]; lia).
    destruct (_ && _ && _); [|intros [= _ <-]; lia].
    destruct (_ && _); intros [= _ <-]; simpl in Hl; lia.
  - rewrite !app_cons.
    destruct (_ && _ && _); [|intros [= _ <-]; lia].
    destruct (_ && _); [|intros [= _ <-]; lia]. trivial.
Qed.

Lemma unescapeRunes_skip (pre rest : string) (flag : bool) :
  unescapeRunes (String.length pre) flag (pre +:+ rest)
  = unescapeRunes 0 flag rest.
Proof.
  induction pre as [|c pre IH]; [rewrite app_empty_l; reflexivity|].
  rewrite app_cons. exact IH.
Qed.

Lemma validFrom_skip (pre rest : string) :
  validFrom (String.length pre) (pre +:+ rest) = validFrom 0 rest.
Proof.
  induction pre as [|c pre IH]; [rewrite app_empty_l; reflexivity|].
  rewrite app_cons. exact IH.
Qed.

Lemma highByte_not_backslash (c : ascii) :
  highByte c = true -> Ascii.eqb c backslash = false.
Proof.
  unfold highByte. intros H. apply Z.leb_le in H.
  destruct (Ascii.eqb_spec c backslash) as [->|]; [|reflexivity].
  vm_compute in H. contradiction H. reflexivity.
Qed.

Lemma unescapeLoop_high (enc rest : string) (flag : bool) :
  allBytes highByte enc = true -> enc <> EmptyString ->
  unescapeLoop flag (enc +:+ rest) = enc +:+ unescapeLoop false rest.
Proof.
  intros H Hne. destruct enc as [|c enc]; [contradiction|]. clear Hne.
  revert c flag H. induction enc as [|d enc IH]; intros c flag H;
    cbn [allBytes] in H; apply andb_true_iff in H as [Hc H];
    rewrite !app_cons; cbn [unescapeLoop];
    rewrite (highByte_not_backslash c Hc); cbn [andb].
  - rewrite !app_empty_l. reflexivity.
  - f_equal. rewrite <- !app_cons. exact (IH d false H).
Qed.

Lemma rangeRune_ascii (c : ascii) (rest : string) :
  byteVal c < 128 ->
  rangeRune (String c rest) = (byteVal c, 1%nat)
  /\ encoderune (byteVal c) = String c EmptyString
  /\ (byteVal c =? 92) = Ascii.eqb c backslash.
Proof.
  intros H. pose proof (byteVal_range c) as B. unfold rangeRune.
  destruct (Z.ltb_spec (byteVal c) 128); [|lia]. split; [reflexivity|]. split.
  - unfold encoderune. rewrite Z.mod_small
      by (change (2 ^ 32) with 4294967296; lia).
    destruct (Z.leb_spec (byteVal c) 127); [|lia].
    rewrite byte_byteVal. reflexivity.
  - destruct (Ascii.eqb_spec c backslash) as [->|Hn]; [reflexivity|].
    apply Z.eqb_neq. intros E. apply Hn.
    rewrite <- (byte_byteVal c), E. reflexivity.
Qed.

(** On valid UTF-8 the loop over runes is the loop over bytes. *)
Lemma unescapeRunes_bytes (n : nat) :
  forall value flag,
    (String.length value <= n)%nat -> validFrom 0 value = true ->
    unescapeRunes 0 flag value = unescapeLoop flag value.
Proof.
  induction n as [|n IH]; intros value flag Hl Hv.
  { destruct value; [reflexivity | simpl in Hl; lia]. }
  destruct value as [|c rest]; [reflexivity|].
  cbn [validFrom] in Hv. cbn [unescapeRunes].
  destruct (Z.ltb_spec (byteVal c) 128) as [Ha|Ha].
  - destruct (rangeRune_ascii c rest Ha) as (-> & He & Hb).
    rewrite Hb, He. cbn [unescapeLoop Nat.sub].
    simpl in Hl.
    destruct (Ascii.eqb c backslash && negb flag);
      rewrite IH by (auto; lia); reflexivity.
  - apply andb_true_iff in Hv as [Hw Hv]. apply Nat.leb_le in Hw.
    unfold rangeRune. destruct (Z.ltb_spec (byteVal c) 128); [lia|].
    destruct (decoderune (String c rest)) as [r w] eqn:ED. cbn [snd] in *.
    destruct (decoderune_wide _ _ _ ED Hw) as (enc & rest' & E & Hlen & Henc & Hh & Hr).
    destruct (Z.eqb_spec r 92); [lia|]. cbn [andb].
    destruct enc as [|c' enc]; [simpl in Hlen; lia|].
    rewrite app_cons in E. injection E as <- ->.
    cbn [String.length] in Hlen.
    replace (w - 1)%nat with (String.length enc) in * by lia.
    rewrite unescapeRunes_skip, validFrom_skip in *.
    rewrite Henc. rewrite <- app_cons.
    rewrite (unescapeLoop_high (String c enc) rest' flag Hh) by discriminate.
    rewrite IH; [reflexivity| |exact Hv].
    simpl in Hl. rewrite length_app_s in Hl. lia.
Qed.

(** [unescapeValue]'s loop ranges over runes; on a value that is valid
    UTF-8 it yields what the loop over the bytes yields. *)
Theorem unescapeValue_runes_bytes (value : string) :
  validUTF8 value -> unescapeValue_runes value = unescapeValue value.
Proof.
  intros H. exact (unescapeRunes_bytes _ value false (Nat.le_refl _) H).
Qed.

Lemma unescapeValue_runes_bytes_witness :
  unescapeValue_runes
    ("caf" +:+ String (byte 195) (String (byte 169) ("\" +:+ String quote "x")))
  = unescapeValue
      ("caf" +:+ String (byte 195) (String (byte 169) ("\" +:+ String quote "x"))).
Proof.
  apply (unescapeValue_runes_bytes
           ("caf" +:+ String (byte 195) (String (byte 169)
                                           ("\" +:+ String quote "x")))).
  reflexivity.
Defined.

(** A byte that begins no rune, a stray continuation byte or one from 0xF8
    on, does not survive [unescapeValue]: the loop over runes reads it as
    U+FFFD and appends the three bytes of that rune. *)
Theorem unescapeValue_runes_stray (c : ascii) (rest : string) :
  128 <= byteVal c < 192 \/ 248 <= byteVal c ->
  unescapeValue_runes (String c rest)
  = String (byte 239) (String (byte 191) (String (byte 189)
      (unescapeValue_runes rest))).
Proof.
  intros H. unfold unescapeValue_runes. cbn [unescapeRunes]. unfold rangeRune.
  destruct (Z.ltb_spec (byteVal c) 128); [lia|].
  assert (ED : decoderune (String c rest) = (runeError, 1%nat)).
  { unfold decoderune. destruct rest as [|c1 rest1]; [reflexivity|].
    destruct (Z.leb_spec 192 (byteVal c)); destruct (Z.ltb_spec (byteVal c) 224);
      cbn [andb]; try lia;
      destruct (Z.leb_spec 224 (byteVal c)); destruct (Z.ltb_spec (byteVal c) 240);
      cbn [andb]; try lia;
      destruct (Z.leb_spec 240 (byteVal c)); destruct (Z.ltb_spec (byteVal c) 248);
      cbn [andb]; try lia; reflexivity. }
  rewrite ED. reflexivity.
Qed.

Lemma unescapeValue_runes_stray_witness :
  unescapeValue_runes (String (byte 255) "x")
  = String (byte 239) (String (byte 191) (String (byte 189) "x")).
Proof.
  rewrite (unescapeValue_runes_stray (byte 255) "x"); [reflexivity|].
  right. vm_compute. discriminate.
Defined.

Lemma escape_app (s t : string) : escape (s +:+ t) = escape s +:+ escape t.
Proof.
  induction s as [|c s IH]; [reflexivity|]. rewrite app_cons. cbn [escape].
  rewrite IH. destruct (_ || _); reflexivity.
Qed.

Lemma highByte_not_quote (c : ascii) :
  highByte c = true -> Ascii.eqb c quote = false.
Proof.
  unfold highByte. intros H. apply Z.leb_le in H.
  destruct (Ascii.eqb_spec c quote) as [->|]; [|reflexivity].
  vm_compute in H. contradiction H. reflexivity.
Qed.

Lemma escape_high (enc : string) :
  allBytes highByte enc = true -> escape enc = enc.
Proof.
  induction enc as [|c enc IH]; [reflexivity|]. cbn [allBytes escape].
  rewrite andb_true_iff. intros [Hc H].
  rewrite (highByte_not_quote c Hc), (highByte_not_backslash c Hc), (IH H).
  reflexivity.
Qed.

(** Escaping keeps a value valid. *)
Lemma validFrom_escape (n : nat) :
  forall value,
    (String.length value <= n)%nat -> validFrom 0 value = true ->
    validFrom 0 (escape value) = true.
Proof.
  induction n as [|n IH]; intros value Hl Hv.
  { destruct value; [reflexivity | simpl in Hl; lia]. }
  destruct value as [|c rest]; [reflexivity|].
  cbn [validFrom] in Hv.
  destruct (Z.ltb_spec (byteVal c) 128) as [Ha|Ha].
  - simpl in Hl. assert (Hr : validFrom 0 (escape rest) = true)
      by (apply IH; [lia | exact Hv]).
    cbn [escape]. destruct (_ || _); cbn [validFrom].
    + change (byteVal backslash <? 128) with true. cbn iota.
      destruct (Z.ltb_spec (byteVal c) 128); [exact Hr | lia].
    + destruct (Z.ltb_spec (byteVal c) 128); [exact Hr | lia].
  - apply andb_true_iff in Hv as [Hw Hv]. apply Nat.leb_le in Hw.
    destruct (decoderune (String c rest)) as [r w] eqn:ED. cbn [snd] in *.
    destruct (decoderune_wide _ _ _ ED Hw) as (enc & rest' & E & Hlen & _ & Hh & _).
    pose proof (decoderune_prefix _ _ _ _ _ ED Hw E Hlen (escape rest')) as EP.
    rewrite E, escape_app, (escape_high enc Hh).
    destruct enc as [|c' enc]; [simpl in Hlen; lia|].
    rewrite app_cons in E. injection E as <- ->.
    rewrite app_cons in *. cbn [validFrom].
    destruct (Z.ltb_spec (byteVal c) 128); [lia|].
    rewrite EP. cbn [snd String.length] in *.
    replace (w - 1)%nat with (String.length enc) in * by lia.
    rewrite validFrom_skip in *.
    apply andb_true_iff. split; [apply Nat.leb_le; lia|].
    apply IH; [|exact Hv]. simpl in Hl. rewrite length_app_s in Hl. lia.
Qed.

(** [unescapeValue] undoes the escaping of a value that is valid UTF-8:
    a backslash before every quote and every backslash. *)
Theorem unescapeValue_runes_escape (value : string) :
  validUTF8 value -> unescapeValue_runes (escape value) = value.
Proof.
  intros H. unfold unescapeValue_runes.
  rewrite (unescapeRunes_bytes _ (escape value) false (Nat.le_refl _)).
  - apply unescapeLoop_escape.
  - exact (validFrom_escape _ value (Nat.le_refl _) H).
Qed.

Lemma unescapeValue_runes_escape_witness :
  unescapeValue_runes
    (escape ("C:\tor " +:+ String quote ("x" +:+ String (byte 195)
                                           (String (byte 169) EmptyString))))
  = "C:\tor " +:+ String quote ("x" +:+ String (byte 195)
                                  (String (byte 169) EmptyString)).
Proof.
  apply (unescapeValue_runes_escape
           ("C:\tor " +:+ String quote ("x" +:+ String (byte 195)
                                          (String (byte 169) EmptyString)))).
  reflexivity.
Defined.

End Runes.
